(** * SemanticsKG: the clustering / merging engine of [Clustering.py]

    A shallow embedding of the knowledge-graph clustering pipeline
    ([normalize_entity], [similar], [cluster_entities], [merge_relations],
    [analyze_relations], [cluster_knowledge_graphs], [process_directory])
    together with the properties the design document states about it.

    Conventions of the embedding.
    - A Python [str] is a list of code points.  Code points are the 256
      values of [ascii], read as the Latin-1 block of Unicode; on that block
      [str.lower], [str.isspace] and the regular-expression classes [\w] and
      [\s] are the tables given below.
    - A Python [set] is a [gset]; a [dict] whose iteration order is
      observable is an association list in insertion order; a [dict] that is
      only looked up is a [gmap].
    - A call that may raise returns a [result]. *)

From Stdlib Require Import Ascii String ZArith QArith List Permutation Sorted.
From Stdlib Require Import DecimalString.
From stdpp Require Import base option list sets gmap strings sorting.
Import ListNotations.

Local Open Scope nat_scope.

(** ** Exceptions *)

Inductive exn : Type :=
  | IndexError
  | ZeroDivisionError
  | OSError.

Inductive result (A : Type) : Type :=
  | Ok (a : A)
  | Raise (e : exn).
Arguments Ok {A} a.
Arguments Raise {A} e.

Definition result_bind {A B} (m : result A) (f : A -> result B) : result B :=
  match m with
  | Ok a => f a
  | Raise e => Raise e
  end.

Notation "'do' x <- m ; k" := (result_bind m (fun x => k))
  (at level 10, x pattern, m at level 100, k at level 200).

(** A [for] loop whose body may raise: the first exception ends the loop. *)
Fixpoint for_each {A S} (body : S -> A -> result S) (l : list A) (s : S) : result S :=
  match l with
  | [] => Ok s
  | x :: l' => do s' <- body s x; for_each body l' s'
  end.

(** ** Strings *)

Abbreviation str := (list ascii) (only parsing).

Definition str_of (s : string) : str := list_ascii_of_string s.

Definition code (c : ascii) : N := N_of_ascii c.

Definition between (lo hi n : N) : bool := ((lo <=? n) && (n <=? hi))%N.

(** [str.isspace] / [\s] on Latin-1: TAB..CR, FS..US, SPACE, NEL, NBSP. *)
Definition is_space (c : ascii) : bool :=
  let n := code c in
  between 9 13 n || between 28 32 n || (n =? 133)%N || (n =? 160)%N.

(** [\w] on Latin-1: alphanumerics (letters, digits, superscript digits,
    vulgar fractions, ordinal indicators, micro sign) and the underscore. *)
Definition is_word (c : ascii) : bool :=
  let n := code c in
  between 48 57 n || between 65 90 n || (n =? 95)%N || between 97 122 n
  || (n =? 170)%N || between 178 179 n || (n =? 181)%N || between 185 186 n
  || between 188 190 n || between 192 214 n || between 216 246 n
  || between 248 255 n.

(** [str.lower] on one code point of Latin-1. *)
Definition lower_char (c : ascii) : ascii :=
  let n := code c in
  if between 65 90 n || between 192 214 n || between 216 222 n
  then ascii_of_N (n + 32)
  else c.

Definition lower (s : str) : str := map lower_char s.

Fixpoint lstrip (s : str) : str :=
  match s with
  | c :: s' => if is_space c then lstrip s' else s
  | [] => []
  end.

Definition rstrip (s : str) : str := rev (lstrip (rev s)).

(** [s.strip()] *)
Definition strip (s : str) : str := rstrip (lstrip s).

(** [s.split()]: the maximal runs of non-whitespace, [cur] being the run
    under construction, latest character first. *)
Fixpoint split_from (cur : str) (s : str) : list str :=
  match s with
  | [] => match cur with [] => [] | _ => [rev cur] end
  | c :: s' =>
      if is_space c
      then match cur with [] => split_from [] s' | _ => rev cur :: split_from [] s' end
      else split_from (c :: cur) s'
  end.

Definition split (s : str) : list str := split_from [] s.

(** [l[0]] *)
Definition first_item {A} (l : list A) : result A :=
  match l with
  | x :: _ => Ok x
  | [] => Raise IndexError
  end.

(** ** Normalizer *)

Definition articles : list str :=
  map str_of ["il"; "la"; "lo"; "i"; "gli"; "le"; "un"; "uno"; "una"]%string.

(** [p] read off the front of [s]: what is left of [s]. *)
Fixpoint read_literal (p s : str) : option str :=
  match p, s with
  | [], _ => Some s
  | c :: p', d :: s' => if Ascii.eqb c d then read_literal p' s' else None
  | _ :: _, [] => None
  end.

(** [\s+] at the end of the pattern: greedy, and nothing follows that could
    make it give characters back. *)
Definition read_spaces1 (s : str) : option str :=
  match s with
  | c :: s' => if is_space c then Some (lstrip s') else None
  | [] => None
  end.

(** [(il|la|...)\s+]: the alternatives are tried from left to right, the
    next one when the rest of the pattern fails after the current one. *)
Fixpoint read_article (alts : list str) (s : str) : option str :=
  match alts with
  | [] => None
  | alt :: alts' =>
      match read_literal alt s ≫= read_spaces1 with
      | Some r => Some r
      | None => read_article alts' s
      end
  end.

(** [^\s*(il|la|...)\s+] at position 0: the greedy star first takes one
    more whitespace character, and gives it back when the rest fails. *)
Fixpoint read_leading_article (s : str) : option str :=
  match s with
  | c :: s' =>
      if is_space c
      then match read_leading_article s' with
           | Some r => Some r
           | None => read_article articles s
           end
      else read_article articles s
  | [] => read_article articles s
  end.

(** [re.sub(r'^\s*(il|...)\s+', '', s)]: the pattern is anchored, so there
    is at most one match, at position 0. *)
Definition sub_leading_article (s : str) : str :=
  match read_leading_article s with
  | Some r => r
  | None => s
  end.

(** [re.sub(r'[^\w\s]', '', s)] *)
Definition sub_punctuation (s : str) : str :=
  List.filter (fun c => is_word c || is_space c) s.

Definition normalize_entity (entity : str) : str :=
  let entity := sub_leading_article (lower entity) in
  let entity := strip (sub_punctuation entity) in
  entity.


(** ** Similarity: [difflib.SequenceMatcher(None, a, b).ratio()]

    The matcher is the standard library's; it is embedded here as CPython
    implements it, with [isjunk = None] and the default [autojunk = True]. *)

Module SequenceMatcher.
Section Matcher.
Variables a b : str.

Fixpoint positions_from (start : nat) (elt : ascii) (s : str) : list nat :=
  match s with
  | [] => []
  | c :: s' =>
      if Ascii.eqb elt c
      then start :: positions_from (S start) elt s'
      else positions_from (S start) elt s'
  end.

(** [b2j.get(elt, [])] after [__chain_b]: the ascending positions of [elt]
    in [b]; a "popular" element (more than [n // 100 + 1] occurrences in a
    [b] of at least 200 elements) has been deleted from the table. *)
Definition b2j (elt : ascii) : list nat :=
  let idxs := positions_from 0 elt b in
  let n := length b in
  if (200 <=? n) && (n / 100 + 1 <? length idxs) then [] else idxs.

(** [isjunk] is [None], so [bjunk] is the empty set. *)
Definition isbjunk (elt : ascii) : bool := false.

Abbreviation Match := (nat * nat * nat)%type (only parsing).

(** The loop over [j] for one [i].  The positions ascend, so [break]
    leaves the loop with what was recorded so far.  [j2len.get(j-1, 0)]
    is 0 at [j = 0], the key [-1] never being present. *)
Fixpoint scan_row (blo bhi i : nat) (j2len : gmap nat nat) (js : list nat)
    (newj2len : gmap nat nat) (best : Match) : gmap nat nat * Match :=
  match js with
  | [] => (newj2len, best)
  | j :: js' =>
      if j <? blo then scan_row blo bhi i j2len js' newj2len best
      else if bhi <=? j then (newj2len, best)
      else
        let k := match j with
                 | O => 0
                 | S j' => default 0 (j2len !! j')
                 end + 1 in
        let '(besti, bestj, bestsize) := best in
        let best := if bestsize <? k then (i + 1 - k, j + 1 - k, k) else best in
        scan_row blo bhi i j2len js' (<[j:=k]> newj2len) best
  end.

Fixpoint scan_rows (blo bhi : nat) (rows : list nat) (j2len : gmap nat nat)
    (best : Match) : Match :=
  match rows with
  | [] => best
  | i :: rows' =>
      let js := match a !! i with Some elt => b2j elt | None => [] end in
      let '(newj2len, best) := scan_row blo bhi i j2len js ∅ best in
      scan_rows blo bhi rows' newj2len best
  end.

Definition same_at (i j : nat) (allowed : ascii -> bool) : bool :=
  match a !! i, b !! j with
  | Some x, Some y => allowed y && Ascii.eqb x y
  | _, _ => false
  end.

(** [while besti > alo and bestj > blo and allowed(b[bestj-1]) and
    a[besti-1] == b[bestj-1]]; [besti] decreases, so [besti] rounds are
    enough. *)
Fixpoint extend_left (rounds alo blo : nat) (allowed : ascii -> bool)
    (best : Match) : Match :=
  let '(besti, bestj, bestsize) := best in
  match rounds with
  | O => best
  | S rounds' =>
      if (alo <? besti) && (blo <? bestj) && same_at (besti - 1) (bestj - 1) allowed
      then extend_left rounds' alo blo allowed (besti - 1, bestj - 1, bestsize + 1)
      else best
  end.

(** [while besti+bestsize < ahi and bestj+bestsize < bhi and ...]; the
    distance to [ahi] decreases. *)
Fixpoint extend_right (rounds ahi bhi : nat) (allowed : ascii -> bool)
    (best : Match) : Match :=
  let '(besti, bestj, bestsize) := best in
  match rounds with
  | O => best
  | S rounds' =>
      if (besti + bestsize <? ahi) && (bestj + bestsize <? bhi)
         && same_at (besti + bestsize) (bestj + bestsize) allowed
      then extend_right rounds' ahi bhi allowed (besti, bestj, bestsize + 1)
      else best
  end.

Definition find_longest_match (alo ahi blo bhi : nat) : Match :=
  let best := scan_rows blo bhi (seq alo (ahi - alo)) ∅ (alo, blo, 0) in
  let best := extend_left (fst (fst best)) alo blo (fun c => negb (isbjunk c)) best in
  let best := extend_right ahi ahi bhi (fun c => negb (isbjunk c)) best in
  let best := extend_left (fst (fst best)) alo blo isbjunk best in
  let best := extend_right ahi ahi bhi isbjunk best in
  best.

(** The [while queue] loop of [get_matching_blocks]; the queue is a stack
    whose top is the head of the list. *)
Fixpoint matching_loop (rounds : nat) (queue : list (nat * nat * nat * nat))
    (matching_blocks : list Match) : list Match :=
  match rounds, queue with
  | S rounds', (alo, ahi, blo, bhi) :: queue =>
      let '(i, j, k) := find_longest_match alo ahi blo bhi in
      if k =? 0 then matching_loop rounds' queue matching_blocks
      else
        let queue :=
          if (alo <? i) && (blo <? j) then (alo, i, blo, j) :: queue else queue in
        let queue :=
          if (i + k <? ahi) && (j + k <? bhi)
          then (i + k, ahi, j + k, bhi) :: queue else queue in
        matching_loop rounds' queue (matching_blocks ++ [(i, j, k)])
  | _, _ => matching_blocks
  end.

(** Every round that finds a block removes an element of [a] from the
    ranges still queued and queues at most two ranges, so there are at most
    [2 * len(a) + 1] rounds (lemma [matches_rounds] below).  Sorting the
    blocks and collapsing adjacent
    ones, which [get_matching_blocks] does next, leaves the sum of their
    sizes as it is; [ratio] reads nothing else. *)
Definition matches : nat :=
  let la := length a in
  let lb := length b in
  list_sum (map snd (matching_loop (2 * la + 2) [(0, la, 0, lb)] [])).

Definition calculate_ratio (matches length : nat) : Q :=
  if length =? 0 then 1%Q
  else (Z.of_nat (2 * matches) # Pos.of_nat length).

Definition ratio : Q := calculate_ratio matches (length a + length b).
End Matcher.
End SequenceMatcher.

(** [similar(a, b, threshold)].  The source compares two floats, the
    rounded quotient and the threshold; the embedding compares the exact
    quotient with the threshold as a rational. *)
Definition similar (a b : str) (threshold : Q) : bool :=
  Qle_bool threshold (SequenceMatcher.ratio a b).


(** ** Clusterer *)

(** [enumerate(l, start)] *)
Fixpoint enumerate {A} (start : nat) (l : list A) : list (nat * A) :=
  match l with
  | [] => []
  | x :: l' => (start, x) :: enumerate (S start) l'
  end.

(** [d[key].append(v)] on a [defaultdict(list)]: a missing key is created
    with the empty list, after the keys already there. *)
Fixpoint dict_append (key v : str) (d : list (str * list str)) : list (str * list str) :=
  match d with
  | [] => [(key, [v])]
  | (k, vs) :: d' =>
      if decide (k = key) then (k, vs ++ [v]) :: d'
      else (k, vs) :: dict_append key v d'
  end.

(** The test of the inner loop.  [or] evaluates from left to right and
    stops at the first true operand; [norm.split()[0]] raises on a string
    without a token. *)
Definition joins (norm1 norm2 : str) (similarity_threshold : Q) : result bool :=
  if similar norm1 norm2 similarity_threshold then Ok true
  else
    do tok1 <- first_item (split norm1);
    do tok2 <- first_item (split norm2);
    if decide (tok1 = tok2) then Ok true
    else Ok (bool_decide (take 5 norm1 = take 5 norm2)).

Abbreviation cluster_state := (list (list ascii * list (list ascii)) * gset nat)%type (only parsing).

Definition inner_body (similarity_threshold : Q) (norm1 orig1 : str)
    (st : cluster_state) (item : nat * (str * str)) : result cluster_state :=
  let '(clusters, used_indices) := st in
  let '(j, (norm2, orig2)) := item in
  if decide (j ∈ used_indices) then Ok st
  else
    do hit <- joins norm1 norm2 similarity_threshold;
    if hit then Ok (dict_append orig1 orig2 clusters, {[j]} ∪ used_indices)
    else Ok st.

Definition outer_body (similarity_threshold : Q) (normalized_entities : list (str * str))
    (st : cluster_state) (item : nat * (str * str)) : result cluster_state :=
  let '(clusters, used_indices) := st in
  let '(i, (norm1, orig1)) := item in
  if decide (i ∈ used_indices) then Ok st
  else
    let clusters := dict_append orig1 orig1 clusters in
    let used_indices := {[i]} ∪ used_indices in
    for_each (inner_body similarity_threshold norm1 orig1)
      (enumerate (i + 1) (drop (i + 1) normalized_entities))
      (clusters, used_indices).

Definition cluster_entities (entities : list str) (similarity_threshold : Q)
    : result (list (str * list str)) :=
  let normalized_entities := map (fun e => (normalize_entity e, e)) entities in
  do st <- for_each (outer_body similarity_threshold normalized_entities)
             (enumerate 0 normalized_entities) ([], ∅);
  Ok (fst st).

Definition default_threshold : Q := 85 # 100.

(** ** Ordering and [sorted] *)

(** [s < t] on [str]: by code point, a proper prefix first. *)
Fixpoint str_ltb (s t : str) : bool :=
  match s, t with
  | _, [] => false
  | [], _ :: _ => true
  | c :: s', d :: t' =>
      if (code c <? code d)%N then true
      else if (code d <? code c)%N then false
      else str_ltb s' t'
  end.

Abbreviation triple := (list ascii * list ascii * list ascii)%type (only parsing).

(** [<] on tuples: the first position where the two differ decides. *)
Definition triple_ltb (x y : triple) : bool :=
  let '(s1, r1, t1) := x in
  let '(s2, r2, t2) := y in
  if decide (s1 = s2)
  then if decide (r1 = r2) then str_ltb t1 t2 else str_ltb r1 r2
  else str_ltb s1 s2.

(** [sorted] is stable, and a stable sort has one possible result: the one
    of this insertion sort, which puts an element before the elements
    already placed that are not smaller than it. *)
Fixpoint insert_sorted {A} (lt : A -> A -> bool) (x : A) (l : list A) : list A :=
  match l with
  | [] => [x]
  | y :: l' => if lt y x then y :: insert_sorted lt x l' else x :: y :: l'
  end.

Fixpoint sorted {A} (lt : A -> A -> bool) (l : list A) : list A :=
  match l with
  | [] => []
  | x :: l' => insert_sorted lt x (sorted lt l')
  end.

(** ** RelationMerger *)

Definition stoplist : list str := map str_of ["is"; "has"; "of"]%string.

(** The two nested loops that fill [entity_to_cluster]; a later assignment
    to the same member replaces the earlier one. *)
Definition build_entity_to_cluster (entity_clusters : list (str * list str)) : gmap str str :=
  fold_left
    (fun m '(cluster_rep, members) =>
       fold_left (fun m member => <[member := cluster_rep]> m) members m)
    entity_clusters ∅.

(** [entity_to_cluster.get(e, e)] *)
Definition resolve (entity_to_cluster : gmap str str) (e : str) : str :=
  default e (entity_to_cluster !! e).

(** The filter of non-informative relations. *)
Definition uninformative (new_src rel new_tgt : str) : bool :=
  bool_decide (lower new_src = lower new_tgt)
  || (length (strip rel) <? 3)
  || bool_decide (lower rel ∈ stoplist).

Definition merge_step (entity_to_cluster : gmap str str)
    (merged_relations : gset triple) (r : triple) : gset triple :=
  let '(src, rel, tgt) := r in
  let new_src := resolve entity_to_cluster src in
  let new_tgt := resolve entity_to_cluster tgt in
  if uninformative new_src rel new_tgt then merged_relations
  else {[ (new_src, rel, new_tgt) ]} ∪ merged_relations.

(** [sorted] of a set: the elements are distinct and [<] on tuples of
    strings is total, so the order in which the set is iterated does not
    show in the result (lemma [sorted_triples_perm] below). *)
Definition merge_relations (relations : list triple)
    (entity_clusters : list (str * list str)) : list triple :=
  let entity_to_cluster := build_entity_to_cluster entity_clusters in
  let merged_relations := fold_left (merge_step entity_to_cluster) relations ∅ in
  sorted triple_ltb (elements merged_relations).

(** ** RelationAnalyzer *)

(** [d[key] += 1] on a [defaultdict(int)] *)
Fixpoint bump {K} `{EqDecision K} (key : K) (d : list (K * nat)) : list (K * nat) :=
  match d with
  | [] => [(key, 1)]
  | (k, n) :: d' =>
      if decide (k = key) then (k, n + 1) :: d'
      else (k, n) :: bump key d'
  end.

Record RelationAnalysis : Type := {
  top_relations : list (str * nat);
  common_entity_pairs : list (str * str * nat)
}.

(** [key=lambda x: -x[1]] under [<] *)
Definition more_frequent {K} (x y : K * nat) : bool :=
  (- Z.of_nat (snd x) <? - Z.of_nat (snd y))%Z.

Definition count_step (st : list (str * nat) * list (str * str * nat)) (r : triple)
    : list (str * nat) * list (str * str * nat) :=
  let '(rel_counts, entity_pairs) := st in
  let '(src, rel, tgt) := r in
  (bump (lower rel) rel_counts, bump (lower src, lower tgt) entity_pairs).

Definition analyze_relations (relations : list triple) : RelationAnalysis :=
  let '(rel_counts, entity_pairs) := fold_left count_step relations ([], []) in
  {| top_relations := take 10 (sorted more_frequent rel_counts);
     common_entity_pairs := take 5 (sorted more_frequent entity_pairs) |}.

(** ** Effects at the edge of the pipeline

    Printing, creating the output directory and writing files are recorded
    as a trace of events, oldest first, next to the outcome of the call. *)

(** [os.path.join(directory, file)], kept as its two components. *)
Abbreviation path := (list ascii * list ascii)%type (only parsing).

(** An input fragment: a JSON object read through [.get(key, [])]. *)
Record Graph : Type := {
  entities : option (list str);
  relations : option (list triple);
  edges : option (list str)
}.

Record Stats : Type := {
  original_entities : nat;
  clustered_entities : nat;
  original_relations : nat;
  merged_relations : nat;
  relation_analysis : RelationAnalysis
}.

Record ClusteredGraph : Type := {
  out_entities : list str;
  out_relations : list triple;
  out_edges : list str;
  entity_clusters : list (str * list str);
  stats : Stats
}.

Inductive message : Type :=
  | LoadedGraph (file_path : path)
  | ErrorLoading (file_path : path)
  | PreClustering (n_entities n_relations : nat)
  | SavedTo (output_path : path)
  | Rule
  | LoadingFrom (input_dir : str)
  | NoValidGraphs
  | ClusteringGraphs (n : nat) (similarity_threshold : Q)
  | ResultsHeader
  | OriginalEntities (n : nat)
  | ClusteredEntities (clustered original : nat)
  | OriginalRelations (n : nat)
  | MergedRelations (n : nat)
  | TopRelationsHeader
  | TopRelation (rel : str) (count : nat).

Inductive artifact : Type :=
  | ClusteredGraphJson (graph : ClusteredGraph)
  | ClusteringDetailsJson (clusters : list (str * list str)) (st : Stats).

Inductive event : Type :=
  | Mkdir (dir : str)
  | Print (m : message)
  | WriteFile (p : path) (content : artifact).

Definition io (A : Type) : Type := list event * result A.

Definition io_ret {A} (a : A) : io A := ([], Ok a).

Definition io_raise {A} (e : exn) : io A := ([], Raise e).

Definition emit (e : event) : io unit := ([e], Ok tt).

Definition io_bind {A B} (m : io A) (f : A -> io B) : io B :=
  match m with
  | (t, Ok a) => let '(t', r) := f a in (t ++ t', r)
  | (t, Raise e) => (t, Raise e)
  end.

Notation "'io!' x <- m ; k" := (io_bind m (fun x => k))
  (at level 10, x pattern, m at level 100, k at level 200).
Notation "'run!' m ; k" := (io_bind m (fun _ => k))
  (at level 10, m at level 100, k at level 200).

Fixpoint io_for_each {A S} (body : S -> A -> io S) (l : list A) (s : S) : io S :=
  match l with
  | [] => io_ret s
  | x :: l' => io! s' <- body s x; io_for_each body l' s'
  end.

Definition lift {A} (r : result A) : io A := ([], r).

(** What reading one file gives: [open] or [json.load] raises; the value
    is not a dict with the key ['entities']; or it is a fragment. *)
Inductive file_content : Type :=
  | Unreadable
  | OtherJson
  | GraphJson (graph : Graph).

(** The file system as the program meets it. *)
Record filesystem : Type := {
  (** [os.walk(directory)]: each directory with its files *)
  walk : str -> list (str * list (str * file_content));
  (** whether [Path(dir).mkdir(parents=True, exist_ok=True)] succeeds *)
  mkdir_ok : str -> bool;
  (** whether [open(path, 'w')] succeeds *)
  writable : path -> bool
}.

(** ** Aggregator *)

Definition endswith (s suffix : str) : bool :=
  (length suffix <=? length s)
  && bool_decide (drop (length s - length suffix) s = suffix).

Definition startswith (s prefix : str) : bool :=
  bool_decide (take (length prefix) s = prefix).

Definition load_file (root : str) (graphs : list Graph) (f : str * file_content)
    : io (list Graph) :=
  let '(file, content) := f in
  if endswith file (str_of ".json") && negb (startswith file (str_of "aggregated"))
  then
    let file_path := (root, file) in
    match content with
    | Unreadable => run! emit (Print (ErrorLoading file_path)); io_ret graphs
    | OtherJson => run! emit (Print (LoadedGraph file_path)); io_ret graphs
    | GraphJson graph =>
        run! emit (Print (LoadedGraph file_path)); io_ret (graphs ++ [graph])
    end
  else io_ret graphs.

Definition load_graphs_from_directory (fs : filesystem) (directory : str)
    : io (list Graph) :=
  io_for_each
    (fun graphs '(root, files) => io_for_each (load_file root) files graphs)
    (walk fs directory) [].

Definition predicate_of (r : triple) : str := let '(_, rel, _) := r in rel.

Section Aggregator.
(** [list(s)]: the order in which a set is iterated is the interpreter's. *)
Variable list_of_entities : gset str -> list str.
Variable list_of_relations : gset triple -> list triple.

Definition union_entities (graphs : list Graph) : gset str :=
  fold_left (fun all g => all ∪ list_to_set (default [] (entities g))) graphs ∅.

Definition union_relations (graphs : list Graph) : gset triple :=
  fold_left (fun all g => all ∪ list_to_set (default [] (relations g))) graphs ∅.

Definition cluster_knowledge_graphs (graphs : list Graph) (similarity_threshold : Q)
    : io ClusteredGraph :=
  let all_entities := union_entities graphs in
  let all_relations := union_relations graphs in
  run! emit (Print (PreClustering (size all_entities) (size all_relations)));
  io! clusters <- lift (cluster_entities (list_of_entities all_entities) similarity_threshold);
  let merged := merge_relations (list_of_relations all_relations) clusters in
  let relation_stats := analyze_relations merged in
  io_ret
    {| out_entities := sorted str_ltb (map fst clusters);
       out_relations := merged;
       out_edges := sorted str_ltb (elements (list_to_set (map predicate_of merged) : gset str));
       entity_clusters := clusters;
       stats :=
         {| original_entities := size all_entities;
            clustered_entities := length clusters;
            original_relations := size all_relations;
            merged_relations := length merged;
            relation_analysis := relation_stats |} |}.

Definition save_clustered_graph (fs : filesystem) (graph : ClusteredGraph)
    (output_path : path) : io unit :=
  if writable fs output_path
  then run! emit (WriteFile output_path (ClusteredGraphJson graph));
       emit (Print (SavedTo output_path))
  else io_raise OSError.

Definition print_top_relations (l : list (str * nat)) : io unit :=
  io_for_each (fun _ '(rel, count) => emit (Print (TopRelation rel count))) l tt.

Definition process_directory (fs : filesystem) (input_dir output_dir : str)
    (similarity_threshold : Q) : io unit :=
  run! (if mkdir_ok fs output_dir then emit (Mkdir output_dir) else io_raise OSError);
  run! emit (Print Rule);
  run! emit (Print (LoadingFrom input_dir));
  io! graphs <- load_graphs_from_directory fs input_dir;
  match graphs with
  | [] => emit (Print NoValidGraphs)
  | _ :: _ =>
      run! emit (Print (ClusteringGraphs (length graphs) similarity_threshold));
      io! clustered_graph <- cluster_knowledge_graphs graphs similarity_threshold;
      let output_file := (output_dir, str_of "clustered_kg.json") in
      run! save_clustered_graph fs clustered_graph output_file;
      let clusters_file := (output_dir, str_of "clustering_details.json") in
      run! (if writable fs clusters_file
           then emit (WriteFile clusters_file
                        (ClusteringDetailsJson (entity_clusters clustered_graph)
                           (stats clustered_graph)))
           else io_raise OSError);
      let stats := stats clustered_graph in
      run! emit (Print ResultsHeader);
      run! emit (Print (OriginalEntities (original_entities stats)));
      run! (if original_entities stats =? 0 then io_raise ZeroDivisionError
           else emit (Print (ClusteredEntities (clustered_entities stats)
                               (original_entities stats))));
      run! emit (Print (OriginalRelations (original_relations stats)));
      run! emit (Print (MergedRelations (merged_relations stats)));
      run! emit (Print TopRelationsHeader);
      run! print_top_relations (top_relations (relation_analysis stats));
      emit (Print Rule)
  end.
End Aggregator.

(** ** Vocabulary of the statements *)

(** No whitespace in front. *)
Definition head_ok (s : str) : Prop :=
  match s with
  | c :: _ => is_space c = false
  | [] => True
  end.

(** What a successful match of the article pattern leaves: a proper suffix
    that does not begin with whitespace. *)
Definition rest_of (s r : str) : Prop :=
  exists p, s = p ++ r /\ p <> [] /\ head_ok r.

(** The members of all clusters, cluster after cluster. *)
Definition all_members (clusters : list (str * list str)) : list str :=
  concat (map snd clusters).

(** [e] is a member of the cluster [c]. *)
Definition member_of (e : str) (c : str * list str) : Prop := e ∈ snd c.

(** The clusters partition [entities]: their member lists together hold
    every entity once and nothing else, the representatives are distinct,
    and an entity is in one cluster only. *)
Definition partitions (clusters : list (str * list str)) (entities : list str) : Prop :=
  all_members clusters ≡ₚ entities
  /\ NoDup (map fst clusters)
  /\ forall e, e ∈ entities ->
       exists c, c ∈ clusters /\ member_of e c
                 /\ forall c', c' ∈ clusters -> member_of e c' -> c' = c.

(** Every normalized form has a first token. *)
Definition tokenized (entities : list str) : Prop :=
  forall e, e ∈ entities -> split (normalize_entity e) <> [].

(** ** Scenarios of the design document *)

Definition scenario_A_entities : list str :=
  map str_of ["Il Cane"; "cane"; "Gatto"]%string.

Definition scenario_A_clusters : list (str * list str) :=
  [(str_of "Il Cane", [str_of "Il Cane"; str_of "cane"]);
   (str_of "Gatto", [str_of "Gatto"])].

Definition triple_of (x : string * string * string) : triple :=
  let '(s, r, t) := x in (str_of s, str_of r, str_of t).

Definition scenario_B_relations : list triple :=
  map triple_of [("Il Cane", "is", "Gatto"); ("cane", "mangia", "carne")]%string.

(** An entity without a token next to one with a token. *)
Definition untokenized_entities : list str := map str_of ["!"; "abc"]%string.


(** A relation that survives the filter, after resolution. *)
Definition survivor (entity_to_cluster : gmap str str) (relations : list triple)
    (x : triple) : Prop :=
  exists src rel tgt,
    (src, rel, tgt) ∈ relations
    /\ x = (resolve entity_to_cluster src, rel, resolve entity_to_cluster tgt)
    /\ uninformative (resolve entity_to_cluster src) rel
         (resolve entity_to_cluster tgt) = false.

(** The entities whose indices are marked used. *)
Definition consumed (entities : list str) (used_indices : gset nat) : list str :=
  (fun k => default [] (entities !! k)) <$> elements used_indices.

(** The invariant of both loops of the clusterer: the clusters hold the
    consumed entities and nothing else, under distinct representatives, and
    only indices of the input are ever marked. *)
Definition cluster_inv (entities : list str) (st : cluster_state) : Prop :=
  all_members (fst st) ≡ₚ consumed entities (snd st)
  /\ NoDup (map fst (fst st))
  /\ forall k, k ∈ snd st -> k < length entities.


(** [d.get(key, 0)] on a dictionary of counts. *)
Fixpoint get_count {K} `{EqDecision K} (d : list (K * nat)) (key : K) : nat :=
  match d with
  | [] => 0
  | (k, n) :: d' => if decide (k = key) then n else get_count d' key
  end.

(** How many items of [l] have the key [key] under [f]. *)
Definition occurrences {A K} `{EqDecision K} (f : A -> K) (key : K) (l : list A) : nat :=
  length (filter (fun x => f x = key) l).

Definition lowered_predicate (r : triple) : str :=
  let '(_, rel, _) := r in lower rel.

Definition lowered_endpoints (r : triple) : str * str :=
  let '(src, _, tgt) := r in (lower src, lower tgt).

(** The reported pairs: at most [limit] of them, with distinct keys, in
    non-increasing order of count, each count being the number of inputs
    with that key, and no key left out occurring more often than a
    reported one. *)
Definition top_counts {A K} `{EqDecision K} (f : A -> K) (limit : nat)
    (inputs : list A) (report : list (K * nat)) : Prop :=
  length report <= limit
  /\ Sorted (fun x y => snd y <= snd x) report
  /\ NoDup (map fst report)
  /\ (forall key n, (key, n) ∈ report -> n = occurrences f key inputs /\ 0 < n)
  /\ (forall key x, key ∈ map f inputs -> key ∉ map fst report -> x ∈ report ->
        occurrences f key inputs <= snd x).


(** The counting loop of the analyzer for one dictionary, [f] giving the
    key of an input. *)
Definition tally {A K} `{EqDecision K} (f : A -> K) (l : list A)
    (d : list (K * nat)) : list (K * nat) :=
  fold_left (fun d x => bump (f x) d) l d.


(** The family of the clusters' member sets, as sets of normalized forms. *)
Definition normalized_family (clusters : list (str * list str)) : gset (gset str) :=
  list_to_set
    (map (fun c => list_to_set (map normalize_entity (snd c)) : gset str) clusters).

(** Three entities, the first similar to each of the other two, which are
    not similar to one another. *)
Definition chain_entities : list str :=
  map str_of ["abcde"; "abcdezzzzzzzzzz"; "bcde"]%string.

Definition chain_entities_reordered : list str :=
  map str_of ["abcdezzzzzzzzzz"; "abcde"; "bcde"]%string.

(** The files a run has written. *)
Definition writes (trace : list event) : list (path * artifact) :=
  omap (fun e => match e with WriteFile p a => Some (p, a) | _ => None end) trace.

Definition is_print (e : event) : Prop :=
  match e with
  | Print _ => True
  | _ => False
  end.

(** A file system with nothing under any directory. *)
Definition empty_filesystem : filesystem :=
  {| walk := fun _ => []; mkdir_ok := fun _ => true; writable := fun _ => true |}.

(** Two fragments that differ in their edge lists only. *)
Definition fragment_with_edges (edge_list : option (list str)) : Graph :=
  {| entities := Some scenario_A_entities;
     relations := Some scenario_B_relations;
     edges := edge_list |}.


(** [x] is not after [y] in the order of [lt]. *)
Definition not_after {A} (lt : A -> A -> bool) (x y : A) : Prop := lt y x = false.

(** A block lies in the range [alo, ahi) of the first sequence. *)
Definition block_in_range (alo ahi : nat) (m : nat * nat * nat) : Prop :=
  let '(i, _, k) := m in alo <= i /\ i + k <= ahi.

(** The work left in the queue of [get_matching_blocks]: a round takes one
    range away and leaves, in the two ranges it may add, at least one
    element of the first sequence less. *)
Definition queue_weight (queue : list (nat * nat * nat * nat)) : nat :=
  list_sum (map (fun '(alo, ahi, _, _) => 2 * (ahi - alo) + 1) queue).

Definition queue_ok (queue : list (nat * nat * nat * nat)) : Prop :=
  Forall (fun '(alo, ahi, _, _) => alo <= ahi) queue.


(** What [cluster_entities] keeps true of every cluster: the representative
    is the first member, and every member is the representative or passed
    the test of the inner loop against it. *)
Definition seeded (similarity_threshold : Q) (c : str * list str) : Prop :=
  head (snd c) = Some (fst c)
  /\ Forall (fun m => m = fst c
                      \/ joins (normalize_entity (fst c)) (normalize_entity m)
                           similarity_threshold = Ok true)
       (snd c).

Definition whitespace (s : str) : Prop := Forall (fun c => is_space c = true) s.


(** [k2] was offered to the cluster of [k1] and turned down. *)
Definition turned_down (similarity_threshold : Q) (k1 k2 : str) : Prop :=
  joins (normalize_entity k1) (normalize_entity k2) similarity_threshold = Ok false.

(** Where the outer loop of [cluster_entities] stands before the entity at
    index [n]: the indices below [n] are marked, every representative sits
    at a marked index, every entity still unmarked was turned down by every
    representative, and each representative was turned down by the ones
    before it. *)
Definition scan_inv (entities : list str) (similarity_threshold : Q) (n : nat)
    (st : cluster_state) : Prop :=
  (forall i, i < n -> i < length entities -> i ∈ snd st)
  /\ (forall k, k ∈ map fst (fst st) ->
        exists i, i ∈ snd st /\ entities !! i = Some k)
  /\ (forall k j orig, k ∈ map fst (fst st) -> entities !! j = Some orig ->
        j ∉ snd st -> turned_down similarity_threshold k orig)
  /\ StronglySorted (turned_down similarity_threshold) (map fst (fst st)).


(** The test of the loader on a file name. *)
Definition accepts (file : str) : bool :=
  endswith file (str_of ".json") && negb (startswith file (str_of "aggregated")).

(** The fragments among the accepted files of a directory tree, in the
    order of the walk. *)
Definition valid_graphs (tree : list (str * list (str * file_content))) : list Graph :=
  concat
    (map (fun '(root, files) =>
            omap (fun '(file, content) =>
                    if accepts file
                    then match content with GraphJson graph => Some graph | _ => None end
                    else None)
              files)
       tree).

(** What the loader prints: one line for each accepted file. *)
Definition loading_report (tree : list (str * list (str * file_content))) : list event :=
  concat
    (map (fun '(root, files) =>
            omap (fun '(file, content) =>
                    if accepts file
                    then match content with
                         | Unreadable => Some (Print (ErrorLoading (root, file)))
                         | _ => Some (Print (LoadedGraph (root, file)))
                         end
                    else None)
              files)
       tree).


Definition clustered_kg (output_dir : str) : path := (output_dir, str_of "clustered_kg.json").

Definition clustering_details (output_dir : str) : path :=
  (output_dir, str_of "clustering_details.json").


(** A file system with one fragment file under every directory, where
    every directory can be made and every file written. *)
Definition one_fragment_filesystem (g : Graph) : filesystem :=
  {| walk := fun _ => [(str_of "in", [(str_of "a.json", GraphJson g)])];
     mkdir_ok := fun _ => true;
     writable := fun _ => true |}.

Definition fragment_without_entities : Graph :=
  {| entities := Some []; relations := None; edges := None |}.


(** ** The producer of the fragments ([generate-kg-oolama.py])

    Cutting a text into chunks, turning a response into triples,
    aggregating graphs, and the refinement of a graph by suggested
    relations.  The language model and the parser of JSON are outside the
    program: the calls of the model are given by their number, and the
    parser is a function that may fail. *)

Module Producer.

Inductive error : Type :=
  | ValueError
  | KeyError
  | TypeError.

Inductive outcome (A : Type) : Type :=
  | Returned (a : A)
  | Raises (e : error).
Arguments Returned {A} a.
Arguments Raises {A} e.

Definition paragraph_break : str := [ascii_of_N 10; ascii_of_N 10].

(** [sub] is found in [s] at index [k]. *)
Definition found_at (sub s : str) (k : nat) : bool :=
  bool_decide (take (length sub) (drop k s) = sub).

Fixpoint rfind_from (sub s : str) (k : nat) : Z :=
  if found_at sub s k then Z.of_nat k
  else match k with
       | O => (-1)%Z
       | S k' => rfind_from sub s k'
       end.

(** [s.rfind(sub)]: the highest index at which [sub] is found, or -1. *)
Definition rfind (s sub : str) : Z :=
  if length sub <=? length s then rfind_from sub s (length s - length sub)
  else (-1)%Z.

Fixpoint range_loop (count start step : nat) : list nat :=
  match count with
  | O => []
  | S count' => start :: range_loop count' (start + step) step
  end.

(** [range(0, stop, step)]: a zero step is refused, a negative one gives
    the empty range, a positive one gives [ceil(stop / step)] values. *)
Definition range_step (stop : nat) (step : Z) : outcome (list nat) :=
  if (step =? 0)%Z then Raises ValueError
  else if (step <? 0)%Z then Returned []
  else Returned (range_loop ((stop + Z.to_nat step - 1) / Z.to_nat step) 0 (Z.to_nat step)).

(** The body of the loop of [chunk_text] for the window that starts at
    [i]. *)
Definition chunk_at (text : str) (chunk_size : nat) (i : nat) : str :=
  let chunk := take chunk_size (drop i text) in
  let last_paragraph := rfind chunk paragraph_break in
  if (0 <? last_paragraph)%Z && (i + chunk_size <? length text)
  then take (Z.to_nat last_paragraph) chunk
  else chunk.

Definition chunk_text (text : str) (chunk_size : Z) : outcome (list str) :=
  match range_step (length text) chunk_size with
  | Returned starts => Returned (map (chunk_at text (Z.to_nat chunk_size)) starts)
  | Raises e => Raises e
  end.

(** The three sets after the loop of [aggregate_graphs]. *)
Definition aggregate_loop (graphs : list Graph) : gset str * gset triple * gset str :=
  fold_left
    (fun '(all_entities, all_relations, all_edges) graph =>
       (all_entities ∪ list_to_set (default [] (entities graph)),
        all_relations ∪ list_to_set (default [] (relations graph)),
        all_edges ∪ list_to_set (default [] (edges graph))))
    graphs (∅, ∅, ∅).

Definition aggregate_graphs (graphs : list Graph) : Graph :=
  let '(all_entities, all_relations, all_edges) := aggregate_loop graphs in
  {| entities := Some (sorted str_ltb (elements all_entities));
     relations := Some (sorted triple_ltb (elements all_relations));
     edges := Some (sorted str_ltb (elements all_edges)) |}.

(** The name of the graph file written for a source file, from the name
    of the source file without its extension
    ([os.path.splitext(file)[0]]). *)
Definition kg_file_name (stem : str) : str := stem ++ str_of "_kg.json".

Definition aggregated_file_name : str := str_of "aggregated_kg.json".

(** *** Responses of the language model

    A response as the prompt asks for it: a dict with a list of nodes and a
    list of edges.  Ids are numbers or strings, labels and relations are
    strings; any key may be missing. *)

Inductive scalar : Type :=
  | Int (z : Z)
  | Str (s : str).

Record node : Type := {
  node_id : option scalar;
  node_label : option str
}.

Record edge : Type := {
  edge_source : option scalar;
  edge_target : option scalar;
  edge_relation : option str
}.

Record response : Type := {
  response_nodes : option (list node);
  response_edges : option (list edge)
}.

(** [str(v)]: a number is written in decimal, a string is itself. *)
Definition py_str (v : scalar) : str :=
  match v with
  | Int z => str_of (NilZero.string_of_int (Z.to_int z))
  | Str s => s
  end.

(** [d[key]] on a dict that may lack the key. *)
Definition item {A} (value : option A) : outcome A :=
  match value with
  | Some a => Returned a
  | None => Raises KeyError
  end.

Definition bind {A B} (m : outcome A) (k : A -> outcome B) : outcome B :=
  match m with
  | Returned a => k a
  | Raises e => Raises e
  end.

(** The dict comprehension that builds [node_map]: key first, then value;
    a later node with the same key replaces the earlier one. *)
Fixpoint build_node_map (nodes : list node) (node_map : gmap str str)
    : outcome (gmap str str) :=
  match nodes with
  | [] => Returned node_map
  | n :: rest =>
      bind (item (node_id n)) (fun id =>
      bind (item (node_label n)) (fun label =>
      build_node_map rest (<[py_str id := label]> node_map)))
  end.

Fixpoint edge_loop (node_map : gmap str str) (edges : list edge) (triples : list triple)
    : outcome (list triple) :=
  match edges with
  | [] => Returned triples
  | e :: rest =>
      bind (item (edge_source e)) (fun source =>
      let source_label := default (py_str source) (node_map !! py_str source) in
      bind (item (edge_target e)) (fun target =>
      let target_label := default (py_str target) (node_map !! py_str target) in
      bind (item (edge_relation e)) (fun relation =>
      edge_loop node_map rest (triples ++ [(source_label, relation, target_label)]))))
  end.

Definition transform_to_triples (r : response) : outcome (list triple) :=
  bind (build_node_map (default [] (response_nodes r)) ∅) (fun node_map =>
  edge_loop node_map (default [] (response_edges r)) []).

(** *** Replies of the language model *)

(** [s.find(sub)]: the lowest index at which [sub] is found, or -1. *)
Fixpoint find_index (sub s : str) : option nat :=
  if startswith s sub then Some 0
  else match s with
       | [] => None
       | _ :: s' => S <$> find_index sub s'
       end.

Definition find (s sub : str) : Z :=
  match find_index sub s with
  | Some k => Z.of_nat k
  | None => (-1)%Z
  end.

(** [sub in s] *)
Definition contains (s sub : str) : bool := bool_decide (is_Some (find_index sub s)).

(** [s.split(sep)] for a separator that is not empty.  Every cut removes
    at least one character, so [length s] rounds are enough. *)
Fixpoint split_rounds (rounds : nat) (s sep : str) : list str :=
  match rounds with
  | O => [s]
  | S rounds' =>
      match find_index sep s with
      | None => [s]
      | Some k => take k s :: split_rounds rounds' (drop (k + length sep) s) sep
      end
  end.

Definition split_sep (s sep : str) : list str := split_rounds (length s) s sep.

(** An index of a slice, brought into [0 .. n]. *)
Definition clamp (n : nat) (i : Z) : nat :=
  if (i <? 0)%Z then Z.to_nat (Z.max (i + Z.of_nat n) 0) else Nat.min (Z.to_nat i) n.

(** [s[start:stop]] *)
Definition slice (s : str) (start stop : Z) : str :=
  let a := clamp (length s) start in
  let b := clamp (length s) stop in
  take (b - a) (drop a s).

(** What [json.loads] returns, as far as the producer looks at it: a list
    of suggested relations, or another value, of which only the truth value
    is read.  A suggestion is a dict whose values are strings and that may
    lack any of its keys, or a value that is not a dict. *)
Inductive suggestion : Type :=
  | Suggestion (source relation target : option str)
  | NotADict.

Inductive json : Type :=
  | JList (items : list suggestion)
  | JOther (truth : bool).

Definition truthy (v : json) : bool :=
  match v with
  | JList items => negb (bool_decide (items = []))
  | JOther truth => truth
  end.

Inductive prompt : Type :=
  | AnalyzePrompt (chunk : str)
  | CompletePrompt (entities : list str) (relations : list triple).

(** One call of [ollama.chat]: a response with its message content (the
    empty string when the response has none), a [RateLimitError], or another
    exception. *)
Inductive chat_result : Type :=
  | Response (content : str)
  | RateLimited
  | Failed.

Inductive action : Type :=
  | JsonParsingError
  | DebugResponse (content : str)
  | NoValidJson
  | RateLimitWait (attempt : nat)
  | Sleep (seconds : nat)
  | UnexpectedError
  | MaxAttempts
  | AddedRelation (t : triple)
  | Iteration (number prev_count new_count : nat).

(** The text that [extract_json] hands to [json.loads]; [None] when an
    exception is raised before. *)
Definition json_text (text : str) : option str :=
  text ←
    (if contains text (str_of "```json")
     then part ← split_sep text (str_of "```json") !! 1;
          split_sep part (str_of "```") !! 0
     else Some text);
  let json_start := find text (str_of "{") in
  let json_end := (rfind text (str_of "}") + 1)%Z in
  Some (slice text json_start json_end).

Section Model.

(** [json.loads]; [None] when it raises. *)
Variable loads : str -> option json.

(** The calls of [ollama.chat], by their number. *)
Variable chat : nat -> prompt -> chat_result.

Definition extract_json (text : str) : list action * option json :=
  match json_text text ≫= loads with
  | Some v => ([], Some v)
  | None => ([JsonParsingError], None)
  end.

(** The loop of [safe_generate] with [remaining = max_attempts - attempts];
    [calls] counts the calls of [ollama.chat] made so far. *)
Fixpoint safe_generate_loop (remaining attempts calls : nat) (p : prompt)
    : nat * list action * option json :=
  match remaining with
  | O => (calls, [MaxAttempts], None)
  | S remaining' =>
      match chat calls p with
      | Response content =>
          let '(log, parsed_output) := extract_json content in
          match parsed_output with
          | Some v =>
              if truthy v then (S calls, DebugResponse content :: log, Some v)
              else (S calls, DebugResponse content :: log ++ [NoValidJson], None)
          | None => (S calls, DebugResponse content :: log ++ [NoValidJson], None)
          end
      | RateLimited =>
          let '(calls', log, result) :=
            safe_generate_loop remaining' (S attempts) (S calls) p in
          (calls', RateLimitWait (S attempts) :: Sleep 10 :: log, result)
      | Failed => (S calls, [UnexpectedError], None)
      end
  end.

Definition safe_generate (calls : nat) (p : prompt) : nat * list action * option json :=
  safe_generate_loop 5 0 calls p.

(** The loop of [complete_graph] over the suggested edges.  The list that
    is searched is the list that is appended to: a suggestion made twice is
    added once. *)
Fixpoint add_edges (new_edges : list suggestion) (relations : list triple)
    : list action * outcome (list triple) :=
  match new_edges with
  | [] => ([], Returned relations)
  | NotADict :: _ => ([], Raises TypeError)
  | Suggestion (Some source) (Some relation) (Some target) :: rest =>
      let t := (source, relation, target) in
      if bool_decide (t ∈ relations) then add_edges rest relations
      else
        let '(log, result) := add_edges rest (relations ++ [t]) in
        (AddedRelation t :: log, result)
  | Suggestion _ _ _ :: rest => add_edges rest relations
  end.

Definition complete_graph (calls : nat) (graph : Graph) : nat * list action * outcome Graph :=
  match entities graph, relations graph with
  | Some es, Some existing_relations =>
      let '(calls', log, new_edges) :=
        safe_generate calls (CompletePrompt (take 50 es) (take 5 existing_relations)) in
      match new_edges with
      | Some (JList items) =>
          if truthy (JList items)
          then
            let '(added, result) := add_edges items existing_relations in
            (calls', log ++ added,
             match result with
             | Returned rs =>
                 Returned {| entities := entities graph; relations := Some rs;
                             edges := edges graph |}
             | Raises e => Raises e
             end)
          else (calls', log, Returned graph)
      | _ => (calls', log, Returned graph)
      end
  | _, _ => (calls, [], Raises KeyError)
  end.

(** The loop of [refine_knowledge_graph], with [remaining] iterations
    left. *)
Fixpoint refine_loop (remaining iteration calls : nat) (graph : Graph)
    : nat * list action * outcome Graph :=
  match remaining with
  | O => (calls, [], Returned graph)
  | S remaining' =>
      match relations graph with
      | None => (calls, [], Raises KeyError)
      | Some rs =>
          let prev_count := length rs in
          match complete_graph calls graph with
          | (calls', log, Raises e) => (calls', log, Raises e)
          | (calls', log, Returned graph') =>
              match relations graph' with
              | None => (calls', log, Raises KeyError)
              | Some rs' =>
                  let new_count := length rs' in
                  let log := log ++ [Iteration (S iteration) prev_count new_count] in
                  if new_count =? prev_count then (calls', log, Returned graph')
                  else
                    let '(calls'', log', result) :=
                      refine_loop remaining' (S iteration) calls' graph' in
                    (calls'', log ++ log', result)
              end
          end
      end
  end.

Definition refine_knowledge_graph (calls : nat) (graph : Graph) (max_iterations : Z)
    : nat * list action * outcome Graph :=
  refine_loop (Z.to_nat max_iterations) 0 calls graph.

End Model.

End Producer.

(** The window of [chunk_size] characters at [i] is cut at a paragraph
    break. *)
Definition cut_at (text : str) (chunk_size i : nat) : bool :=
  (0 <? Producer.rfind (take chunk_size (drop i text)) Producer.paragraph_break)%Z
  && (i + chunk_size <? length text).


(** ['\n\n' in s]. *)
Definition has_paragraph_break (s : str) : Prop :=
  exists p q, s = p ++ Producer.paragraph_break ++ q.


(** A node, or an edge, that has all the keys that [transform_to_triples]
    reads. *)
Definition complete_node (n : Producer.node) : Prop :=
  is_Some (Producer.node_id n) /\ is_Some (Producer.node_label n).

Definition complete_edge (e : Producer.edge) : Prop :=
  is_Some (Producer.edge_source e) /\ is_Some (Producer.edge_target e)
  /\ is_Some (Producer.edge_relation e).

(** The label that an id stands for: the label of the last node whose id
    has the same text, and the text of the id when there is no such node. *)
Definition names (nodes : list Producer.node) (id : Producer.scalar) (label : str) : Prop :=
  (exists before n after,
      nodes = before ++ n :: after
      /\ Producer.py_str <$> Producer.node_id n = Some (Producer.py_str id)
      /\ Producer.node_label n = Some label
      /\ forall n', n' ∈ after ->
           Producer.py_str <$> Producer.node_id n' <> Some (Producer.py_str id))
  \/ ((forall n, n ∈ nodes ->
         Producer.py_str <$> Producer.node_id n <> Some (Producer.py_str id))
      /\ label = Producer.py_str id).

(** The same response with every id replaced by its text. *)
Definition with_text_ids (r : Producer.response) : Producer.response :=
  {| Producer.response_nodes :=
       map (fun n => {| Producer.node_id := Producer.Str ∘ Producer.py_str <$> Producer.node_id n;
                        Producer.node_label := Producer.node_label n |})
         <$> Producer.response_nodes r;
     Producer.response_edges :=
       map (fun e =>
              {| Producer.edge_source :=
                   Producer.Str ∘ Producer.py_str <$> Producer.edge_source e;
                 Producer.edge_target :=
                   Producer.Str ∘ Producer.py_str <$> Producer.edge_target e;
                 Producer.edge_relation := Producer.edge_relation e |})
         <$> Producer.response_edges r |}.


(** A parser of JSON returns a list only for a text whose first character
    after leading whitespace is an opening bracket. *)
Definition lists_begin_with_bracket (loads : str -> option Producer.json) : Prop :=
  forall s items, loads s = Some (Producer.JList items) ->
                  head (lstrip s) = Some (ascii_of_N 91).

(** The value that [safe_generate] returns for a response with the given
    content: the parsed value when it is truthy, and [None] otherwise. *)
Definition reply_of (loads : str -> option Producer.json) (content : str)
    : option Producer.json :=
  match Producer.json_text content ≫= loads with
  | Some v => if Producer.truthy v then Some v else None
  | None => None
  end.

(** A parser that answers every text with one suggestion, a model that
    always responds, and a graph to complete. *)
Definition one_suggestion (s : str) : option Producer.json :=
  Some (Producer.JList
          [Producer.Suggestion (Some (str_of "a")) (Some (str_of "sees")) (Some (str_of "b"))]).

Definition always_responds (call : nat) (p : Producer.prompt) : Producer.chat_result :=
  Producer.Response [].

Definition graph_to_complete : Graph :=
  {| entities := Some (map str_of ["a"; "b"]%string);
     relations := Some [triple_of ("b", "sees", "a")%string];
     edges := Some (map str_of ["sees"]%string) |}.

(** A parser that looks at the first character only, and a model that
    answers every prompt with a list of one suggestion. *)
Definition parses_by_first_character (s : str) : option Producer.json :=
  match lstrip s with
  | c :: _ =>
      if bool_decide (c = ascii_of_N 91) then
        Some (Producer.JList
                [Producer.Suggestion (Some (str_of "a")) (Some (str_of "sees"))
                   (Some (str_of "b"))])
      else if bool_decide (c = ascii_of_N 123) then Some (Producer.JOther true)
      else None
  | [] => None
  end.

Definition answers_with_a_list (call : nat) (p : Producer.prompt) : Producer.chat_result :=
  Producer.Response (str_of "[{a, sees, b}]").

(** A model that is always over its rate limit. *)
Definition always_rate_limited (call : nat) (p : Producer.prompt) : Producer.chat_result :=
  Producer.RateLimited.


(** * Properties *)

(** ** Sanity checks of the embedding on concrete inputs *)

Example normalize_il_cane : normalize_entity (str_of "Il Cane") = str_of "cane".
Proof. reflexivity. Qed.

Example normalize_uno :
  normalize_entity (str_of "  UNO  gatto, nero! ") = str_of "gatto nero".
Proof. reflexivity. Qed.

Example normalize_keeps_lone_article : normalize_entity (str_of " una") = str_of "una".
Proof. reflexivity. Qed.

Example ratio_cane_gatto :
  SequenceMatcher.ratio (str_of "cane") (str_of "gatto") = (2 # 9)%Q.
Proof. vm_compute. reflexivity. Qed.

Example matches_abcd_bcde :
  SequenceMatcher.matches (str_of "abcd") (str_of "bcde") = 3.
Proof. vm_compute. reflexivity. Qed.

Example split_tokens :
  split (str_of "  gatto  nero ") = [str_of "gatto"; str_of "nero"].
Proof. reflexivity. Qed.

(** Ties keep the order in which the keys were first counted. *)
Example sorted_is_stable :
  sorted more_frequent [(1, 1); (2, 2); (3, 1); (4, 2)] = [(2, 2); (4, 2); (1, 1); (3, 1)].
Proof. reflexivity. Qed.

(** Scenario C: two spellings that resolve to one representative. *)
Example scenario_C :
  merge_relations [triple_of ("EntityA", "eq", "EntityB")%string]
    [(str_of "EntityA", [str_of "EntityA"; str_of "EntityB"])] = [].
Proof. vm_compute. reflexivity. Qed.

(** A fragment without entities is loaded, clustered and written, and
    the report of the reduction then divides by zero. *)
Example report_divides_by_zero :
  snd (process_directory elements elements
         {| walk := fun _ =>
              [(str_of "in",
                [(str_of "a.json",
                  GraphJson {| entities := Some []; relations := None; edges := None |})])];
            mkdir_ok := fun _ => true;
            writable := fun _ => true |}
         (str_of "in") (str_of "out") default_threshold)
  = Raise ZeroDivisionError.
Proof. vm_compute. reflexivity. Qed.

(** ** Normalizer *)

Section Normalizer.

Lemma lower_char_idem c : lower_char (lower_char c) = lower_char c.
Proof. destruct c as [[] [] [] [] [] [] [] []]; vm_compute; reflexivity. Qed.

Lemma lower_fixed s : Forall (fun c => lower_char c = c) s -> lower s = s.
Proof.
  unfold lower. induction 1 as [|c s Hc _ IH]; simpl; [done|].
  by rewrite Hc, IH.
Qed.

Lemma lower_is_lowered s : Forall (fun c => lower_char c = c) (lower s).
Proof.
  unfold lower. induction s as [|c s IH]; simpl; constructor; auto using lower_char_idem.
Qed.

Lemma lstrip_head_ok s : head_ok (lstrip s).
Proof.
  induction s as [|c s IH]; simpl; [done|].
  destruct (is_space c) eqn:E; [done|]. simpl. done.
Qed.

Lemma lstrip_id s : head_ok s -> lstrip s = s.
Proof. destruct s as [|c s]; simpl; [done|]. by intros ->. Qed.

Lemma lstrip_split s : exists p, s = p ++ lstrip s.
Proof.
  induction s as [|c s [p Hp]]; simpl.
  - by exists [].
  - destruct (is_space c).
    + exists (c :: p). simpl. by f_equal.
    + by exists [].
Qed.

(** The head of a non-empty prefix is the head of the whole. *)
Lemma head_ok_prefix (p q : str) : head_ok (p ++ q) -> head_ok p.
Proof. destruct p; simpl; done. Qed.

Lemma rstrip_id s : head_ok (rev s) -> rstrip s = s.
Proof. intros H. unfold rstrip. by rewrite lstrip_id, rev_involutive. Qed.

Lemma strip_head_ok s : head_ok (strip s).
Proof.
  unfold strip, rstrip.
  destruct (lstrip_split (rev (lstrip s))) as [p Hp].
  assert (Hrev : lstrip s = rev (lstrip (rev (lstrip s))) ++ rev p).
  { rewrite <- rev_app_distr, <- Hp. by rewrite rev_involutive. }
  eapply head_ok_prefix. rewrite <- Hrev. apply lstrip_head_ok.
Qed.

Lemma strip_last_ok s : head_ok (rev (strip s)).
Proof. unfold strip, rstrip. rewrite rev_involutive. apply lstrip_head_ok. Qed.

Lemma strip_id s : head_ok s -> head_ok (rev s) -> strip s = s.
Proof. intros H1 H2. unfold strip. by rewrite lstrip_id, rstrip_id. Qed.

Lemma strip_sublist (P : ascii -> Prop) s : Forall P s -> Forall P (strip s).
Proof.
  intros H. unfold strip, rstrip.
  assert (Hl : forall t, Forall P t -> Forall P (lstrip t)).
  { intros t Ht. destruct (lstrip_split t) as [p Hp].
    rewrite Hp in Ht. by apply Forall_app in Ht as [_ ?]. }
  apply Forall_rev, Hl, Forall_rev, Hl, H.
Qed.

Lemma read_literal_split p s r : read_literal p s = Some r -> s = p ++ r.
Proof.
  revert s. induction p as [|c p IH]; intros [|d s]; simpl; try congruence.
  destruct (Ascii.eqb_spec c d); [|done].
  intros H. subst. f_equal. by apply IH.
Qed.

Lemma read_spaces1_rest s r : read_spaces1 s = Some r -> rest_of s r.
Proof.
  destruct s as [|c s]; simpl; [done|].
  destruct (is_space c); [|done]. intros [= <-].
  destruct (lstrip_split s) as [p Hp].
  exists (c :: p). split; [simpl; by f_equal|]. split; [done|apply lstrip_head_ok].
Qed.

Lemma rest_of_app p s r : rest_of s r -> rest_of (p ++ s) r.
Proof.
  intros (q & -> & Hq & Hr). exists (p ++ q).
  split; [by rewrite app_assoc|]. split; [|done].
  destruct p; simpl; [done|discriminate].
Qed.

Lemma read_article_rest alts s r : read_article alts s = Some r -> rest_of s r.
Proof.
  induction alts as [|alt alts IH]; simpl; [done|].
  destruct (read_literal alt s) as [s'|] eqn:El; simpl; [|exact IH].
  destruct (read_spaces1 s') as [r'|] eqn:Es; [|exact IH].
  intros [= <-]. apply read_literal_split in El as ->.
  by apply rest_of_app, read_spaces1_rest.
Qed.

Lemma read_leading_article_rest s r : read_leading_article s = Some r -> rest_of s r.
Proof.
  revert r. induction s as [|c s IH]; intros r; cbn [read_leading_article].
  - apply read_article_rest.
  - destruct (is_space c); [|apply read_article_rest].
    destruct (read_leading_article s) as [r'|]; [|apply read_article_rest].
    intros [= <-]. apply (rest_of_app [c]), IH. done.
Qed.

(** The star of the pattern never has to give whitespace back: no article
    begins with whitespace. *)
Lemma read_article_space c s : is_space c = true -> read_article articles (c :: s) = None.
Proof.
  intros Hc. destruct c as [[] [] [] [] [] [] [] []]; try discriminate Hc; reflexivity.
Qed.

Lemma read_leading_article_lstrip s :
  read_leading_article s = read_article articles (lstrip s).
Proof.
  induction s as [|c s IH]; cbn [read_leading_article lstrip]; [done|].
  destruct (is_space c) eqn:Ec; [|done].
  rewrite IH. destruct (read_article articles (lstrip s)); [done|].
  by apply read_article_space.
Qed.

Lemma sub_leading_article_sublist (P : ascii -> Prop) s :
  Forall P s -> Forall P (sub_leading_article s).
Proof.
  intros H. unfold sub_leading_article.
  destruct (read_leading_article s) as [r|] eqn:E; [|done].
  apply read_leading_article_rest in E as (p & -> & _).
  by apply Forall_app in H as [_ ?].
Qed.

Lemma sub_punctuation_sublist (P : ascii -> Prop) s :
  Forall P s -> Forall P (sub_punctuation s).
Proof.
  unfold sub_punctuation. induction 1 as [|c s Hc _ IH]; simpl; [done|].
  destruct (is_word c || is_space c); [by constructor|done].
Qed.

Lemma sub_punctuation_kept s :
  Forall (fun c => is_word c || is_space c = true) (sub_punctuation s).
Proof.
  unfold sub_punctuation. induction s as [|c s IH]; simpl; [done|].
  destruct (is_word c || is_space c) eqn:E; [by constructor|done].
Qed.

Lemma sub_punctuation_id s :
  Forall (fun c => is_word c || is_space c = true) s -> sub_punctuation s = s.
Proof.
  unfold sub_punctuation. induction 1 as [|c s Hc _ IH]; simpl; [done|].
  by rewrite Hc, IH.
Qed.

(** The three facts about a normalized form. *)
Lemma normalize_lowered x : Forall (fun c => lower_char c = c) (normalize_entity x).
Proof.
  unfold normalize_entity.
  apply strip_sublist, sub_punctuation_sublist, sub_leading_article_sublist,
    lower_is_lowered.
Qed.

Lemma normalize_kept x :
  Forall (fun c => is_word c || is_space c = true) (normalize_entity x).
Proof. unfold normalize_entity. apply strip_sublist, sub_punctuation_kept. Qed.

Lemma normalize_trimmed x :
  head_ok (normalize_entity x) /\ head_ok (rev (normalize_entity x)).
Proof. unfold normalize_entity. split; [apply strip_head_ok|apply strip_last_ok]. Qed.

Lemma sub_leading_article_trimmed s :
  head_ok s -> head_ok (rev s) ->
  head_ok (sub_leading_article s) /\ head_ok (rev (sub_leading_article s)).
Proof.
  intros H1 H2. unfold sub_leading_article.
  destruct (read_leading_article s) as [r|] eqn:E; [|done].
  apply read_leading_article_rest in E as (p & -> & _ & Hr).
  split; [done|]. rewrite rev_app_distr in H2. by eapply head_ok_prefix.
Qed.

End Normalizer.

(** C3, as stated, fails: a second article survives the first
    normalization and is removed by the second. *)
Lemma normalize_entity_not_idempotent :
  normalize_entity (normalize_entity (str_of "il il cane"))
  <> normalize_entity (str_of "il il cane").
Proof. vm_compute. discriminate. Qed.

(** C3 (amended): normalizing a normalized form only applies the article
    pattern once more; hence [normalize_entity] is idempotent at [x] exactly
    when the normalized form of [x] does not itself begin with a recognized
    article followed by whitespace. *)
Theorem normalize_entity_twice (x : str) :
  normalize_entity (normalize_entity x) = sub_leading_article (normalize_entity x)
  /\ (normalize_entity (normalize_entity x) = normalize_entity x
      <-> read_leading_article (normalize_entity x) = None).
Proof.
  assert (Heq : normalize_entity (normalize_entity x)
                = sub_leading_article (normalize_entity x)).
  { unfold normalize_entity at 1.
    rewrite (lower_fixed _ (normalize_lowered x)).
    rewrite sub_punctuation_id
      by apply sub_leading_article_sublist, normalize_kept.
    destruct (normalize_trimmed x) as [H1 H2].
    destruct (sub_leading_article_trimmed _ H1 H2) as [H3 H4].
    by apply strip_id. }
  split; [exact Heq|]. rewrite Heq. unfold sub_leading_article.
  destruct (read_leading_article (normalize_entity x)) as [r|] eqn:E.
  - split; [|done]. intros Hr. exfalso.
    apply read_leading_article_rest in E as (p & Hp & Hne & _).
    rewrite Hr in Hp. apply (f_equal length) in Hp.
    rewrite length_app in Hp. destruct p; [done|]. simpl in Hp. lia.
  - done.
Qed.

(** ** The matcher terminates within its rounds *)

Section MatcherRounds.
Context (a b : str).
Import SequenceMatcher.

Lemma scan_row_bounds (alo ahi blo bhi i : nat) (j2len : gmap nat nat)
    (js : list nat) (newj2len : gmap nat nat) (best : nat * nat * nat) :
  alo <= i < ahi ->
  (forall j v, j2len !! j = Some v -> v <= i - alo) ->
  (forall j v, newj2len !! j = Some v -> v <= i + 1 - alo) ->
  block_in_range alo ahi best ->
  (forall j v, fst (scan_row blo bhi i j2len js newj2len best) !! j = Some v ->
     v <= i + 1 - alo)
  /\ block_in_range alo ahi (snd (scan_row blo bhi i j2len js newj2len best)).
Proof.
  intros Hi Hold. revert newj2len best.
  induction js as [|j js IH]; intros newj2len best Hnew Hbest; simpl; [done|].
  destruct (j <? blo); [by apply IH|].
  destruct (bhi <=? j); [done|].
  destruct best as [[besti bestj] bestsize].
  set (k := match j with O => 0 | S j' => default 0 (j2len !! j') end + 1).
  assert (Hk : k <= i + 1 - alo).
  { unfold k. destruct j as [|j']; [lia|].
    destruct (j2len !! j') as [v|] eqn:E; simpl; [|lia].
    specialize (Hold _ _ E). lia. }
  apply IH.
  - intros j1 v. destruct (decide (j = j1)) as [->|Hne].
    + rewrite lookup_insert_eq. by intros [= <-].
    + rewrite lookup_insert_ne by done. apply Hnew.
  - destruct (bestsize <? k); [|done]. simpl. lia.
Qed.

Lemma scan_rows_bounds (alo ahi blo bhi start len : nat) (j2len : gmap nat nat)
    (best : nat * nat * nat) :
  alo <= start -> start + len <= ahi ->
  (forall j v, j2len !! j = Some v -> v <= start - alo) ->
  block_in_range alo ahi best ->
  block_in_range alo ahi (scan_rows a b blo bhi (seq start len) j2len best).
Proof.
  revert start j2len best.
  induction len as [|len IH]; intros start j2len best Hlo Hhi Hold Hbest; simpl; [done|].
  set (js := match a !! start with Some elt => b2j b elt | None => [] end).
  destruct (scan_row_bounds alo ahi blo bhi start j2len js ∅ best) as [Hnew Hbest'];
    [lia|done| |done|].
  { intros j v. by rewrite lookup_empty. }
  destruct (scan_row blo bhi start j2len js ∅ best) as [newj2len best'].
  simpl in *. apply IH; try done; try lia.
  intros j v Hj. specialize (Hnew _ _ Hj). lia.
Qed.

Lemma extend_left_bounds (rounds alo ahi blo : nat) (allowed : ascii -> bool)
    (best : nat * nat * nat) :
  block_in_range alo ahi best ->
  block_in_range alo ahi (extend_left a b rounds alo blo allowed best).
Proof.
  revert best. induction rounds as [|rounds IH]; intros [[besti bestj] bestsize] H;
    simpl; [done|].
  destruct (alo <? besti) eqn:E; simpl; [|done].
  destruct ((blo <? bestj) && same_at a b (besti - 1) (bestj - 1) allowed); [|done].
  apply IH. apply Nat.ltb_lt in E. simpl in *. lia.
Qed.

Lemma extend_right_bounds (rounds alo ahi bhi : nat) (allowed : ascii -> bool)
    (best : nat * nat * nat) :
  block_in_range alo ahi best ->
  block_in_range alo ahi (extend_right a b rounds ahi bhi allowed best).
Proof.
  revert best. induction rounds as [|rounds IH]; intros [[besti bestj] bestsize] H;
    simpl; [done|].
  destruct (besti + bestsize <? ahi) eqn:E; simpl; [|done].
  destruct ((bestj + bestsize <? bhi)
            && same_at a b (besti + bestsize) (bestj + bestsize) allowed); [|done].
  apply IH. apply Nat.ltb_lt in E. simpl in *. lia.
Qed.

(** The rounds given to the two extension loops are never used up before
    the loop condition fails. *)
Lemma extend_left_rounds (rounds extra alo blo : nat) (allowed : ascii -> bool)
    (besti bestj bestsize : nat) :
  besti <= rounds ->
  extend_left a b (rounds + extra) alo blo allowed (besti, bestj, bestsize)
  = extend_left a b rounds alo blo allowed (besti, bestj, bestsize).
Proof.
  revert besti bestj bestsize.
  induction rounds as [|rounds IH]; intros besti bestj bestsize Hle.
  - assert (besti = 0) as -> by lia. destruct extra; reflexivity.
  - simpl. destruct (alo <? besti) eqn:E; simpl; [|done].
    destruct ((blo <? bestj) && same_at a b (besti - 1) (bestj - 1) allowed); [|done].
    apply IH. lia.
Qed.

Lemma extend_right_rounds (rounds extra ahi bhi : nat) (allowed : ascii -> bool)
    (besti bestj bestsize : nat) :
  ahi - (besti + bestsize) <= rounds ->
  extend_right a b (rounds + extra) ahi bhi allowed (besti, bestj, bestsize)
  = extend_right a b rounds ahi bhi allowed (besti, bestj, bestsize).
Proof.
  revert bestsize.
  induction rounds as [|rounds IH]; intros bestsize Hle.
  - destruct extra; simpl; [done|].
    destruct (besti + bestsize <? ahi) eqn:E; [|done].
    apply Nat.ltb_lt in E. lia.
  - simpl. destruct (besti + bestsize <? ahi) eqn:E; simpl; [|done].
    destruct ((bestj + bestsize <? bhi)
              && same_at a b (besti + bestsize) (bestj + bestsize) allowed); [|done].
    apply IH. apply Nat.ltb_lt in E. lia.
Qed.

Lemma find_longest_match_bounds (alo ahi blo bhi : nat) :
  alo <= ahi ->
  block_in_range alo ahi (find_longest_match a b alo ahi blo bhi).
Proof.
  intros Hle. unfold find_longest_match.
  apply extend_right_bounds, extend_left_bounds, extend_right_bounds,
    extend_left_bounds.
  apply scan_rows_bounds; try lia; [|simpl; lia].
  intros j v. by rewrite lookup_empty.
Qed.

Lemma queue_weight_cons (alo ahi blo bhi : nat) (queue : list (nat * nat * nat * nat)) :
  queue_weight ((alo, ahi, blo, bhi) :: queue) = 2 * (ahi - alo) + 1 + queue_weight queue.
Proof. reflexivity. Qed.

(** More rounds than the weight of the queue change nothing: the loop has
    ended on an empty queue. *)
Lemma matching_loop_rounds (rounds extra : nat) (queue : list (nat * nat * nat * nat))
    (matching_blocks : list (nat * nat * nat)) :
  queue_ok queue -> queue_weight queue <= rounds ->
  matching_loop a b (rounds + extra) queue matching_blocks
  = matching_loop a b rounds queue matching_blocks.
Proof.
  revert queue matching_blocks.
  induction rounds as [|rounds IH]; intros queue blocks Hok Hw.
  - destruct queue as [|[[[alo ahi] blo] bhi] queue].
    + destruct extra; reflexivity.
    + rewrite queue_weight_cons in Hw. lia.
  - destruct queue as [|[[[alo ahi] blo] bhi] queue]; [done|].
    apply Forall_cons in Hok as [Hr Hok].
    rewrite queue_weight_cons in Hw.
    pose proof (find_longest_match_bounds alo ahi blo bhi Hr) as Hb.
    cbn [Nat.add matching_loop].
    destruct (find_longest_match a b alo ahi blo bhi) as [[i j] k].
    simpl in Hb. destruct (k =? 0) eqn:Ek.
    + apply IH; [done|lia].
    + apply Nat.eqb_neq in Ek. apply IH.
      * destruct ((i + k <? ahi) && (j + k <? bhi)) eqn:E2;
          destruct ((alo <? i) && (blo <? j)) eqn:E1;
          repeat (apply Forall_cons; split); try done; lia.
      * destruct ((i + k <? ahi) && (j + k <? bhi)) eqn:E2;
          destruct ((alo <? i) && (blo <? j)) eqn:E1;
          rewrite ?queue_weight_cons; lia.
Qed.

(** The rounds that [matches] allows are enough for every pair of
    sequences. *)
Lemma matches_rounds (extra : nat) :
  list_sum (map snd (matching_loop a b (2 * length a + 2 + extra)
                       [(0, length a, 0, length b)] []))
  = matches a b.
Proof.
  unfold matches. rewrite matching_loop_rounds; [done| |].
  - apply Forall_cons. split; [lia|constructor].
  - rewrite queue_weight_cons. unfold queue_weight. simpl. lia.
Qed.

End MatcherRounds.

(** ** Loops that may raise *)

Section ForEach.
Context {A S : Type} (body : S -> A -> result S).

Lemma for_each_cons x l s :
  for_each body (x :: l) s = do s' <- body s x; for_each body l s'.
Proof. reflexivity. Qed.

(** An invariant of the body is an invariant of the loop. *)
Lemma for_each_inv (P : S -> Prop) l s s' :
  (forall s x s', x ∈ l -> P s -> body s x = Ok s' -> P s') ->
  P s -> for_each body l s = Ok s' -> P s'.
Proof.
  revert s. induction l as [|x l IH]; intros s Hbody Hs; simpl.
  - by intros [= <-].
  - destruct (body s x) as [s1|e] eqn:E; simpl; [|done].
    apply IH.
    + intros s2 y s3 Hy. apply Hbody. by right.
    + eapply Hbody; [by left|done..].
Qed.

(** What each round establishes for its own item, and later rounds keep,
    holds for every item after the loop. *)
Lemma for_each_post (Q : A -> S -> Prop) l s s' :
  (forall s x s', body s x = Ok s' -> Q x s') ->
  (forall x s y s', Q x s -> body s y = Ok s' -> Q x s') ->
  for_each body l s = Ok s' -> forall x, x ∈ l -> Q x s'.
Proof.
  intros Hnew Hkeep. revert s. induction l as [|y l IH]; intros s; simpl.
  - intros _ x Hx. by apply elem_of_nil in Hx.
  - destruct (body s y) as [s1|e] eqn:E; simpl; [|done].
    intros Hl x Hx. apply elem_of_cons in Hx as [->|Hx].
    + apply (for_each_inv (Q y) l s1 s'); [|by eapply Hnew|done].
      intros s2 z s3 _. apply Hkeep.
    + by eapply IH.
Qed.

(** A body that never raises makes a loop that never raises. *)
Lemma for_each_total l s :
  (forall s x, x ∈ l -> exists s', body s x = Ok s') ->
  exists s', for_each body l s = Ok s'.
Proof.
  revert s. induction l as [|x l IH]; intros s Hbody; simpl.
  - by eexists.
  - destruct (Hbody s x) as [s1 ->]; [by left|]. simpl.
    apply IH. intros s2 y Hy. apply Hbody. by right.
Qed.

End ForEach.

(** ** Clusterer *)

Section Clusterer.

Lemma enumerate_lookup {A} (l : list A) start j x :
  (j, x) ∈ enumerate start l -> start <= j /\ l !! (j - start) = Some x.
Proof.
  revert start. induction l as [|y l IH]; intros start; simpl.
  - intros H. by apply elem_of_nil in H.
  - intros [[= -> ->]|H]%elem_of_cons.
    + split; [lia|]. by rewrite Nat.sub_diag.
    + apply IH in H as [Hle Hx]. split; [lia|].
      replace (j - start) with (S (j - S start)) by lia. done.
Qed.

Lemma enumerate_drop_lookup {A} (l : list A) start j x :
  (j, x) ∈ enumerate start (drop start l) -> start <= j /\ l !! j = Some x.
Proof.
  intros [Hle Hx]%enumerate_lookup. split; [done|].
  rewrite lookup_drop in Hx. by replace (start + (j - start)) with j in Hx by lia.
Qed.

Lemma enumerate_covers {A} (l : list A) start j :
  start <= j < start + length l -> exists x, (j, x) ∈ enumerate start l.
Proof.
  revert start. induction l as [|y l IH]; intros start; simpl; [lia|].
  intros Hj. destruct (decide (j = start)) as [->|Hne].
  - exists y. by left.
  - destruct (IH (S start)) as [x Hx]; [lia|]. exists x. by right.
Qed.

Lemma all_members_dict_append key v d :
  all_members (dict_append key v d) ≡ₚ v :: all_members d.
Proof.
  unfold all_members. induction d as [|[k vs] d IH]; simpl; [done|].
  destruct (decide (k = key)); simpl.
  - rewrite <- app_assoc. simpl.
    by rewrite <- Permutation_middle.
  - rewrite IH. by rewrite <- Permutation_middle.
Qed.

Lemma keys_dict_append key v d :
  map fst (dict_append key v d)
  = if decide (key ∈ map fst d) then map fst d else map fst d ++ [key].
Proof.
  induction d as [|[k vs] d IH]; simpl; [done|].
  destruct (decide (k = key)) as [->|Hne]; simpl.
  - rewrite decide_True by left. done.
  - rewrite IH. destruct (decide (key ∈ map fst d)) as [Hin|Hout].
    + rewrite decide_True by (by right). done.
    + rewrite decide_False; [done|].
      intros [?|?]%elem_of_cons; congruence.
Qed.

Lemma keys_dict_append_NoDup key v d :
  NoDup (map fst d) -> NoDup (map fst (dict_append key v d)).
Proof.
  intros H. rewrite keys_dict_append. case_decide; [done|].
  apply NoDup_app. split; [done|]. split; [|apply NoDup_singleton].
  intros x Hx ->%list_elem_of_singleton. done.
Qed.

Context (entities : list str) (similarity_threshold : Q).

Let normalized_entities : list (str * str) :=
  map (fun e => (normalize_entity e, e)) entities.

Lemma normalized_lookup j norm orig :
  normalized_entities !! j = Some (norm, orig) ->
  entities !! j = Some orig /\ norm = normalize_entity orig.
Proof.
  unfold normalized_entities. change map with (@fmap list _) at 1.
  rewrite list_lookup_fmap. intros (e & He & [= -> ->])%fmap_Some. done.
Qed.

Lemma consumed_add j orig used_indices :
  j ∉ used_indices -> entities !! j = Some orig ->
  consumed entities ({[j]} ∪ used_indices) ≡ₚ orig :: consumed entities used_indices.
Proof.
  intros Hj Ho. unfold consumed.
  rewrite elements_union_singleton by done. rewrite fmap_cons. by rewrite Ho.
Qed.

Lemma cluster_inv_add j orig rep clusters used_indices :
  cluster_inv entities (clusters, used_indices) ->
  j ∉ used_indices -> entities !! j = Some orig ->
  cluster_inv entities (dict_append rep orig clusters, {[j]} ∪ used_indices).
Proof.
  intros (Hm & Hk & Hb) Hj Ho. simpl in *. split; [|split]; simpl.
  - rewrite all_members_dict_append, consumed_add by done. by rewrite Hm.
  - by apply keys_dict_append_NoDup.
  - intros k [->%elem_of_singleton|Hk']%elem_of_union; [|by apply Hb].
    by eapply lookup_lt_Some.
Qed.

(** Marks are never removed. *)
Lemma inner_body_grows norm1 orig1 st item st' :
  inner_body similarity_threshold norm1 orig1 st item = Ok st' -> snd st ⊆ snd st'.
Proof.
  destruct st as [clusters used_indices], item as [j [norm2 orig2]]. simpl.
  destruct (decide (j ∈ used_indices)); [by intros [= <-]|].
  destruct (joins norm1 norm2 similarity_threshold) as [[]|]; simpl; try done.
  - intros [= <-]. simpl. set_solver.
  - by intros [= <-].
Qed.

Lemma inner_loop_grows norm1 orig1 l st st' :
  for_each (inner_body similarity_threshold norm1 orig1) l st = Ok st' ->
  snd st ⊆ snd st'.
Proof.
  apply (for_each_inv _ (fun s => snd st ⊆ snd s)); [|done].
  intros s x s1 _ Hs Hb%inner_body_grows. set_solver.
Qed.

Lemma outer_body_grows st item st' :
  outer_body similarity_threshold normalized_entities st item = Ok st' ->
  snd st ⊆ snd st' /\ fst item ∈ snd st'.
Proof.
  destruct st as [clusters used_indices], item as [i [norm1 orig1]]. simpl.
  destruct (decide (i ∈ used_indices)); [by intros [= <-]|].
  intros Hsub%inner_loop_grows. simpl in Hsub. set_solver.
Qed.

Lemma inner_body_inv norm1 orig1 st j norm2 orig2 st' :
  entities !! j = Some orig2 ->
  cluster_inv entities st ->
  inner_body similarity_threshold norm1 orig1 st (j, (norm2, orig2)) = Ok st' ->
  cluster_inv entities st'.
Proof.
  intros Ho Hinv. destruct st as [clusters used_indices]. simpl.
  destruct (decide (j ∈ used_indices)); [by intros [= <-]|].
  destruct (joins norm1 norm2 similarity_threshold) as [[]|]; simpl; try done.
  - intros [= <-]. by apply cluster_inv_add.
  - by intros [= <-].
Qed.

Lemma outer_body_inv st i norm1 orig1 st' :
  entities !! i = Some orig1 ->
  cluster_inv entities st ->
  outer_body similarity_threshold normalized_entities st (i, (norm1, orig1)) = Ok st' ->
  cluster_inv entities st'.
Proof.
  intros Ho Hinv. destruct st as [clusters used_indices]. simpl.
  destruct (decide (i ∈ used_indices)) as [Hin|Hout]; [by intros [= <-]|].
  apply for_each_inv; [|by apply cluster_inv_add].
  intros s [j [norm2 orig2]] s1 [_ Hl]%enumerate_drop_lookup Hs.
  apply normalized_lookup in Hl as [Hj _]. by apply inner_body_inv.
Qed.

Lemma enumerate_normalized i norm orig :
  (i, (norm, orig)) ∈ enumerate 0 normalized_entities ->
  entities !! i = Some orig /\ norm = normalize_entity orig.
Proof.
  intros [_ Hl]%enumerate_lookup. rewrite Nat.sub_0_r in Hl.
  by apply normalized_lookup.
Qed.

Lemma outer_loop_inv st' :
  for_each (outer_body similarity_threshold normalized_entities)
    (enumerate 0 normalized_entities) ([], ∅) = Ok st' ->
  cluster_inv entities st' /\ forall i, i < length entities -> i ∈ snd st'.
Proof.
  intros Hloop. split.
  - revert Hloop. apply for_each_inv.
    + intros s [i [norm orig]] s1 [Ho _]%enumerate_normalized. by apply outer_body_inv.
    + split; [|split]; simpl.
      * unfold all_members, consumed. by rewrite elements_empty.
      * constructor.
      * intros k Hk. by apply not_elem_of_empty in Hk.
  - intros i Hi.
    destruct (enumerate_covers normalized_entities 0 i) as [item Hin].
    { unfold normalized_entities. rewrite length_map. lia. }
    refine (for_each_post (outer_body similarity_threshold normalized_entities)
              (fun item s => fst item ∈ snd s) _ _ _ _ _ Hloop (i, item) Hin).
    + intros s x s1 Hb. by apply outer_body_grows in Hb as [_ ?].
    + intros x s y s1 Hx Hb. apply outer_body_grows in Hb as [? _]. set_solver.
Qed.

Lemma lookup_all_indices {A} (d : A) (l : list A) :
  (fun k => default d (l !! k)) <$> seq 0 (length l) = l.
Proof.
  apply list_eq. intros i. rewrite list_lookup_fmap.
  destruct (decide (i < length l)) as [Hlt|Hge].
  - rewrite lookup_seq_lt by done. simpl.
    destruct (lookup_lt_is_Some_2 l i Hlt) as [x Hx]. by rewrite Hx.
  - rewrite lookup_seq_ge by lia. simpl.
    symmetry. apply lookup_ge_None. lia.
Qed.

(** Once every index is marked, the consumed entities are the input. *)
Lemma consumed_all used_indices :
  (forall k, k ∈ used_indices -> k < length entities) ->
  (forall i, i < length entities -> i ∈ used_indices) ->
  consumed entities used_indices ≡ₚ entities.
Proof.
  intros Hb Hall. unfold consumed.
  assert (Hperm : elements used_indices ≡ₚ seq 0 (length entities)).
  { apply NoDup_Permutation; [apply NoDup_elements|apply NoDup_seq|].
    intros k. rewrite elem_of_elements, elem_of_seq. split; [|intros [_ ?]; by apply Hall].
    intros Hk%Hb. lia. }
  rewrite Hperm. by rewrite lookup_all_indices.
Qed.

Lemma joins_total norm1 norm2 :
  split norm1 <> [] -> split norm2 <> [] ->
  exists b, joins norm1 norm2 similarity_threshold = Ok b.
Proof.
  intros H1 H2. unfold joins.
  destruct (similar norm1 norm2 similarity_threshold); [by eexists|].
  destruct (split norm1) as [|tok1 ?]; [done|].
  destruct (split norm2) as [|tok2 ?]; [done|]. simpl.
  destruct (decide (tok1 = tok2)); by eexists.
Qed.

Lemma inner_body_total norm1 orig1 st j norm2 orig2 :
  split norm1 <> [] -> split norm2 <> [] ->
  exists st', inner_body similarity_threshold norm1 orig1 st (j, (norm2, orig2)) = Ok st'.
Proof.
  intros H1 H2. destruct st as [clusters used_indices]. simpl.
  destruct (decide (j ∈ used_indices)); [by eexists|].
  destruct (joins_total norm1 norm2 H1 H2) as [[] ->]; simpl; by eexists.
Qed.

Lemma cluster_entities_total :
  tokenized entities ->
  exists clusters, cluster_entities entities similarity_threshold = Ok clusters.
Proof.
  intros Htok. unfold cluster_entities. fold normalized_entities.
  assert (Hin : forall j norm orig,
            normalized_entities !! j = Some (norm, orig) -> split norm <> []).
  { intros j norm orig [Ho ->]%normalized_lookup.
    apply Htok. by eapply list_elem_of_lookup_2. }
  destruct (for_each_total (outer_body similarity_threshold normalized_entities)
              (enumerate 0 normalized_entities) ([], ∅)) as [st ->];
    [|by eexists].
  intros [clusters used_indices] [i [norm1 orig1]] [_ Hi]%enumerate_lookup. simpl.
  destruct (decide (i ∈ used_indices)); [by eexists|].
  apply for_each_total.
  intros s [j [norm2 orig2]] [_ Hj]%enumerate_drop_lookup.
  apply inner_body_total; by eapply Hin.
Qed.

End Clusterer.

Lemma elem_of_all_members e clusters :
  e ∈ all_members clusters <-> exists c, c ∈ clusters /\ member_of e c.
Proof.
  unfold all_members, member_of. induction clusters as [|c0 cl IH]; simpl.
  - split; [by intros ?%elem_of_nil|]. intros (c & ?%elem_of_nil & _). done.
  - rewrite elem_of_app, IH. split.
    + intros [H|(c & Hc & He)]; [exists c0|exists c]; split; try done; by constructor.
    + intros (c & [->|Hc]%elem_of_cons & He); [by left|]. right. by exists c.
Qed.

Lemma one_cluster_only e clusters c c' :
  NoDup (all_members clusters) ->
  c ∈ clusters -> member_of e c -> c' ∈ clusters -> member_of e c' -> c' = c.
Proof.
  unfold all_members. induction clusters as [|c0 cl IH]; simpl.
  - by intros _ ?%elem_of_nil.
  - intros (Hc0 & Hsep & Hcl)%NoDup_app.
    intros [->|Hc]%elem_of_cons He [->|Hc']%elem_of_cons He'; [done| | |by apply IH].
    + exfalso. apply (Hsep e He). apply elem_of_all_members. by exists c'.
    + exfalso. apply (Hsep e He'). apply elem_of_all_members. by exists c.
Qed.

Lemma cluster_entities_sound (entities : list str) (similarity_threshold : Q)
    (clusters : list (str * list str)) :
  NoDup entities ->
  cluster_entities entities similarity_threshold = Ok clusters ->
  partitions clusters entities.
Proof.
  intros Hnd. unfold cluster_entities.
  destruct (for_each _ _ _) as [[cl used_indices]|] eqn:Hloop; simpl; [|done].
  intros [= <-].
  apply outer_loop_inv in Hloop as [(Hm & Hk & Hb) Hall]. simpl in *.
  assert (Hperm : all_members cl ≡ₚ entities).
  { rewrite Hm. by apply consumed_all. }
  split; [done|]. split; [done|].
  intros e He. rewrite <- Hperm in He.
  destruct (proj1 (elem_of_all_members e cl) He) as (c & Hc & Hec).
  exists c. split; [done|]. split; [done|].
  intros c' Hc' Hec'. eapply one_cluster_only; try done. by rewrite Hperm.
Qed.

(** C1: whenever [cluster_entities] returns on pairwise-distinct entities,
    the clusters it returns partition the input: the member lists together
    are a rearrangement of the input, the representatives are distinct, and
    every entity is in exactly one cluster.  It does return whenever every
    normalized form has a token. *)
Theorem cluster_entities_partition (entities : list str) (similarity_threshold : Q) :
  NoDup entities ->
  (forall clusters,
      cluster_entities entities similarity_threshold = Ok clusters ->
      partitions clusters entities)
  /\ (tokenized entities ->
      exists clusters, cluster_entities entities similarity_threshold = Ok clusters).
Proof.
  intros Hnd. split.
  - intros clusters. by apply cluster_entities_sound.
  - apply cluster_entities_total.
Qed.

Lemma cluster_entities_partition_witness :
  NoDup scenario_A_entities /\ partitions scenario_A_clusters scenario_A_entities.
Proof.
  assert (Hnd : NoDup scenario_A_entities).
  { apply (bool_decide_unpack _). vm_compute. exact I. }
  split; [exact Hnd|].
  apply (proj1 (cluster_entities_partition scenario_A_entities default_threshold Hnd)).
  vm_compute. reflexivity.
Defined.

(** C4: on an entity whose normalized form has no token, followed by one
    that is not similar to it, the clusterer raises [IndexError]. *)
Theorem cluster_entities_raises :
  cluster_entities untokenized_entities default_threshold = Raise IndexError.
Proof. vm_compute. reflexivity. Qed.

(** C6: scenario A. *)
Theorem scenario_A :
  cluster_entities scenario_A_entities (85 # 100) = Ok scenario_A_clusters
  /\ length scenario_A_clusters = 2.
Proof. split; vm_compute; reflexivity. Qed.

(** ** Ordering and [sorted] *)

Section Sorted.
Context {A : Type} (lt : A -> A -> bool).

Lemma insert_sorted_perm x l : insert_sorted lt x l ≡ₚ x :: l.
Proof.
  induction l as [|y l IH]; simpl; [done|].
  destruct (lt y x); [|done]. rewrite IH. apply perm_swap.
Qed.

Lemma sorted_perm l : sorted lt l ≡ₚ l.
Proof.
  induction l as [|x l IH]; simpl; [done|].
  by rewrite insert_sorted_perm, IH.
Qed.

Lemma sorted_length l : length (sorted lt l) = length l.
Proof. apply Permutation_length, sorted_perm. Qed.

Lemma elem_of_sorted x l : x ∈ sorted lt l <-> x ∈ l.
Proof. by rewrite sorted_perm. Qed.

Hypothesis lt_asym : forall x y, lt x y = true -> lt y x = false.

Lemma insert_sorted_Sorted x l :
  Sorted (not_after lt) l -> Sorted (not_after lt) (insert_sorted lt x l).
Proof.
  induction 1 as [|y l Hl IH Hhd]; simpl.
  - by repeat constructor.
  - destruct (lt y x) eqn:E.
    + constructor; [done|].
      destruct Hhd as [|z l Hz]; simpl.
      * constructor. by apply lt_asym.
      * destruct (lt z x); constructor; [done|by apply lt_asym].
    + constructor; [by constructor|]. by constructor.
Qed.

Lemma sorted_Sorted l : Sorted (not_after lt) (sorted lt l).
Proof.
  induction l as [|x l IH]; simpl; [constructor|].
  by apply insert_sorted_Sorted.
Qed.

(** Without repetitions, and under a total order, consecutive elements
    ascend strictly. *)
Lemma Sorted_strict l :
  (forall x y, lt x y = false -> lt y x = false -> x = y) ->
  NoDup l -> Sorted (not_after lt) l -> Sorted (fun x y => lt x y = true) l.
Proof.
  intros Htotal Hnd. induction 1 as [|x l Hl IH Hhd].
  - constructor.
  - apply NoDup_cons in Hnd as [Hx Hnd]. constructor; [by apply IH|].
    destruct Hhd as [|y l Hy]; constructor.
    destruct (lt x y) eqn:E; [done|]. exfalso. apply Hx.
    rewrite (Htotal x y E Hy). by left.
Qed.

End Sorted.

Lemma code_inj c d : code c = code d -> c = d.
Proof.
  unfold code. intros H.
  by rewrite <- (ascii_N_embedding c), <- (ascii_N_embedding d), H.
Qed.

Lemma str_ltb_asym s t : str_ltb s t = true -> str_ltb t s = false.
Proof.
  revert t. induction s as [|c s IH]; intros [|d t]; simpl; try done.
  destruct (code c <? code d)%N eqn:E1, (code d <? code c)%N eqn:E2; try done.
  - apply N.ltb_lt in E1, E2. lia.
  - apply IH.
Qed.

Lemma str_ltb_total s t : str_ltb s t = false -> str_ltb t s = false -> s = t.
Proof.
  revert t. induction s as [|c s IH]; intros [|d t]; simpl; try done.
  destruct (code c <? code d)%N eqn:E1, (code d <? code c)%N eqn:E2; try done.
  intros H1 H2. apply N.ltb_ge in E1, E2.
  f_equal; [|by apply IH]. apply code_inj. lia.
Qed.

Lemma triple_ltb_asym x y : triple_ltb x y = true -> triple_ltb y x = false.
Proof.
  destruct x as [[s1 r1] t1], y as [[s2 r2] t2]. simpl.
  repeat case_decide; subst; try done; apply str_ltb_asym.
Qed.

Lemma triple_ltb_total x y :
  triple_ltb x y = false -> triple_ltb y x = false -> x = y.
Proof.
  destruct x as [[s1 r1] t1], y as [[s2 r2] t2]. simpl.
  repeat case_decide; subst; try done; intros Hxy Hyx;
    pose proof (str_ltb_total _ _ Hxy Hyx); congruence.
Qed.

Lemma str_ltb_trans s t u :
  str_ltb s t = true -> str_ltb t u = true -> str_ltb s u = true.
Proof.
  revert t u. induction s as [|c s IH]; intros [|d t] [|e u]; simpl; try done.
  destruct (N.ltb_spec (code c) (code d)), (N.ltb_spec (code d) (code c)),
    (N.ltb_spec (code d) (code e)), (N.ltb_spec (code e) (code d)),
    (N.ltb_spec (code c) (code e)), (N.ltb_spec (code e) (code c));
    try done; try lia.
  apply IH.
Qed.

Lemma str_ltb_irrefl s : str_ltb s s = false.
Proof.
  destruct (str_ltb s s) eqn:E; [|done].
  by rewrite (str_ltb_asym _ _ E) in E.
Qed.

Lemma triple_ltb_trans x y z :
  triple_ltb x y = true -> triple_ltb y z = true -> triple_ltb x z = true.
Proof.
  destruct x as [[s1 r1] t1], y as [[s2 r2] t2], z as [[s3 r3] t3]. simpl.
  assert (Hcycle : forall p q : str, str_ltb p q = true -> str_ltb q p = true -> False).
  { intros p q Hpq Hqp. by rewrite (str_ltb_asym _ _ Hpq) in Hqp. }
  repeat case_decide; subst; try done;
    eauto using str_ltb_trans;
    intros Hxy Hyz; exfalso; eauto.
Qed.

Section SortedUnique.
Context {A : Type} (lt : A -> A -> bool).
Hypothesis lt_asym : forall x y, lt x y = true -> lt y x = false.
Hypothesis lt_total : forall x y, lt x y = false -> lt y x = false -> x = y.
Hypothesis lt_trans : forall x y z, lt x y = true -> lt y z = true -> lt x z = true.

Lemma not_after_trans x y z :
  not_after lt x y -> not_after lt y z -> not_after lt x z.
Proof.
  unfold not_after. intros Hxy Hyz.
  destruct (lt z x) eqn:Ezx; [|done]. exfalso.
  destruct (lt x y) eqn:Exy.
  - by rewrite (lt_trans z x y Ezx Exy) in Hyz.
  - assert (x = y) as -> by (by apply lt_total). congruence.
Qed.

(** Under a total order a list has one sorted arrangement only, so the
    order in which a set hands its elements to [sorted] does not show. *)
Lemma sorted_perm_unique l l' : l ≡ₚ l' -> sorted lt l = sorted lt l'.
Proof.
  intros Hp.
  assert (Htrans : Transitive (not_after lt)) by (intros x y z; apply not_after_trans).
  apply (Sorted_unique_strong (not_after lt)).
  - intros x y _ _ Hxy Hyx. by apply lt_total.
  - by apply sorted_Sorted.
  - by apply sorted_Sorted.
  - by rewrite !sorted_perm.
Qed.

End SortedUnique.

Lemma sorted_strs_perm (l l' : list str) :
  l ≡ₚ l' -> sorted str_ltb l = sorted str_ltb l'.
Proof.
  apply sorted_perm_unique;
    [apply str_ltb_asym|apply str_ltb_total|apply str_ltb_trans].
Qed.

Lemma sorted_triples_perm (l l' : list triple) :
  l ≡ₚ l' -> sorted triple_ltb l = sorted triple_ltb l'.
Proof.
  apply sorted_perm_unique;
    [apply triple_ltb_asym|apply triple_ltb_total|apply triple_ltb_trans].
Qed.

(** ** RelationMerger *)

Section Merger.
Context (entity_clusters : list (str * list str)).

Let entity_to_cluster : gmap str str := build_entity_to_cluster entity_clusters.

Lemma assign_members_lookup (rep : str) (members : list str) (m : gmap str str) (e : str) :
  fold_left (fun m member => <[member := rep]> m) members m !! e
  = if decide (e ∈ members) then Some rep else m !! e.
Proof.
  revert m. induction members as [|x l IH]; intros m.
  - case_decide as H; [by apply elem_of_nil in H|done].
  - cbn [fold_left]. rewrite IH.
    destruct (decide (e ∈ l)) as [Hin|Hout].
    + case_decide as H; [done|]. exfalso. apply H. by right.
    + destruct (decide (e = x)) as [->|Hne].
      * rewrite lookup_insert_eq. case_decide as H; [done|]. exfalso. apply H. by left.
      * rewrite lookup_insert_ne by done.
        case_decide as H; [|done]. apply elem_of_cons in H as [?|?]; done.
Qed.

Lemma build_lookup_gen (clusters : list (str * list str)) (m : gmap str str) (e rep : str) :
  fold_left
    (fun m '(cluster_rep, members) =>
       fold_left (fun m member => <[member := cluster_rep]> m) members m)
    clusters m !! e = Some rep ->
  m !! e = Some rep \/ exists members, (rep, members) ∈ clusters /\ e ∈ members.
Proof.
  revert m. induction clusters as [|[r ms] cl IH]; intros m; simpl; [by left|].
  intros [H|(members & Hin & He)]%IH.
  - rewrite assign_members_lookup in H. case_decide; [|by left].
    injection H as <-. right. exists ms. split; [by left|done].
  - right. exists members. split; [by right|done].
Qed.

Lemma build_lookup_none_gen (clusters : list (str * list str)) (m : gmap str str) (e : str) :
  m !! e = None -> e ∉ all_members clusters ->
  fold_left
    (fun m '(cluster_rep, members) =>
       fold_left (fun m member => <[member := cluster_rep]> m) members m)
    clusters m !! e = None.
Proof.
  unfold all_members.
  revert m. induction clusters as [|[r ms] cl IH]; intros m Hm; simpl; [done|].
  intros Hnot. apply not_elem_of_app in Hnot as [H1 H2]. apply IH; [|done].
  rewrite assign_members_lookup. by rewrite decide_False.
Qed.

(** An entity resolves to itself or to the representative of a cluster
    that lists it. *)
Lemma resolve_cases e :
  resolve entity_to_cluster e = e
  \/ exists members,
       (resolve entity_to_cluster e, members) ∈ entity_clusters /\ e ∈ members.
Proof.
  unfold resolve. destruct (entity_to_cluster !! e) as [rep|] eqn:E; simpl; [|by left].
  apply build_lookup_gen in E as [E|E]; [|by right].
  by rewrite lookup_empty in E.
Qed.

(** An entity that no cluster lists resolves to itself. *)
Lemma resolve_unmapped e :
  e ∉ all_members entity_clusters -> resolve entity_to_cluster e = e.
Proof.
  intros H. unfold resolve, entity_to_cluster, build_entity_to_cluster.
  by rewrite build_lookup_none_gen.
Qed.

Lemma merge_loop_spec (relations : list triple) (merged : gset triple) (x : triple) :
  x ∈ fold_left (merge_step entity_to_cluster) relations merged
  <-> x ∈ merged \/ survivor entity_to_cluster relations x.
Proof.
  revert merged. induction relations as [|[[src rel] tgt] l IH]; intros merged; simpl.
  - split; [by left|]. intros [?|(? & ? & ? & ?%elem_of_nil & _)]; done.
  - rewrite IH. unfold survivor.
    destruct (uninformative _ rel _) eqn:E.
    + split.
      * intros [?|(s & r & t & Hin & ?)]; [by left|]. right.
        exists s, r, t. split; [by right|done].
      * intros [?|(s & r & t & [Heq|Hin]%elem_of_cons & -> & Hu)]; [by left| |].
        -- injection Heq as -> -> ->. congruence.
        -- right. exists s, r, t. done.
    + rewrite elem_of_union, elem_of_singleton. split.
      * intros [[->|?]|(s & r & t & Hin & ?)]; [|by left|].
        -- right. exists src, rel, tgt. split; [by left|done].
        -- right. exists s, r, t. split; [by right|done].
      * intros [?|(s & r & t & [Heq|Hin]%elem_of_cons & -> & Hu)]; [left; by right| |].
        -- injection Heq as -> -> ->. left. by left.
        -- right. exists s, r, t. done.
Qed.

Lemma elem_of_merge_relations (relations : list triple) (x : triple) :
  x ∈ merge_relations relations entity_clusters
  <-> survivor entity_to_cluster relations x.
Proof.
  unfold merge_relations. rewrite elem_of_sorted, elem_of_elements.
  fold entity_to_cluster. rewrite merge_loop_spec. split; [|by right].
  intros [H|H]; [|done]. by apply not_elem_of_empty in H.
Qed.

Lemma uninformative_false (new_src rel new_tgt : str) :
  uninformative new_src rel new_tgt = false ->
  lower new_src <> lower new_tgt
  /\ 3 <= length (strip rel)
  /\ lower rel ∉ stoplist.
Proof.
  unfold uninformative. intros H.
  apply orb_false_iff in H as [H H3]. apply orb_false_iff in H as [H1 H2].
  apply bool_decide_eq_false in H1, H3. apply Nat.ltb_ge in H2. done.
Qed.

End Merger.

(** Whatever order the set of merged relations is iterated in, sorting it
    gives the list that [merge_relations] returns. *)
Lemma merge_relations_any_iteration (relations : list triple)
    (entity_clusters : list (str * list str)) (iteration : list triple) :
  iteration
  ≡ₚ elements (fold_left (merge_step (build_entity_to_cluster entity_clusters))
                relations ∅) ->
  sorted triple_ltb iteration = merge_relations relations entity_clusters.
Proof. intros Hp. unfold merge_relations. by apply sorted_triples_perm. Qed.

(** The order of the relations given to the merger does not show either. *)
Lemma merge_relations_perm (relations relations' : list triple)
    (entity_clusters : list (str * list str)) :
  relations ≡ₚ relations' ->
  merge_relations relations entity_clusters = merge_relations relations' entity_clusters.
Proof.
  intros Hp. unfold merge_relations. f_equal. f_equal.
  apply set_eq. intros x. rewrite !merge_loop_spec. unfold survivor.
  split; (intros [?|(src & rel & tgt & Hin & Hx)]; [by left|right]);
    exists src, rel, tgt; (split; [|done]).
  - by rewrite <- Hp.
  - by rewrite Hp.
Qed.

(** C2: every merged relation has endpoints that differ when lower-cased,
    a predicate of trimmed length at least 3 whose lower-cased form is not
    in the stoplist, and is an input relation with both endpoints resolved
    (to itself, or to the representative of a cluster listing it; to itself
    when no cluster lists it); the output has no duplicates and ascends
    strictly in the order of tuples. *)
Theorem merge_relations_postcondition
    (relations : list triple) (entity_clusters : list (str * list str)) :
  let entity_to_cluster := build_entity_to_cluster entity_clusters in
  let merged := merge_relations relations entity_clusters in
  (forall s r t, (s, r, t) ∈ merged ->
     lower s <> lower t
     /\ 3 <= length (strip r)
     /\ (lower r ∉ stoplist)
     /\ exists src tgt,
          (src, r, tgt) ∈ relations
          /\ s = resolve entity_to_cluster src
          /\ t = resolve entity_to_cluster tgt)
  /\ (forall e, e ∉ all_members entity_clusters -> resolve entity_to_cluster e = e)
  /\ (forall e, resolve entity_to_cluster e = e
                \/ exists members,
                     (resolve entity_to_cluster e, members) ∈ entity_clusters
                     /\ e ∈ members)
  /\ NoDup merged
  /\ Sorted (fun x y => triple_ltb x y = true) merged.
Proof.
  intros entity_to_cluster merged.
  assert (Hnd : NoDup merged).
  { unfold merged, merge_relations. rewrite sorted_perm. apply NoDup_elements. }
  split; [|split; [|split; [|split]]].
  - intros s r t (src & rel & tgt & Hin & [= -> -> ->] & Hu)%elem_of_merge_relations.
    apply uninformative_false in Hu as (H1 & H2 & H3).
    repeat split; try done. by exists src, tgt.
  - apply resolve_unmapped.
  - apply resolve_cases.
  - exact Hnd.
  - apply Sorted_strict; [apply triple_ltb_total|exact Hnd|].
    apply sorted_Sorted, triple_ltb_asym.
Qed.

(** C7: scenario B. *)
Theorem scenario_B :
  merge_relations scenario_B_relations scenario_A_clusters
  = [triple_of ("Il Cane", "mangia", "carne")%string]
  /\ uninformative (str_of "Il Cane") (str_of "is") (str_of "Gatto") = true
  /\ resolve (build_entity_to_cluster scenario_A_clusters) (str_of "cane")
     = str_of "Il Cane"
  /\ resolve (build_entity_to_cluster scenario_A_clusters) (str_of "carne")
     = str_of "carne".
Proof. repeat split; vm_compute; reflexivity. Qed.

(** ** RelationAnalyzer *)

Section Analyzer.
Context {A K : Type} `{EqDecision K} (f : A -> K).

Lemma get_count_bump (key k : K) (d : list (K * nat)) :
  get_count (bump key d) k = get_count d k + (if decide (key = k) then 1 else 0).
Proof.
  induction d as [|[k' n] d IH]; simpl.
  - repeat case_decide; done.
  - destruct (decide (k' = key)) as [->|Hne]; simpl.
    + repeat case_decide; try done; lia.
    + rewrite IH. repeat case_decide; subst; try done; lia.
Qed.

Lemma keys_bump (key : K) (d : list (K * nat)) :
  map fst (bump key d)
  = if decide (key ∈ map fst d) then map fst d else map fst d ++ [key].
Proof.
  induction d as [|[k n] d IH]; cbn [bump map fst].
  - rewrite decide_False; [done|]. by intros ?%elem_of_nil.
  - destruct (decide (k = key)) as [->|Hne]; cbn [map fst].
    + rewrite decide_True; [done|by left].
    + rewrite IH. destruct (decide (key ∈ map fst d)) as [Hin|Hout].
      * rewrite decide_True; [done|by right].
      * rewrite decide_False; [done|]. intros [?|?]%elem_of_cons; congruence.
Qed.

Lemma get_count_elem (d : list (K * nat)) (k : K) (n : nat) :
  NoDup (map fst d) -> (k, n) ∈ d -> get_count d k = n.
Proof.
  induction d as [|[k' n'] d IH]; simpl.
  - by intros _ ?%elem_of_nil.
  - intros [Hk Hd]%NoDup_cons [[= <- <-]|Hin]%elem_of_cons.
    + by rewrite decide_True.
    + rewrite decide_False; [by apply IH|].
      intros ->. apply Hk. change k with (fst (k, n)). by apply list_elem_of_fmap_2.
Qed.

Lemma occurrences_cons (key : K) (x : A) (l : list A) :
  occurrences f key (x :: l)
  = (if decide (f x = key) then 1 else 0) + occurrences f key l.
Proof.
  unfold occurrences. rewrite filter_cons. by case_decide.
Qed.

Lemma tally_count (l : list A) (d : list (K * nat)) (key : K) :
  get_count (tally f l d) key = get_count d key + occurrences f key l.
Proof.
  unfold tally. revert d. induction l as [|x l IH]; intros d; simpl.
  - unfold occurrences. simpl. lia.
  - rewrite IH, get_count_bump, occurrences_cons. lia.
Qed.

Lemma tally_keys_NoDup (l : list A) (d : list (K * nat)) :
  NoDup (map fst d) -> NoDup (map fst (tally f l d)).
Proof.
  unfold tally. revert d. induction l as [|x l IH]; intros d Hd; simpl; [done|].
  apply IH. rewrite keys_bump. case_decide; [done|].
  apply NoDup_app. split; [done|]. split; [|apply NoDup_singleton].
  by intros k Hk ->%list_elem_of_singleton.
Qed.

Lemma tally_keys (l : list A) (d : list (K * nat)) (key : K) :
  key ∈ map fst (tally f l d) <-> key ∈ map fst d \/ key ∈ map f l.
Proof.
  unfold tally. revert d. induction l as [|x l IH]; intros d; simpl.
  - split; [by left|]. by intros [?|?%elem_of_nil].
  - rewrite IH, keys_bump, elem_of_cons. case_decide as Hin.
    + split; [intros [?|?]; auto|]. intros [?|[->|?]]; auto.
    + rewrite elem_of_app, list_elem_of_singleton. split.
      * intros [[?|?]|?]; auto.
      * intros [?|[?|?]]; auto.
Qed.

Lemma more_frequent_asym (x y : K * nat) :
  more_frequent x y = true -> more_frequent y x = false.
Proof. unfold more_frequent. intros H%Z.ltb_lt. apply Z.ltb_ge. lia. Qed.

Lemma Sorted_take {B} (R : B -> B -> Prop) (n : nat) (l : list B) :
  Sorted R l -> Sorted R (take n l).
Proof.
  intros H. revert n. induction H as [|x l Hl IH Hhd]; intros [|n]; simpl;
    try constructor; [apply IH|].
  destruct Hhd as [|y l' Hy]; destruct n; simpl; by constructor.
Qed.

Lemma Sorted_weaken {B} (R R' : B -> B -> Prop) (l : list B) :
  (forall x y, R x y -> R' x y) -> Sorted R l -> Sorted R' l.
Proof.
  intros HR. induction 1 as [|x l Hl IH Hhd]; constructor; [done|].
  destruct Hhd; constructor. by apply HR.
Qed.

Lemma elem_of_take_drop {B} (n : nat) (l : list B) (x : B) :
  x ∈ l <-> x ∈ take n l \/ x ∈ drop n l.
Proof. by rewrite <- elem_of_app, take_drop. Qed.

(** The report of the analyzer for one of its two dictionaries. *)
Lemma tally_report (limit : nat) (inputs : list A) :
  top_counts f limit inputs (take limit (sorted more_frequent (tally f inputs []))).
Proof.
  set (d := tally f inputs []).
  set (all := sorted more_frequent d).
  assert (Hkeys : NoDup (map fst d)) by (apply tally_keys_NoDup; constructor).
  assert (Hcount : forall key n, (key, n) ∈ d -> n = occurrences f key inputs).
  { intros key n Hin. rewrite <- (get_count_elem d key n Hkeys Hin).
    unfold d. by rewrite tally_count. }
  assert (Hall : NoDup (map fst all)).
  { unfold all. change map with (@fmap list _). by rewrite sorted_perm. }
  assert (Hsorted : Sorted (fun x y : K * nat => snd y <= snd x) all).
  { eapply Sorted_weaken; [|apply (sorted_Sorted more_frequent), more_frequent_asym].
    intros x y. unfold not_after, more_frequent. intros H%Z.ltb_ge. lia. }
  split; [|split; [|split; [|split]]].
  - rewrite length_take. lia.
  - by apply Sorted_take.
  - rewrite <- (take_drop limit all) in Hall.
    change map with (@fmap list _) in Hall. rewrite fmap_app in Hall.
    by apply NoDup_app in Hall as [? _].
  - intros key n Hin.
    assert (Hd : (key, n) ∈ d).
    { apply (elem_of_sorted more_frequent). apply (elem_of_take_drop limit). by left. }
    split; [by apply Hcount|].
    assert (Hk : key ∈ map fst d).
    { change key with (fst (key, n)). by apply list_elem_of_fmap_2. }
    apply tally_keys in Hk as [Hk|Hk]; [by apply elem_of_nil in Hk|].
    rewrite (Hcount key n Hd).
    change map with (@fmap list _) in Hk.
    apply list_elem_of_fmap in Hk as (x & -> & Hx).
    unfold occurrences.
    assert (Hf : x ∈ filter (fun y => f y = f x) inputs) by (by apply list_elem_of_filter).
    destruct (filter _ inputs); [by apply elem_of_nil in Hf|simpl; lia].
  - intros key x Hkey Hout Hx.
    assert (Hk : key ∈ map fst d) by (apply tally_keys; by right).
    change map with (@fmap list _) in Hk.
    apply list_elem_of_fmap in Hk as ([k n] & -> & Hin). simpl in *.
    rewrite <- (Hcount k n Hin).
    assert (Hlate : (k, n) ∈ drop limit all).
    { apply (elem_of_sorted more_frequent), (elem_of_take_drop limit) in Hin
        as [Hin|Hin]; [|done].
      exfalso. apply Hout. change k with (fst (k, n)).
      by apply list_elem_of_fmap_2. }
    apply Sorted.Sorted_StronglySorted in Hsorted; [|intros a b c; simpl; lia].
    rewrite <- (take_drop limit all) in Hsorted.
    exact (StronglySorted_app_1_elem_of _ _ _ x (k, n) Hsorted Hx Hlate).
Qed.

End Analyzer.

Lemma count_loop_split (relations : list triple)
    (rel_counts : list (str * nat)) (entity_pairs : list (str * str * nat)) :
  fold_left count_step relations (rel_counts, entity_pairs)
  = (tally lowered_predicate relations rel_counts,
     tally lowered_endpoints relations entity_pairs).
Proof.
  revert rel_counts entity_pairs.
  induction relations as [|[[src rel] tgt] l IH]; intros rc ep; simpl; [done|].
  by rewrite IH.
Qed.

(** C8: the analyzer reports at most 10 (predicate, count) pairs and at
    most 5 ((source, target), count) pairs, keyed by the lower-cased
    predicate, respectively the lower-cased endpoints, in non-increasing
    order of count; each count is the number of input triples with that
    key, and no key that is left out occurs more often than a reported one. *)
Theorem analyze_relations_postcondition (relations : list triple) :
  top_counts lowered_predicate 10 relations
    (top_relations (analyze_relations relations))
  /\ top_counts lowered_endpoints 5 relations
       (common_entity_pairs (analyze_relations relations)).
Proof.
  unfold analyze_relations. rewrite count_loop_split. simpl.
  split; apply tally_report.
Qed.

(** ** Aggregator *)

Section AggregatorFacts.
Context (list_of_entities : gset str -> list str).
Context (list_of_relations : gset triple -> list triple).

Lemma union_entities_fold (graphs : list Graph) (all : gset str) :
  fold_left (fun all g => all ∪ list_to_set (default [] (entities g))) graphs all
  = fold_left (fun all l => all ∪ list_to_set (default [] l)) (map entities graphs) all.
Proof. revert all. induction graphs as [|g l IH]; intros all; simpl; [done|apply IH]. Qed.

Lemma union_relations_fold (graphs : list Graph) (all : gset triple) :
  fold_left (fun all g => all ∪ list_to_set (default [] (relations g))) graphs all
  = fold_left (fun all l => all ∪ list_to_set (default [] l)) (map relations graphs) all.
Proof. revert all. induction graphs as [|g l IH]; intros all; simpl; [done|apply IH]. Qed.

Lemma elem_of_union_fold `{Countable T} (ls : list (option (list T))) (all : gset T) (x : T) :
  x ∈ fold_left (fun all l => all ∪ list_to_set (default [] l)) ls all
  <-> x ∈ all \/ exists l, l ∈ ls /\ x ∈ default [] l.
Proof.
  revert all. induction ls as [|l0 ls IH]; intros all; simpl.
  - split; [by left|]. intros [?|(l & ?%elem_of_nil & _)]; done.
  - rewrite IH, elem_of_union, elem_of_list_to_set. split.
    + intros [[?|?]|(l & ? & ?)]; [by left| |].
      * right. exists l0. split; [by left|done].
      * right. exists l. split; [by right|done].
    + intros [?|(l & [->|?]%elem_of_cons & ?)]; [by left; left|by left; right|].
      right. by exists l.
Qed.

(** The union of the fragments' entities does not depend on their order. *)
Lemma union_entities_perm (graphs graphs' : list Graph) :
  graphs ≡ₚ graphs' -> union_entities graphs = union_entities graphs'.
Proof.
  intros Hp. unfold union_entities. rewrite !union_entities_fold.
  apply set_eq. intros x. rewrite !elem_of_union_fold.
  assert (Hm : map entities graphs ≡ₚ map entities graphs') by (by apply Permutation_map).
  split; (intros [?|(l & Hl & ?)]; [by left|right; exists l; split; [|done]]).
  - by rewrite <- Hm.
  - by rewrite Hm.
Qed.

Lemma union_relations_perm (graphs graphs' : list Graph) :
  graphs ≡ₚ graphs' -> union_relations graphs = union_relations graphs'.
Proof.
  intros Hp. unfold union_relations. rewrite !union_relations_fold.
  apply set_eq. intros x. rewrite !elem_of_union_fold.
  assert (Hm : map relations graphs ≡ₚ map relations graphs') by (by apply Permutation_map).
  split; (intros [?|(l & Hl & ?)]; [by left|right; exists l; split; [|done]]).
  - by rewrite <- Hm.
  - by rewrite Hm.
Qed.

(** The aggregator reads the ['entities'] and ['relations'] of the
    fragments and nothing else. *)
Lemma cluster_knowledge_graphs_reads (graphs graphs' : list Graph) (similarity_threshold : Q) :
  map entities graphs = map entities graphs' ->
  map relations graphs = map relations graphs' ->
  cluster_knowledge_graphs list_of_entities list_of_relations graphs similarity_threshold
  = cluster_knowledge_graphs list_of_entities list_of_relations graphs' similarity_threshold.
Proof.
  intros He Hr. unfold cluster_knowledge_graphs, union_entities, union_relations.
  by rewrite !union_entities_fold, !union_relations_fold, He, Hr.
Qed.

Lemma cluster_knowledge_graphs_edges (graphs : list Graph) (similarity_threshold : Q)
    (trace : list event) (out : ClusteredGraph) :
  cluster_knowledge_graphs list_of_entities list_of_relations graphs similarity_threshold
  = (trace, Ok out) ->
  out_edges out
  = sorted str_ltb (elements (list_to_set (map predicate_of (out_relations out)) : gset str)).
Proof.
  unfold cluster_knowledge_graphs. simpl.
  destruct (cluster_entities _ _) as [clusters|e]; simpl; [|done].
  by intros [= _ <-].
Qed.

End AggregatorFacts.

(** C10: two lists of fragments that agree on the ['entities'] and
    ['relations'] of every fragment give the same result and the same
    output, whatever their ['edges'] are; the output edges are the sorted
    distinct predicates of the merged relations. *)
Theorem edges_do_not_interfere
    (list_of_entities : gset str -> list str)
    (list_of_relations : gset triple -> list triple)
    (graphs graphs' : list Graph) (similarity_threshold : Q) :
  map entities graphs = map entities graphs' ->
  map relations graphs = map relations graphs' ->
  cluster_knowledge_graphs list_of_entities list_of_relations graphs similarity_threshold
  = cluster_knowledge_graphs list_of_entities list_of_relations graphs' similarity_threshold
  /\ forall trace out,
       cluster_knowledge_graphs list_of_entities list_of_relations graphs
         similarity_threshold = (trace, Ok out) ->
       out_edges out
       = sorted str_ltb
           (elements (list_to_set (map predicate_of (out_relations out)) : gset str)).
Proof.
  intros He Hr. split.
  - by apply cluster_knowledge_graphs_reads.
  - intros trace out. apply cluster_knowledge_graphs_edges.
Qed.

Lemma edges_do_not_interfere_witness :
  let graphs := [fragment_with_edges None] in
  let graphs' := [fragment_with_edges (Some [str_of "is"; str_of "unrelated"])] in
  map entities graphs = map entities graphs'
  /\ map relations graphs = map relations graphs'
  /\ cluster_knowledge_graphs elements elements graphs default_threshold
     = cluster_knowledge_graphs elements elements graphs' default_threshold.
Proof.
  intros graphs graphs'.
  assert (He : map entities graphs = map entities graphs') by reflexivity.
  assert (Hr : map relations graphs = map relations graphs') by reflexivity.
  split; [exact He|]. split; [exact Hr|].
  exact (proj1 (edges_do_not_interfere elements elements graphs graphs'
                  default_threshold He Hr)).
Defined.

(** C5, as stated, fails in its second half: the same three entities,
    given in two orders, come out as one cluster and as two. *)
Lemma clustering_depends_on_order :
  ~ (forall (entities entities' : list str) (similarity_threshold : Q)
            (clusters clusters' : list (str * list str)),
        NoDup entities -> entities ≡ₚ entities' ->
        cluster_entities entities similarity_threshold = Ok clusters ->
        cluster_entities entities' similarity_threshold = Ok clusters' ->
        normalized_family clusters = normalized_family clusters').
Proof.
  intros H.
  specialize (H chain_entities chain_entities_reordered default_threshold
                [(str_of "abcde", chain_entities)]
                [(str_of "abcdezzzzzzzzzz", [str_of "abcdezzzzzzzzzz"; str_of "abcde"]);
                 (str_of "bcde", [str_of "bcde"])]).
  assert (Hne : size (normalized_family [(str_of "abcde", chain_entities)])
                <> size (normalized_family
                     [(str_of "abcdezzzzzzzzzz", [str_of "abcdezzzzzzzzzz"; str_of "abcde"]);
                      (str_of "bcde", [str_of "bcde"])])).
  { vm_compute. discriminate. }
  apply Hne. f_equal. apply H.
  - apply (bool_decide_unpack _). vm_compute. exact I.
  - apply perm_swap.
  - vm_compute. reflexivity.
  - vm_compute. reflexivity.
Qed.

(** C5 (amended): permuting the fragments leaves the unioned entity set and
    the unioned relation set unchanged; permuting the entities given to the
    clusterer leaves the collection of all cluster members unchanged, both
    results being partitions of the same entities.  How the entities are
    grouped is not claimed to be the same. *)
Theorem aggregation_order_insensitive (graphs graphs' : list Graph) :
  graphs ≡ₚ graphs' ->
  union_entities graphs = union_entities graphs'
  /\ union_relations graphs = union_relations graphs'
  /\ forall (entities entities' : list str) (similarity_threshold : Q)
            (clusters clusters' : list (str * list str)),
       NoDup entities -> entities ≡ₚ entities' ->
       cluster_entities entities similarity_threshold = Ok clusters ->
       cluster_entities entities' similarity_threshold = Ok clusters' ->
       partitions clusters entities
       /\ partitions clusters' entities
       /\ map normalize_entity (all_members clusters)
          ≡ₚ map normalize_entity (all_members clusters').
Proof.
  intros Hp. split; [by apply union_entities_perm|].
  split; [by apply union_relations_perm|].
  intros entities entities' th clusters clusters' Hnd Hperm Hc Hc'.
  pose proof (cluster_entities_sound _ _ _ Hnd Hc) as Hpart.
  assert (Hnd' : NoDup entities') by (by rewrite <- Hperm).
  pose proof (cluster_entities_sound _ _ _ Hnd' Hc') as (Hm' & Hk' & Hu').
  assert (Hpart' : partitions clusters' entities).
  { split; [by rewrite Hperm|]. split; [done|].
    intros e He. apply Hu'. by rewrite <- Hperm. }
  split; [done|]. split; [done|].
  apply Permutation_map. destruct Hpart as (Hm & _). by rewrite Hm, Hm', Hperm.
Qed.

Lemma aggregation_order_insensitive_witness :
  let empty := {| entities := None; relations := None; edges := None |} in
  let graphs := [fragment_with_edges None; empty] in
  let graphs' := [empty; fragment_with_edges None] in
  graphs ≡ₚ graphs'
  /\ union_entities graphs = union_entities graphs'
  /\ union_relations graphs = union_relations graphs'.
Proof.
  intros empty graphs graphs'.
  assert (Hp : graphs ≡ₚ graphs') by apply perm_swap.
  split; [exact Hp|].
  destruct (aggregation_order_insensitive graphs graphs' Hp) as (He & Hr & _).
  split; [exact He|exact Hr].
Defined.

(** ** The empty run *)

Section EmptyRun.
Context (list_of_entities : gset str -> list str).
Context (list_of_relations : gset triple -> list triple).
Context (fs : filesystem).

Lemma writes_app (t1 t2 : list event) : writes (t1 ++ t2) = writes t1 ++ writes t2.
Proof. unfold writes. apply omap_app. Qed.

Lemma writes_prints (t : list event) : Forall is_print t -> writes t = [].
Proof.
  unfold writes. induction 1 as [|e t He _ IH]; simpl; [done|].
  destruct e; simpl in *; done.
Qed.

(** A loop whose body never raises and only prints. *)
Lemma io_for_each_prints {A S} (body : S -> A -> io S) (l : list A) (s : S) :
  (forall s x, exists t s', body s x = (t, Ok s') /\ Forall is_print t) ->
  exists t s', io_for_each body l s = (t, Ok s') /\ Forall is_print t.
Proof.
  intros Hbody. revert s. induction l as [|x l IH]; intros s; simpl.
  - exists [], s. by split.
  - destruct (Hbody s x) as (t1 & s1 & -> & Ht1).
    destruct (IH s1) as (t2 & s2 & E2 & Ht2). simpl. rewrite E2.
    exists (t1 ++ t2), s2. split; [done|]. by apply Forall_app.
Qed.

Lemma load_file_prints (root : str) (graphs : list Graph) (f : str * file_content) :
  exists t graphs', load_file root graphs f = (t, Ok graphs') /\ Forall is_print t.
Proof.
  destruct f as [file content]. unfold load_file.
  destruct (endswith _ _ && negb (startswith _ _)).
  - destruct content; simpl; eexists _, _; (split; [done|]);
      repeat constructor.
  - eexists _, _. split; [done|constructor].
Qed.

(** The loader catches what reading a file raises: it always returns, and
    all it does besides is print. *)
Lemma load_graphs_prints (directory : str) :
  exists t graphs,
    load_graphs_from_directory fs directory = (t, Ok graphs) /\ Forall is_print t.
Proof.
  unfold load_graphs_from_directory. apply io_for_each_prints.
  intros graphs [root files]. apply io_for_each_prints.
  intros graphs' f. apply load_file_prints.
Qed.

End EmptyRun.

(** C9: when the output directory could be made and the loader found no
    valid fragment, [process_directory] prints the report of that and
    returns; nothing is raised and no file is written. *)
Theorem process_directory_empty
    (list_of_entities : gset str -> list str)
    (list_of_relations : gset triple -> list triple)
    (fs : filesystem) (input_dir output_dir : str) (similarity_threshold : Q)
    (loading : list event) :
  mkdir_ok fs output_dir = true ->
  load_graphs_from_directory fs input_dir = (loading, Ok []) ->
  process_directory list_of_entities list_of_relations fs input_dir output_dir
    similarity_threshold
  = (Mkdir output_dir :: Print Rule :: Print (LoadingFrom input_dir)
       :: loading ++ [Print NoValidGraphs],
     Ok tt)
  /\ writes (fst (process_directory list_of_entities list_of_relations fs
                    input_dir output_dir similarity_threshold)) = [].
Proof.
  intros Hmk Hload.
  assert (Hrun : process_directory list_of_entities list_of_relations fs input_dir
                   output_dir similarity_threshold
                 = (Mkdir output_dir :: Print Rule :: Print (LoadingFrom input_dir)
                      :: loading ++ [Print NoValidGraphs], Ok tt)).
  { unfold process_directory. rewrite Hmk. simpl. by rewrite Hload. }
  split; [exact Hrun|]. rewrite Hrun. simpl.
  destruct (load_graphs_prints fs input_dir) as (t & graphs & E & Ht).
  rewrite Hload in E. injection E as -> _.
  change (writes (Mkdir output_dir :: Print Rule :: Print (LoadingFrom input_dir)
                    :: t ++ [Print NoValidGraphs]))
    with (writes (t ++ [Print NoValidGraphs])).
  rewrite writes_app, (writes_prints t Ht). reflexivity.
Qed.

Lemma process_directory_empty_witness :
  mkdir_ok empty_filesystem (str_of "out") = true
  /\ load_graphs_from_directory empty_filesystem (str_of "in") = ([], Ok [])
  /\ process_directory elements elements empty_filesystem (str_of "in") (str_of "out")
       default_threshold
     = ([Mkdir (str_of "out"); Print Rule; Print (LoadingFrom (str_of "in"));
         Print NoValidGraphs], Ok tt).
Proof.
  assert (Hmk : mkdir_ok empty_filesystem (str_of "out") = true) by reflexivity.
  assert (Hload : load_graphs_from_directory empty_filesystem (str_of "in") = ([], Ok []))
    by reflexivity.
  split; [exact Hmk|]. split; [exact Hload|].
  exact (proj1 (process_directory_empty elements elements empty_filesystem
                  (str_of "in") (str_of "out") default_threshold [] Hmk Hload)).
Defined.

(** * Further properties of the code *)

(** ** Normalizer *)

Lemma lstrip_length s : length (lstrip s) <= length s.
Proof.
  induction s as [|c s IH]; simpl; [done|].
  destruct (is_space c); simpl; lia.
Qed.

Lemma strip_length s : length (strip s) <= length s.
Proof.
  unfold strip, rstrip. rewrite length_rev.
  etrans; [apply lstrip_length|]. rewrite length_rev. apply lstrip_length.
Qed.

Lemma sub_leading_article_length s : length (sub_leading_article s) <= length s.
Proof.
  unfold sub_leading_article.
  destruct (read_leading_article s) as [r|] eqn:E; [|done].
  apply read_leading_article_rest in E as (p & -> & _).
  rewrite length_app. lia.
Qed.

Lemma sub_punctuation_length s : length (sub_punctuation s) <= length s.
Proof.
  unfold sub_punctuation. induction s as [|c s IH]; simpl; [done|].
  destruct (is_word c || is_space c); simpl; lia.
Qed.

(** X1: a normalized form is lower-case, holds word characters and
    whitespace only, neither begins nor ends with whitespace (stripping it
    again changes nothing), and is no longer than the entity. *)
Theorem normalize_entity_normal_form (x : str) :
  lower (normalize_entity x) = normalize_entity x
  /\ Forall (fun c => is_word c || is_space c = true) (normalize_entity x)
  /\ strip (normalize_entity x) = normalize_entity x
  /\ head_ok (normalize_entity x)
  /\ head_ok (rev (normalize_entity x))
  /\ length (normalize_entity x) <= length x.
Proof.
  destruct (normalize_trimmed x) as [Hh Hl].
  split; [apply lower_fixed, normalize_lowered|].
  split; [apply normalize_kept|].
  split; [by apply strip_id|]. split; [done|]. split; [done|].
  unfold normalize_entity.
  etrans; [apply strip_length|]. etrans; [apply sub_punctuation_length|].
  etrans; [apply sub_leading_article_length|].
  unfold lower. by rewrite length_map.
Qed.

Lemma lstrip_whitespace_app (ws r : str) :
  whitespace ws -> head_ok r -> lstrip (ws ++ r) = r.
Proof.
  induction 1 as [|c ws Hc _ IH]; intros Hr; simpl.
  - by apply lstrip_id.
  - rewrite Hc. by apply IH.
Qed.

Lemma lstrip_split_whitespace s : exists ws, whitespace ws /\ s = ws ++ lstrip s.
Proof.
  induction s as [|c s (ws & Hws & Hs)]; simpl.
  - exists []. by split; [constructor|].
  - destruct (is_space c) eqn:E.
    + exists (c :: ws). split; [by constructor|]. simpl. by f_equal.
    + exists []. by split; [constructor|].
Qed.

Lemma read_spaces1_inv s r :
  read_spaces1 s = Some r ->
  exists ws, ws <> [] /\ whitespace ws /\ head_ok r /\ s = ws ++ r.
Proof.
  destruct s as [|c s]; simpl; [done|].
  destruct (is_space c) eqn:E; [|done]. intros [= <-].
  destruct (lstrip_split_whitespace s) as (ws & Hws & Hs).
  exists (c :: ws). split; [done|]. split; [by constructor|].
  split; [apply lstrip_head_ok|]. simpl. by f_equal.
Qed.

Lemma read_article_inv alts s r :
  read_article alts s = Some r ->
  exists art ws, art ∈ alts /\ ws <> [] /\ whitespace ws /\ head_ok r
                 /\ s = art ++ ws ++ r.
Proof.
  induction alts as [|alt alts IH]; simpl; [done|].
  destruct (read_literal alt s) as [s'|] eqn:El; simpl.
  - destruct (read_spaces1 s') as [r'|] eqn:Es.
    + intros [= <-]. apply read_literal_split in El as ->.
      apply read_spaces1_inv in Es as (ws & ? & ? & ? & ->).
      exists alt, ws. split; [by left|done].
    + intros (art & ws & ? & ?)%IH. exists art, ws. split; [by right|done].
  - intros (art & ws & ? & ?)%IH. exists art, ws. split; [by right|done].
Qed.

Lemma read_spaces1_whitespace (c : ascii) (ws r : str) :
  is_space c = true -> whitespace ws -> head_ok r ->
  read_spaces1 (c :: ws ++ r) = Some r.
Proof.
  intros Hc Hws Hr. simpl. rewrite Hc. by rewrite lstrip_whitespace_app.
Qed.

(** An alternative without whitespace, tried where a word without
    whitespace is followed by whitespace, succeeds exactly when it is that
    word: a proper prefix of the word is not followed by whitespace, and
    nothing longer fits. *)
Lemma read_alternative (alt art : str) (c : ascii) (rest : str) :
  Forall (fun d => is_space d = false) alt ->
  Forall (fun d => is_space d = false) art ->
  is_space c = true ->
  read_literal alt (art ++ c :: rest) ≫= read_spaces1
  = if decide (alt = art) then read_spaces1 (c :: rest) else None.
Proof.
  intros Halt. revert art.
  induction Halt as [|x alt Hx _ IH]; intros art Hart Hc.
  - destruct Hart as [|a art Ha _].
    + by rewrite decide_True.
    + rewrite decide_False by done. simpl. by rewrite Ha.
  - destruct Hart as [|a art Ha Hart]; cbn [app read_literal].
    + rewrite decide_False by done.
      destruct (Ascii.eqb_spec x c) as [->|_]; [congruence|done].
    + destruct (Ascii.eqb_spec x a) as [->|Hne].
      * rewrite IH by done. repeat case_decide; congruence.
      * rewrite decide_False by congruence. done.
Qed.

Lemma read_article_complete_gen (alts : list str) (art : str) (c : ascii) (ws r : str) :
  Forall (Forall (fun d => is_space d = false)) alts ->
  art ∈ alts -> is_space c = true -> whitespace ws -> head_ok r ->
  read_article alts (art ++ c :: ws ++ r) = Some r.
Proof.
  intros Halts Hart Hc Hws Hr.
  assert (Hnospace : Forall (fun d => is_space d = false) art).
  { rewrite Forall_forall in Halts. by apply Halts. }
  induction Halts as [|alt alts Halt _ IH]; [by apply elem_of_nil in Hart|].
  cbn [read_article]. rewrite read_alternative by done.
  destruct (decide (alt = art)) as [->|Hne].
  - by rewrite read_spaces1_whitespace.
  - apply IH. by apply elem_of_cons in Hart as [->|?].
Qed.

Lemma articles_without_whitespace :
  Forall (Forall (fun d => is_space d = false)) articles.
Proof. unfold articles. simpl. repeat constructor. Qed.

Lemma read_article_complete art (c : ascii) (ws r : str) :
  art ∈ articles -> is_space c = true -> whitespace ws -> head_ok r ->
  read_article articles (art ++ c :: ws ++ r) = Some r.
Proof. apply read_article_complete_gen, articles_without_whitespace. Qed.

Lemma article_head_ok art : art ∈ articles -> art <> [] /\ head_ok art.
Proof.
  unfold articles. simpl. intros Hart.
  repeat (apply elem_of_cons in Hart as [->|Hart]);
    [..|by apply elem_of_nil in Hart]; by split.
Qed.

(** X2: the article pattern matches exactly the strings made of optional
    whitespace, one of the nine articles, at least one whitespace character
    and a rest that does not begin with whitespace; what is left after the
    substitution is that rest. *)
Theorem leading_article_spec (s r : str) :
  read_leading_article s = Some r
  <-> exists ws1 art ws2,
        whitespace ws1 /\ art ∈ articles /\ ws2 <> [] /\ whitespace ws2
        /\ head_ok r /\ s = ws1 ++ art ++ ws2 ++ r.
Proof.
  rewrite read_leading_article_lstrip. split.
  - intros (art & ws2 & Hart & Hne & Hws2 & Hr & Hs)%read_article_inv.
    destruct (lstrip_split_whitespace s) as (ws1 & Hws1 & Hs1).
    exists ws1, art, ws2. repeat split; try done. by rewrite Hs1 at 1; rewrite Hs.
  - intros (ws1 & art & ws2 & Hws1 & Hart & Hne & Hws2 & Hr & ->).
    destruct (article_head_ok art Hart) as [Hane Hah].
    rewrite lstrip_whitespace_app; [|done|by destruct art].
    destruct ws2 as [|c ws2]; [done|].
    apply Forall_cons in Hws2 as [Hc Hws2].
    by apply read_article_complete.
Qed.

(** ** Clusterer *)

Lemma for_each_raise {A S} (body : S -> A -> result S) (l : list A) (s : S) (e : exn) :
  for_each body l s = Raise e -> exists s0 x, x ∈ l /\ body s0 x = Raise e.
Proof.
  revert s. induction l as [|x l IH]; intros s; simpl; [done|].
  destruct (body s x) as [s1|e1] eqn:E; simpl.
  - intros (s0 & y & Hy & Hb)%IH. exists s0, y. split; [by right|done].
  - intros [= ->]. exists s, x. split; [by left|done].
Qed.

Lemma joins_raise (norm1 norm2 : str) (similarity_threshold : Q) (e : exn) :
  joins norm1 norm2 similarity_threshold = Raise e ->
  e = IndexError
  /\ similar norm1 norm2 similarity_threshold = false
  /\ (split norm1 = [] \/ split norm2 = []).
Proof.
  unfold joins. destruct (similar norm1 norm2 similarity_threshold); [done|].
  destruct (split norm1) as [|tok1 ?]; simpl; [intros [= <-]; auto|].
  destruct (split norm2) as [|tok2 ?]; simpl; [intros [= <-]; auto|].
  by case_decide.
Qed.

Lemma dict_append_seeded (similarity_threshold : Q) (key v : str)
    (d : list (str * list str)) :
  Forall (seeded similarity_threshold) d ->
  key ∈ map fst d \/ v = key ->
  v = key \/ joins (normalize_entity key) (normalize_entity v) similarity_threshold = Ok true ->
  Forall (seeded similarity_threshold) (dict_append key v d).
Proof.
  intros Hd Hkey Hv. induction Hd as [|[k vs] d [Hhead Hmem] Hd IH]; simpl.
  - destruct Hkey as [Hkey| ->]; [by apply elem_of_nil in Hkey|].
    repeat constructor; simpl; auto.
  - simpl in *. destruct (decide (k = key)) as [->|Hne].
    + constructor; [|done]. split; simpl.
      * destruct vs; [done|]. done.
      * apply Forall_app. split; [done|]. by constructor.
    + constructor; [done|]. apply IH.
      destruct Hkey as [[?|?]%elem_of_cons|?]; [congruence|by left|by right].
Qed.

Lemma dict_append_keys_incl (key v k : str) (d : list (str * list str)) :
  k ∈ map fst (dict_append key v d) <-> k ∈ map fst d \/ k = key.
Proof.
  rewrite keys_dict_append. case_decide as Hin.
  - split; [by left|]. by intros [?| ->].
  - rewrite elem_of_app, list_elem_of_singleton. done.
Qed.

Section ClustererStructure.
Context (entities : list str) (similarity_threshold : Q).

Let normalized_entities : list (str * str) :=
  map (fun e => (normalize_entity e, e)) entities.

(** The clusters are seeded, their representatives are entities. *)
Let structured (st : cluster_state) : Prop :=
  Forall (seeded similarity_threshold) (fst st)
  /\ forall k, k ∈ map fst (fst st) -> k ∈ entities.

Lemma inner_body_structured (orig1 : str) (st st' : cluster_state) (j : nat) (orig2 : str) :
  orig1 ∈ entities ->
  structured st /\ orig1 ∈ map fst (fst st) ->
  inner_body similarity_threshold (normalize_entity orig1) orig1 st
    (j, (normalize_entity orig2, orig2)) = Ok st' ->
  structured st' /\ orig1 ∈ map fst (fst st').
Proof.
  intros Ho1 [[Hs Hk] Hin]. destruct st as [clusters used_indices]. simpl in *.
  destruct (decide (j ∈ used_indices)); [by intros [= <-]|].
  destruct (joins _ _ _) as [[]|] eqn:Ej; simpl; try done.
  - intros [= <-]. simpl. split; [split|].
    + apply dict_append_seeded; auto.
    + intros k [?| ->]%dict_append_keys_incl; auto.
    + apply dict_append_keys_incl. by left.
  - by intros [= <-].
Qed.

Lemma outer_body_structured (st st' : cluster_state) (i : nat) (orig1 : str) :
  orig1 ∈ entities ->
  structured st ->
  outer_body similarity_threshold normalized_entities st
    (i, (normalize_entity orig1, orig1)) = Ok st' ->
  structured st'.
Proof.
  intros Ho1 [Hs Hk]. destruct st as [clusters used_indices]. simpl in *.
  destruct (decide (i ∈ used_indices)); [by intros [= <-]|].
  intros Hloop.
  apply (for_each_inv _ (fun s => structured s /\ orig1 ∈ map fst (fst s))) in Hloop;
    [by destruct Hloop| |].
  - intros s [j [norm2 orig2]] s1 [_ Hl]%enumerate_drop_lookup Hinv Hb.
    apply normalized_lookup in Hl as [_ ->]. by eapply inner_body_structured.
  - simpl. split; [split|].
    + apply dict_append_seeded; auto.
    + intros k [?| ->]%dict_append_keys_incl; auto.
    + apply dict_append_keys_incl. by right.
Qed.

Lemma cluster_entities_structured (clusters : list (str * list str)) :
  cluster_entities entities similarity_threshold = Ok clusters ->
  Forall (seeded similarity_threshold) clusters
  /\ forall k, k ∈ map fst clusters -> k ∈ entities.
Proof.
  unfold cluster_entities. fold normalized_entities.
  destruct (for_each _ _ _) as [st|] eqn:Hloop; simpl; [|done].
  intros [= <-]. revert Hloop. apply (for_each_inv _ structured).
  - intros s [i [norm orig]] s1 [Ho ->]%enumerate_normalized Hs.
    apply outer_body_structured; [|done]. by eapply list_elem_of_lookup_2.
  - split; [constructor|]. simpl. by intros k ?%elem_of_nil.
Qed.

Lemma cluster_entities_raise_inv (e : exn) :
  cluster_entities entities similarity_threshold = Raise e ->
  e = IndexError
  /\ exists x y, x ∈ entities /\ y ∈ entities
       /\ similar (normalize_entity x) (normalize_entity y) similarity_threshold = false
       /\ (split (normalize_entity x) = [] \/ split (normalize_entity y) = []).
Proof.
  unfold cluster_entities. fold normalized_entities.
  destruct (for_each _ _ _) as [st|e'] eqn:Hloop; simpl; [done|].
  intros [= ->].
  apply for_each_raise in Hloop as ([clusters used_indices] & [i [norm1 orig1]] & Hi & Hb).
  apply enumerate_normalized in Hi as [Hi ->]. simpl in Hb.
  destruct (decide (i ∈ used_indices)); [done|].
  apply for_each_raise in Hb as ([cl used] & [j [norm2 orig2]] & Hj & Hb).
  apply enumerate_drop_lookup in Hj as [_ Hj].
  apply normalized_lookup in Hj as [Hj ->]. simpl in Hb.
  destruct (decide (j ∈ used)); [done|].
  destruct (joins _ _ _) as [[]|e0] eqn:Ej; simpl in Hb; try done.
  injection Hb as ->. apply joins_raise in Ej as (-> & Hsim & Hsplit).
  split; [done|]. exists orig1, orig2.
  split; [by eapply list_elem_of_lookup_2|].
  split; [by eapply list_elem_of_lookup_2|done].
Qed.

End ClustererStructure.

(** X3: in every clustering that [cluster_entities] returns, each
    representative is an input entity and the first member of its cluster,
    and every other member passed the test of the inner loop (similarity
    ratio, first token or first five characters) against the
    representative. *)
Theorem cluster_members_join_representative
    (entities : list str) (similarity_threshold : Q)
    (clusters : list (str * list str)) (rep : str) (members : list str) :
  cluster_entities entities similarity_threshold = Ok clusters ->
  (rep, members) ∈ clusters ->
  rep ∈ entities
  /\ head members = Some rep
  /\ forall m, m ∈ members ->
       m = rep
       \/ joins (normalize_entity rep) (normalize_entity m) similarity_threshold = Ok true.
Proof.
  intros [Hs Hk]%cluster_entities_structured Hin.
  rewrite Forall_forall in Hs. destruct (Hs _ Hin) as [Hhead Hmem]. simpl in *.
  split; [|split; [done|]].
  - apply Hk. change rep with (fst (rep, members)). by apply list_elem_of_fmap_2.
  - intros m Hm. rewrite Forall_forall in Hmem. by apply Hmem.
Qed.

Lemma cluster_members_join_representative_witness :
  cluster_entities scenario_A_entities default_threshold = Ok scenario_A_clusters
  /\ (str_of "Il Cane", [str_of "Il Cane"; str_of "cane"]) ∈ scenario_A_clusters
  /\ head [str_of "Il Cane"; str_of "cane"] = Some (str_of "Il Cane").
Proof.
  assert (Hc : cluster_entities scenario_A_entities default_threshold
               = Ok scenario_A_clusters) by (vm_compute; reflexivity).
  assert (Hin : (str_of "Il Cane", [str_of "Il Cane"; str_of "cane"])
                ∈ scenario_A_clusters) by (by left).
  split; [exact Hc|]. split; [exact Hin|].
  exact (proj1 (proj2 (cluster_members_join_representative scenario_A_entities
    default_threshold scenario_A_clusters _ _ Hc Hin))).
Defined.

(** X4: [cluster_entities] raises nothing but [IndexError], and only when
    two of the entities are not similar by ratio and the normalized form of
    one of them has no token. *)
Theorem cluster_entities_only_index_error
    (entities : list str) (similarity_threshold : Q) (e : exn) :
  cluster_entities entities similarity_threshold = Raise e ->
  e = IndexError
  /\ exists x y, x ∈ entities /\ y ∈ entities
       /\ similar (normalize_entity x) (normalize_entity y) similarity_threshold = false
       /\ (split (normalize_entity x) = [] \/ split (normalize_entity y) = []).
Proof. apply cluster_entities_raise_inv. Qed.

Lemma cluster_entities_only_index_error_witness :
  cluster_entities untokenized_entities default_threshold = Raise IndexError
  /\ IndexError = IndexError.
Proof.
  assert (Hr : cluster_entities untokenized_entities default_threshold
               = Raise IndexError) by (vm_compute; reflexivity).
  split; [exact Hr|].
  exact (proj1 (cluster_entities_only_index_error untokenized_entities
                  default_threshold IndexError Hr)).
Defined.

Section Representatives.
Context (entities : list str) (similarity_threshold : Q).
Hypothesis entities_distinct : NoDup entities.

Let normalized_entities : list (str * str) :=
  map (fun e => (normalize_entity e, e)) entities.

(** The inner loop adds no representative. *)
Lemma inner_loop_keys (orig1 norm1 : str) (l : list (nat * (str * str)))
    (st st' : cluster_state) :
  orig1 ∈ map fst (fst st) ->
  for_each (inner_body similarity_threshold norm1 orig1) l st = Ok st' ->
  map fst (fst st') = map fst (fst st).
Proof.
  intros Hin Hloop.
  apply (for_each_inv _ (fun s => map fst (fst s) = map fst (fst st))) in Hloop;
    [done| |done].
  intros [cl used] [j [norm2 orig2]] s1 _ Hkeys. simpl in *.
  destruct (decide (j ∈ used)); [by intros [= <-]|].
  destruct (joins _ _ _) as [[]|]; simpl; try done; [|by intros [= <-]].
  intros [= <-]. simpl. rewrite keys_dict_append, Hkeys.
  by rewrite decide_True.
Qed.

(** After the inner loop every later entity is marked or was turned down. *)
Lemma inner_loop_turns_down (orig1 : str) (start : nat) (st st' : cluster_state)
    (j : nat) (orig2 : str) :
  for_each (inner_body similarity_threshold (normalize_entity orig1) orig1)
    (enumerate start (drop start normalized_entities)) st = Ok st' ->
  start <= j -> entities !! j = Some orig2 -> j ∉ snd st' ->
  turned_down similarity_threshold orig1 orig2.
Proof.
  intros Hloop Hle Hj Hout.
  assert (Hitem : (j, (normalize_entity orig2, orig2))
                  ∈ enumerate start (drop start normalized_entities)).
  { destruct (enumerate_covers (drop start normalized_entities) start j) as [x Hx].
    { rewrite length_drop. unfold normalized_entities. rewrite length_map.
      apply lookup_lt_Some in Hj. lia. }
    pose proof Hx as [_ Hl]%enumerate_drop_lookup.
    destruct x as [norm orig]. apply normalized_lookup in Hl as [Ho ->].
    by replace orig2 with orig by congruence. }
  set (Q := fun (item : nat * (str * str)) (s : cluster_state) =>
              fst item ∈ snd s
              \/ joins (normalize_entity orig1) (fst (snd item))
                   similarity_threshold = Ok false).
  assert (Hnew : forall s x s',
            inner_body similarity_threshold (normalize_entity orig1) orig1 s x = Ok s' ->
            Q x s').
  { intros [cl used] [i [norm2 o2]] s1. unfold Q. simpl.
    destruct (decide (i ∈ used)); [intros [= <-]; by left|].
    destruct (joins _ _ _) as [[]|] eqn:Ej; simpl; try done.
    - intros [= <-]. left. simpl. set_solver.
    - intros [= <-]. by right. }
  assert (Hkeep : forall x s y s',
            Q x s ->
            inner_body similarity_threshold (normalize_entity orig1) orig1 s y = Ok s' ->
            Q x s').
  { intros x s y s1 [Hx|Hx] Hb; [|by right].
    left. apply inner_body_grows in Hb. set_solver. }
  destruct (for_each_post _ Q _ _ _ Hnew Hkeep Hloop _ Hitem) as [?|?]; done.
Qed.

Lemma outer_body_scan (n : nat) (orig1 : str) (st st' : cluster_state) :
  entities !! n = Some orig1 ->
  scan_inv entities similarity_threshold n st ->
  outer_body similarity_threshold normalized_entities st
    (n, (normalize_entity orig1, orig1)) = Ok st' ->
  scan_inv entities similarity_threshold (S n) st'.
Proof.
  intros Hn (Hbelow & Hseat & Hdown & Hsorted).
  destruct st as [clusters used_indices]. simpl in *.
  destruct (decide (n ∈ used_indices)) as [Hused|Hfree].
  - intros [= <-]. split; [|done]. simpl. intros i Hi Hlen.
    destruct (decide (i = n)) as [->|]; [done|]. apply Hbelow; lia.
  - intros Hloop.
    assert (Hfresh : orig1 ∉ map fst clusters).
    { intros (i & Hi & Hio)%Hseat.
      assert (i = n) as -> by (by eapply NoDup_lookup). done. }
    assert (Hkeys1 : map fst (dict_append orig1 orig1 clusters)
                     = map fst clusters ++ [orig1]).
    { rewrite keys_dict_append. by rewrite decide_False. }
    pose proof (inner_loop_grows _ _ _ _ _ _ Hloop) as Hgrow. simpl in Hgrow.
    assert (Hkeys : map fst (fst st') = map fst clusters ++ [orig1]).
    { rewrite <- Hkeys1. apply (inner_loop_keys orig1 _ _ _ _) in Hloop; [done|].
      simpl. rewrite Hkeys1. set_solver. }
    split; [|split; [|split]]; rewrite ?Hkeys.
    + intros i Hi Hlen. destruct (decide (i = n)) as [->|]; [set_solver|].
      apply Hgrow. apply elem_of_union. right. apply Hbelow; lia.
    + intros k Hk. apply elem_of_app in Hk as [Hk|Hk];
        [|apply list_elem_of_singleton in Hk as ->].
      * destruct (Hseat k Hk) as (i & Hi & Hio). exists i.
        split; [|done]. apply Hgrow, elem_of_union. by right.
      * exists n. split; [set_solver|done].
    + intros k j orig Hk Hj Hout. apply elem_of_app in Hk as [Hk|Hk];
        [|apply list_elem_of_singleton in Hk as ->].
      * apply (Hdown k j orig Hk Hj). intros Hin.
        apply Hout, Hgrow, elem_of_union. by right.
      * assert (Hjn : j <> n) by (intros ->; set_solver).
        assert (Hlt : n + 1 <= j).
        { destruct (decide (j < n)) as [Hlt|]; [|lia].
          exfalso. apply Hout, Hgrow. apply elem_of_union. right.
          apply Hbelow; [done|]. by eapply lookup_lt_Some. }
        by eapply inner_loop_turns_down.
    + apply StronglySorted_app_2; [|done|repeat constructor].
      intros k1 k2 Hk1 ->%list_elem_of_singleton.
      by apply (Hdown k1 n orig1 Hk1 Hn).
Qed.

Lemma outer_loop_scan (suffix : list (str * str)) (n : nat) (st st' : cluster_state) :
  drop n normalized_entities = suffix ->
  scan_inv entities similarity_threshold n st ->
  for_each (outer_body similarity_threshold normalized_entities)
    (enumerate n suffix) st = Ok st' ->
  scan_inv entities similarity_threshold (length entities) st'.
Proof.
  revert n st. induction suffix as [|[norm orig] suffix IH]; intros n st Hdrop Hinv; simpl.
  - intros [= <-]. destruct Hinv as (Hbelow & Hrest). split; [|done].
    intros i _ Hlen. apply Hbelow; [|done].
    apply (f_equal length) in Hdrop. rewrite length_drop in Hdrop.
    unfold normalized_entities in Hdrop. rewrite length_map in Hdrop. simpl in Hdrop. lia.
  - destruct (outer_body _ _ st _) as [st1|] eqn:Hb; simpl; [|done].
    assert (Hn : normalized_entities !! n = Some (norm, orig)).
    { rewrite <- (Nat.add_0_r n), <- lookup_drop, Hdrop. done. }
    pose proof Hn as [Ho ->]%normalized_lookup.
    apply (IH (S n)).
    + by rewrite <- Nat.add_1_r, <- drop_drop, Hdrop.
    + by eapply outer_body_scan.
Qed.

Lemma cluster_entities_representatives (clusters : list (str * list str)) :
  cluster_entities entities similarity_threshold = Ok clusters ->
  StronglySorted (turned_down similarity_threshold) (map fst clusters).
Proof.
  unfold cluster_entities. fold normalized_entities.
  destruct (for_each _ _ _) as [st|] eqn:Hloop; simpl; [|done].
  intros [= <-].
  apply (outer_loop_scan normalized_entities 0 ([], ∅) st) in Hloop;
    [by destruct Hloop as (_ & _ & _ & ?)|done|].
  split; [intros i Hi; lia|]. simpl.
  split; [by intros k ?%elem_of_nil|].
  split; [by intros k j orig ?%elem_of_nil|constructor].
Qed.

End Representatives.

(** X5: on pairwise-distinct entities, the representatives come out in an
    order in which each one was turned down by every representative before
    it: tested against an earlier representative, a later one fails all
    three heuristics.  No two clusters could have been merged by comparing
    their representatives in that order. *)
Theorem representatives_turned_down
    (entities : list str) (similarity_threshold : Q)
    (clusters : list (str * list str)) :
  NoDup entities ->
  cluster_entities entities similarity_threshold = Ok clusters ->
  StronglySorted (turned_down similarity_threshold) (map fst clusters).
Proof. intros Hnd. by apply cluster_entities_representatives. Qed.

Lemma representatives_turned_down_witness :
  NoDup scenario_A_entities
  /\ cluster_entities scenario_A_entities default_threshold = Ok scenario_A_clusters
  /\ StronglySorted (turned_down default_threshold) (map fst scenario_A_clusters).
Proof.
  assert (Hnd : NoDup scenario_A_entities).
  { apply (bool_decide_unpack _). vm_compute. exact I. }
  assert (Hc : cluster_entities scenario_A_entities default_threshold
               = Ok scenario_A_clusters) by (vm_compute; reflexivity).
  split; [exact Hnd|]. split; [exact Hc|].
  exact (representatives_turned_down scenario_A_entities default_threshold
           scenario_A_clusters Hnd Hc).
Defined.

(** ** RelationMerger *)

Lemma build_lookup_some_gen (clusters : list (str * list str)) (m : gmap str str) (e : str) :
  is_Some (m !! e) \/ e ∈ all_members clusters ->
  is_Some
    (fold_left
       (fun m '(cluster_rep, members) =>
          fold_left (fun m member => <[member := cluster_rep]> m) members m)
       clusters m !! e).
Proof.
  unfold all_members.
  revert m. induction clusters as [|[r ms] cl IH]; intros m; simpl.
  - intros [?|?%elem_of_nil]; done.
  - intros H. apply IH. rewrite assign_members_lookup.
    destruct (decide (e ∈ ms)) as [Hin|Hout]; [by left|].
    destruct H as [?|[?|?]%elem_of_app]; [by left|done|by right].
Qed.

(** With no entity listed twice, a member resolves to the representative
    of the one cluster that lists it. *)
Lemma resolve_member (clusters : list (str * list str)) (rep e : str) (members : list str) :
  NoDup (all_members clusters) ->
  (rep, members) ∈ clusters -> e ∈ members ->
  resolve (build_entity_to_cluster clusters) e = rep.
Proof.
  intros Hnd Hin He. unfold resolve, build_entity_to_cluster.
  destruct (build_lookup_some_gen clusters ∅ e) as [rep' Hl].
  { right. apply elem_of_all_members. by exists (rep, members). }
  rewrite Hl. simpl.
  apply build_lookup_gen in Hl as [Hl|(members' & Hin' & He')];
    [by rewrite lookup_empty in Hl|].
  by pose proof (one_cluster_only e clusters (rep, members) (rep', members')
                   Hnd Hin He Hin' He') as [= -> _].
Qed.

Section MergerAfterClusterer.
Context (entities : list str) (similarity_threshold : Q).
Context (clusters : list (str * list str)).
Hypothesis entities_distinct : NoDup entities.
Hypothesis clustered : cluster_entities entities similarity_threshold = Ok clusters.

Let entity_to_cluster : gmap str str := build_entity_to_cluster clusters.

Lemma clustered_members_distinct : NoDup (all_members clusters).
Proof.
  destruct (cluster_entities_sound _ _ _ entities_distinct clustered) as (Hm & _).
  by rewrite Hm.
Qed.

Lemma clustered_representative_member (rep : str) (members : list str) :
  (rep, members) ∈ clusters -> rep ∈ members.
Proof.
  intros Hin.
  destruct (cluster_entities_structured _ _ _ clustered) as [Hs _].
  rewrite Forall_forall in Hs. destruct (Hs _ Hin) as [Hhead _]. simpl in Hhead.
  destruct members; [done|]. injection Hhead as ->. by left.
Qed.

Lemma resolve_clustered_member (rep e : str) (members : list str) :
  (rep, members) ∈ clusters -> e ∈ members -> resolve entity_to_cluster e = rep.
Proof. apply resolve_member, clustered_members_distinct. Qed.

Lemma resolve_clustered_cases (e : str) :
  ((e ∉ entities) /\ resolve entity_to_cluster e = e)
  \/ (e ∈ entities /\ resolve entity_to_cluster e ∈ map fst clusters).
Proof.
  destruct (cluster_entities_sound _ _ _ entities_distinct clustered) as (Hm & _).
  destruct (decide (e ∈ entities)) as [Hin|Hout].
  - right. split; [done|]. rewrite <- Hm in Hin.
    apply elem_of_all_members in Hin as ([rep members] & Hc & He).
    rewrite (resolve_clustered_member rep e members Hc He).
    change rep with (fst (rep, members)). by apply list_elem_of_fmap_2.
  - left. split; [done|]. apply resolve_unmapped. by rewrite Hm.
Qed.

Lemma resolve_clustered_idem (e : str) :
  resolve entity_to_cluster (resolve entity_to_cluster e) = resolve entity_to_cluster e.
Proof.
  unfold entity_to_cluster.
  destruct (resolve_cases clusters e) as [H|(members & Hin & He)]; [by rewrite !H|].
  eapply (resolve_member clusters); [apply clustered_members_distinct|done|].
  by eapply clustered_representative_member.
Qed.

Lemma remerge_survivors (relations : list triple) (x : triple) :
  survivor entity_to_cluster (merge_relations relations clusters) x
  <-> survivor entity_to_cluster relations x.
Proof.
  split.
  - intros (src & rel & tgt & Hin & -> & Hu).
    apply elem_of_merge_relations in Hin as (s0 & r0 & t0 & Hin0 & [= -> -> ->] & Hu0).
    fold entity_to_cluster in Hu, Hu0 |- *.
    rewrite !resolve_clustered_idem in *. by exists s0, r0, t0.
  - intros Hx. pose proof Hx as (s0 & r0 & t0 & Hin0 & -> & Hu0).
    exists (resolve entity_to_cluster s0), r0, (resolve entity_to_cluster t0).
    split; [by apply elem_of_merge_relations|].
    by rewrite !resolve_clustered_idem.
Qed.

Lemma remerge (relations : list triple) :
  merge_relations (merge_relations relations clusters) clusters
  = merge_relations relations clusters.
Proof.
  unfold merge_relations at 1 3. f_equal. f_equal.
  apply set_eq. intros x. rewrite !merge_loop_spec.
  pose proof (remerge_survivors relations x) as Hs. unfold entity_to_cluster in Hs.
  split; (intros [?|?]; [by left|right]); by apply Hs.
Qed.

End MergerAfterClusterer.

(** X6: the map built from the clusters that [cluster_entities] returned
    on distinct entities sends every member of a cluster to that cluster's
    representative, every representative to itself, and every string that
    is not one of the entities to itself. *)
Theorem resolve_after_clustering
    (entities : list str) (similarity_threshold : Q) (clusters : list (str * list str)) :
  NoDup entities ->
  cluster_entities entities similarity_threshold = Ok clusters ->
  let entity_to_cluster := build_entity_to_cluster clusters in
  (forall rep members e,
      (rep, members) ∈ clusters -> e ∈ members -> resolve entity_to_cluster e = rep)
  /\ (forall rep, rep ∈ map fst clusters -> resolve entity_to_cluster rep = rep)
  /\ (forall e, e ∉ entities -> resolve entity_to_cluster e = e).
Proof.
  intros Hnd Hc entity_to_cluster. split; [|split].
  - intros rep members e. by eapply resolve_clustered_member.
  - intros rep Hrep. change map with (@fmap list _) in Hrep.
    apply list_elem_of_fmap in Hrep as ([r members] & -> & Hin). simpl.
    eapply resolve_clustered_member; try done.
    by eapply clustered_representative_member.
  - intros e He.
    destruct (resolve_clustered_cases entities similarity_threshold clusters Hnd Hc e)
      as [[_ ?]|[? _]]; done.
Qed.

Lemma resolve_after_clustering_witness :
  NoDup scenario_A_entities
  /\ cluster_entities scenario_A_entities default_threshold = Ok scenario_A_clusters
  /\ resolve (build_entity_to_cluster scenario_A_clusters) (str_of "Gatto") = str_of "Gatto".
Proof.
  assert (Hnd : NoDup scenario_A_entities).
  { apply (bool_decide_unpack _). vm_compute. exact I. }
  assert (Hc : cluster_entities scenario_A_entities default_threshold
               = Ok scenario_A_clusters) by (vm_compute; reflexivity).
  split; [exact Hnd|]. split; [exact Hc|].
  apply (proj1 (proj2 (resolve_after_clustering scenario_A_entities default_threshold
                         scenario_A_clusters Hnd Hc))).
  apply (bool_decide_unpack _). vm_compute. exact I.
Defined.

(** X7: in the relations merged through such clusters, an endpoint is a
    representative, or a string that is not among the clustered entities;
    no clustered entity other than a representative is left as an
    endpoint. *)
Theorem merged_endpoints
    (entities : list str) (similarity_threshold : Q) (clusters : list (str * list str))
    (relations : list triple) (s r t : str) :
  NoDup entities ->
  cluster_entities entities similarity_threshold = Ok clusters ->
  (s, r, t) ∈ merge_relations relations clusters ->
  (s ∈ map fst clusters \/ s ∉ entities) /\ (t ∈ map fst clusters \/ t ∉ entities).
Proof.
  intros Hnd Hc (src & rel & tgt & _ & [= -> -> ->] & _)%elem_of_merge_relations.
  split.
  - destruct (resolve_clustered_cases entities similarity_threshold clusters Hnd Hc src)
      as [[? ->]|[_ ?]]; auto.
  - destruct (resolve_clustered_cases entities similarity_threshold clusters Hnd Hc tgt)
      as [[? ->]|[_ ?]]; auto.
Qed.

Lemma merged_endpoints_witness :
  NoDup scenario_A_entities
  /\ cluster_entities scenario_A_entities default_threshold = Ok scenario_A_clusters
  /\ triple_of ("Il Cane", "mangia", "carne")%string
     ∈ merge_relations scenario_B_relations scenario_A_clusters
  /\ (str_of "Il Cane" ∈ map fst scenario_A_clusters
      \/ str_of "Il Cane" ∉ scenario_A_entities).
Proof.
  assert (Hnd : NoDup scenario_A_entities).
  { apply (bool_decide_unpack _). vm_compute. exact I. }
  assert (Hc : cluster_entities scenario_A_entities default_threshold
               = Ok scenario_A_clusters) by (vm_compute; reflexivity).
  assert (Hin : triple_of ("Il Cane", "mangia", "carne")%string
                ∈ merge_relations scenario_B_relations scenario_A_clusters).
  { apply (bool_decide_unpack _). vm_compute. exact I. }
  split; [exact Hnd|]. split; [exact Hc|]. split; [exact Hin|].
  exact (proj1 (merged_endpoints scenario_A_entities default_threshold
                  scenario_A_clusters scenario_B_relations _ _ _ Hnd Hc Hin)).
Defined.

(** X8: merging again through the same clusters changes nothing: the
    output of [merge_relations] is a fixed point of it, for clusters that
    [cluster_entities] returned on distinct entities. *)
Theorem merge_relations_idempotent
    (entities : list str) (similarity_threshold : Q) (clusters : list (str * list str))
    (relations : list triple) :
  NoDup entities ->
  cluster_entities entities similarity_threshold = Ok clusters ->
  merge_relations (merge_relations relations clusters) clusters
  = merge_relations relations clusters.
Proof. intros Hnd Hc. by eapply remerge. Qed.

Lemma merge_relations_idempotent_witness :
  NoDup scenario_A_entities
  /\ cluster_entities scenario_A_entities default_threshold = Ok scenario_A_clusters
  /\ merge_relations (merge_relations scenario_B_relations scenario_A_clusters)
       scenario_A_clusters
     = merge_relations scenario_B_relations scenario_A_clusters.
Proof.
  assert (Hnd : NoDup scenario_A_entities).
  { apply (bool_decide_unpack _). vm_compute. exact I. }
  assert (Hc : cluster_entities scenario_A_entities default_threshold
               = Ok scenario_A_clusters) by (vm_compute; reflexivity).
  split; [exact Hnd|]. split; [exact Hc|].
  exact (merge_relations_idempotent scenario_A_entities default_threshold
           scenario_A_clusters scenario_B_relations Hnd Hc).
Defined.

(** X9: the merged relations depend on which relations are given, not on
    their order or on how often one is given. *)
Theorem merge_relations_set
    (relations relations' : list triple) (entity_clusters : list (str * list str)) :
  (forall x, x ∈ relations <-> x ∈ relations') ->
  merge_relations relations entity_clusters = merge_relations relations' entity_clusters.
Proof.
  intros Hsame. unfold merge_relations. f_equal. f_equal.
  apply set_eq. intros x. rewrite !merge_loop_spec. unfold survivor.
  split; (intros [?|(src & rel & tgt & Hin & Hx)]; [by left|right]);
    exists src, rel, tgt; (split; [|done]); by apply Hsame.
Qed.

Lemma merge_relations_set_witness :
  let r1 := triple_of ("a", "sees", "b")%string in
  let r2 := triple_of ("b", "sees", "c")%string in
  (forall x, x ∈ [r1; r2; r1] <-> x ∈ [r2; r1])
  /\ merge_relations [r1; r2; r1] [] = merge_relations [r2; r1] [].
Proof.
  intros r1 r2.
  assert (Hsame : forall x, x ∈ [r1; r2; r1] <-> x ∈ [r2; r1]).
  { intros x. rewrite !elem_of_cons. rewrite !elem_of_nil. tauto. }
  split; [exact Hsame|].
  exact (merge_relations_set [r1; r2; r1] [r2; r1] [] Hsame).
Defined.

(** ** RelationAnalyzer *)

Section AnalyzerMore.
Context {A K : Type} `{EqDecision K} (f : A -> K).

Lemma tally_snoc (l : list A) (x : A) :
  tally f (l ++ [x]) [] = bump (f x) (tally f l []).
Proof. unfold tally. by rewrite fold_left_app. Qed.

Lemma tally_keys_nil (l : list A) (key : K) :
  key ∈ map fst (tally f l []) <-> key ∈ map f l.
Proof.
  rewrite tally_keys. split; [|by right]. by intros [?%elem_of_nil|?].
Qed.

(** The dictionary of counts lists its keys in the order in which they
    first occur in the input. *)
Lemma tally_key_order (l : list A) (k1 k2 : K) :
  [k1; k2] `sublist_of` map fst (tally f l []) ->
  exists p x q, l = p ++ x :: q /\ f x = k1 /\ k2 ∉ map f p.
Proof.
  induction l as [|x l IH] using rev_ind.
  - intros Hs%sublist_length. simpl in Hs. lia.
  - rewrite tally_snoc, keys_bump. case_decide as Hin.
    + intros (p & y & q & -> & Hy & Hp)%IH.
      exists p, y, (q ++ [x]). split; [by rewrite <- app_assoc|done].
    + intros (a & b & Hab & Ha & Hb)%sublist_app_r.
      destruct b as [|kb b].
      * rewrite app_nil_r in Hab. subst a.
        apply IH in Ha as (p & y & q & -> & Hy & Hp).
        exists p, y, (q ++ [x]). split; [by rewrite <- app_assoc|done].
      * pose proof (sublist_length _ _ Hb) as Hlen. simpl in Hlen.
        destruct b; [|simpl in Hlen; lia].
        destruct a as [|ka [|? a]]; try done;
          [|apply (f_equal length) in Hab; simpl in Hab;
            rewrite length_app in Hab; simpl in Hab; lia].
        injection Hab as <- <-.
        assert (Hk2 : k2 = f x).
        { apply list_elem_of_singleton. eapply sublist_subseteq; [exact Hb|by left]. }
        subst k2.
        assert (Hk1 : k1 ∈ map f l).
        { apply tally_keys_nil. by eapply sublist_subseteq; [|left]. }
        change map with (@fmap list _) in Hk1.
        apply list_elem_of_fmap in Hk1 as (y & -> & Hy).
        apply list_elem_of_split in Hy as (p & q & ->).
        exists p, y, (q ++ [x]). split; [by rewrite <- !app_assoc|]. split; [done|].
        intros Hp. apply Hin, tally_keys_nil.
        change map with (@fmap list _) in *. rewrite fmap_app. apply elem_of_app. by left.
Qed.

Lemma insert_sorted_split (lt : A -> A -> bool) (x : A) (l : list A) :
  exists l1 l2, l = l1 ++ l2 /\ insert_sorted lt x l = l1 ++ x :: l2
                /\ Forall (fun y => lt y x = true) l1.
Proof.
  induction l as [|y l (l1 & l2 & -> & Hi & Hl1)]; simpl.
  - by exists [], [].
  - destruct (lt y x) eqn:E.
    + exists (y :: l1), l2. rewrite Hi. split; [done|]. split; [done|].
      by constructor.
    + by exists [], (y :: l1 ++ l2).
Qed.

Lemma filter_sublist_mono (P : A -> Prop) `{!forall x, Decision (P x)} (l1 l2 : list A) :
  l1 `sublist_of` l2 -> filter P l1 `sublist_of` filter P l2.
Proof.
  induction 1 as [|x l1 l2 _ IH|x l1 l2 _ IH]; [done| |].
  - rewrite !filter_cons. case_decide; [by constructor|done].
  - rewrite filter_cons. case_decide; [by constructor|done].
Qed.

End AnalyzerMore.

(** [sorted] by descending count keeps the entries of one count in the
    order they had. *)
Lemma sorted_more_frequent_stable {K} (n : nat) (d : list (K * nat)) :
  filter (fun e => snd e = n) (sorted more_frequent d) = filter (fun e => snd e = n) d.
Proof.
  induction d as [|x d IH]; simpl; [done|].
  destruct (insert_sorted_split more_frequent x (sorted more_frequent d))
    as (l1 & l2 & Hl & -> & Hbefore).
  rewrite filter_cons, <- IH, Hl, !filter_app, filter_cons.
  case_decide as Hx; [|done].
  replace (filter (fun e : K * nat => snd e = n) l1) with (@nil (K * nat)); [done|].
  symmetry. clear -Hbefore Hx.
  induction Hbefore as [|y l1 Hy _ IH]; [done|].
  rewrite filter_cons, decide_False; [done|].
  unfold more_frequent in Hy. apply Z.ltb_lt in Hy. lia.
Qed.

Lemma report_order {A K} `{EqDecision K} (f : A -> K) (limit : nat) (inputs : list A)
    (k1 k2 : K) (n : nat) :
  [(k1, n); (k2, n)] `sublist_of` take limit (sorted more_frequent (tally f inputs [])) ->
  exists p x q, inputs = p ++ x :: q /\ f x = k1 /\ k2 ∉ map f p.
Proof.
  intros Hs. apply (tally_key_order f).
  assert (Hd : [(k1, n); (k2, n)] `sublist_of` tally f inputs []).
  { apply (filter_sublist_mono (fun e => snd e = n)) in Hs.
    rewrite !filter_cons, !decide_True in Hs by done.
    etrans; [exact Hs|]. etrans; [apply filter_sublist_mono, sublist_take|].
    rewrite sorted_more_frequent_stable. apply sublist_filter. }
  change [k1; k2] with (fst <$> [(k1, n); (k2, n)]).
  change map with (@fmap list _). by apply fmap_sublist.
Qed.

(** X10: ties are broken by first occurrence.  When a predicate is
    reported before another one with the same count, it occurs in the input
    (lower-cased) before the other one occurs at all; the same holds for
    the entity pairs. *)
Theorem analyze_relations_ties (relations : list triple) :
  (forall k1 k2 n,
      [(k1, n); (k2, n)] `sublist_of` top_relations (analyze_relations relations) ->
      exists p x q, relations = p ++ x :: q /\ lowered_predicate x = k1
                    /\ k2 ∉ map lowered_predicate p)
  /\ (forall k1 k2 n,
        [(k1, n); (k2, n)] `sublist_of` common_entity_pairs (analyze_relations relations) ->
        exists p x q, relations = p ++ x :: q /\ lowered_endpoints x = k1
                      /\ k2 ∉ map lowered_endpoints p).
Proof.
  unfold analyze_relations. rewrite count_loop_split. simpl.
  split; intros k1 k2 n; apply report_order.
Qed.

Section AnalyzerComplete.
Context {A K : Type} `{EqDecision K} (f : A -> K).

Lemma tally_distinct_keys (l : list A) :
  map fst (tally f l []) ≡ₚ remove_dups (map f l).
Proof.
  apply NoDup_Permutation.
  - apply tally_keys_NoDup. constructor.
  - apply NoDup_remove_dups.
  - intros k. by rewrite tally_keys_nil, elem_of_remove_dups.
Qed.

Lemma occurrences_sum (keys : list K) (l : list A) :
  NoDup keys -> (forall x, x ∈ l -> f x ∈ keys) ->
  list_sum (map (fun k => occurrences f k l) keys) = length l.
Proof.
  intros Hnd. induction l as [|x l IH]; intros Hcover.
  - unfold occurrences. simpl. clear. by induction keys.
  - assert (Hone : forall ks, NoDup ks ->
              list_sum (map (fun k => occurrences f k (x :: l)) ks)
              = (if decide (f x ∈ ks) then 1 else 0)
                + list_sum (map (fun k => occurrences f k l) ks)).
    { clear. induction 1 as [|k ks Hk Hks IHks]; [|simpl].
      - by rewrite decide_False by (by intros ?%elem_of_nil).
      - rewrite IHks, occurrences_cons.
        destruct (decide (f x = k)) as [<-|Hne].
        + rewrite (decide_False (P := f x ∈ ks)) by done.
          rewrite (decide_True (P := f x ∈ f x :: ks)) by (by left). lia.
        + destruct (decide (f x ∈ ks)) as [Hin|Hout].
          * rewrite (decide_True (P := f x ∈ k :: ks)) by (by right). lia.
          * rewrite (decide_False (P := f x ∈ k :: ks)); [lia|].
            intros [?|?]%elem_of_cons; done. }
    rewrite Hone by done. rewrite decide_True by (apply Hcover; by left).
    rewrite IH; [done|]. intros y Hy. apply Hcover. by right.
Qed.

Lemma tally_counts (l : list A) :
  map snd (tally f l []) = map (fun k => occurrences f k l) (map fst (tally f l [])).
Proof.
  assert (Hnd : NoDup (map fst (tally f l []))) by (apply tally_keys_NoDup; constructor).
  assert (Hall : forall k n, (k, n) ∈ tally f l [] -> n = occurrences f k l).
  { intros k n Hin. rewrite <- (get_count_elem _ k n Hnd Hin). by rewrite tally_count. }
  clear Hnd. induction (tally f l []) as [|[k n] d IH]; simpl; [done|].
  rewrite (Hall k n) by (by left). f_equal. apply IH.
  intros k' n' Hin. apply Hall. by right.
Qed.

(** A report that has room for every key lists every key, and its counts
    add up to the number of inputs. *)
Lemma report_complete (limit : nat) (inputs : list A) :
  length (remove_dups (map f inputs)) <= limit ->
  let report := take limit (sorted more_frequent (tally f inputs [])) in
  (forall key, key ∈ map f inputs -> key ∈ map fst report)
  /\ list_sum (map snd report) = length inputs.
Proof.
  intros Hroom report.
  assert (Hall : report = sorted more_frequent (tally f inputs [])).
  { unfold report. apply take_ge. rewrite sorted_length.
    rewrite <- (length_map fst), tally_distinct_keys. done. }
  assert (Hperm : report ≡ₚ tally f inputs []) by (rewrite Hall; apply sorted_perm).
  split.
  - intros key Hkey. change map with (@fmap list _). rewrite Hperm.
    by apply tally_keys_nil.
  - change map with (@fmap list _). rewrite Hperm.
    change (@fmap list _) with map. rewrite tally_counts.
    apply occurrences_sum; [apply tally_keys_NoDup; constructor|].
    intros x Hx. apply tally_keys_nil.
    change map with (@fmap list _). by apply list_elem_of_fmap_2.
Qed.

End AnalyzerComplete.

(** X11: when the relations have at most 10 distinct lower-cased
    predicates, every one of them is reported and the reported counts add
    up to the number of relations; likewise for at most 5 distinct
    lower-cased (source, target) pairs. *)
Theorem analyze_relations_complete (relations : list triple) :
  (length (remove_dups (map lowered_predicate relations)) <= 10 ->
   (forall key, key ∈ map lowered_predicate relations ->
                key ∈ map fst (top_relations (analyze_relations relations)))
   /\ list_sum (map snd (top_relations (analyze_relations relations)))
      = length relations)
  /\ (length (remove_dups (map lowered_endpoints relations)) <= 5 ->
      (forall key, key ∈ map lowered_endpoints relations ->
                   key ∈ map fst (common_entity_pairs (analyze_relations relations)))
      /\ list_sum (map snd (common_entity_pairs (analyze_relations relations)))
         = length relations).
Proof.
  unfold analyze_relations. rewrite count_loop_split. simpl.
  split; intros Hroom; by apply report_complete.
Qed.

Example ties_by_first_occurrence :
  top_relations
    (analyze_relations
       (map triple_of [("a", "likes", "b"); ("a", "Eats", "c"); ("b", "LIKES", "c");
                       ("c", "eats", "a")]%string))
  = [(str_of "likes", 2); (str_of "eats", 2)].
Proof. reflexivity. Qed.

(** ** Loader *)

Section Loader.
Context (fs : filesystem).

Lemma load_file_spec (root : str) (graphs : list Graph) (f : str * file_content) :
  load_file root graphs f
  = (loading_report [(root, [f])], Ok (graphs ++ valid_graphs [(root, [f])])).
Proof.
  destruct f as [file content]. unfold load_file.
  change (endswith file (str_of ".json") && negb (startswith file (str_of "aggregated")))
    with (accepts file).
  unfold loading_report, valid_graphs. cbn [map concat omap list_omap].
  destruct (accepts file); [destruct content|]; simpl; by rewrite ?app_nil_r.
Qed.

Lemma loading_report_cons (root : str) (f : str * file_content)
    (files : list (str * file_content)) :
  loading_report [(root, f :: files)]
  = loading_report [(root, [f])] ++ loading_report [(root, files)].
Proof.
  unfold loading_report. cbn [map concat]. rewrite !app_nil_r.
  by rewrite (omap_app _ [f] files).
Qed.

Lemma valid_graphs_cons (root : str) (f : str * file_content)
    (files : list (str * file_content)) :
  valid_graphs [(root, f :: files)]
  = valid_graphs [(root, [f])] ++ valid_graphs [(root, files)].
Proof.
  unfold valid_graphs. cbn [map concat]. rewrite !app_nil_r.
  by rewrite (omap_app _ [f] files).
Qed.

Lemma load_files_spec (root : str) (files : list (str * file_content)) (graphs : list Graph) :
  io_for_each (load_file root) files graphs
  = (loading_report [(root, files)], Ok (graphs ++ valid_graphs [(root, files)])).
Proof.
  revert graphs. induction files as [|f files IH]; intros graphs.
  - unfold loading_report, valid_graphs. simpl. by rewrite app_nil_r.
  - cbn [io_for_each]. rewrite load_file_spec. cbn [io_bind]. rewrite IH.
    by rewrite (loading_report_cons root f files), (valid_graphs_cons root f files),
      app_assoc.
Qed.

Lemma loading_report_tree (root : str) (files : list (str * file_content))
    (tree : list (str * list (str * file_content))) :
  loading_report ((root, files) :: tree)
  = loading_report [(root, files)] ++ loading_report tree.
Proof. unfold loading_report. cbn [map concat]. by rewrite app_nil_r. Qed.

Lemma valid_graphs_tree (root : str) (files : list (str * file_content))
    (tree : list (str * list (str * file_content))) :
  valid_graphs ((root, files) :: tree) = valid_graphs [(root, files)] ++ valid_graphs tree.
Proof. unfold valid_graphs. cbn [map concat]. by rewrite app_nil_r. Qed.

Lemma load_tree_spec (tree : list (str * list (str * file_content))) (graphs : list Graph) :
  io_for_each (fun graphs '(root, files) => io_for_each (load_file root) files graphs)
    tree graphs
  = (loading_report tree, Ok (graphs ++ valid_graphs tree)).
Proof.
  revert graphs. induction tree as [|[root files] tree IH]; intros graphs.
  - unfold loading_report, valid_graphs. simpl. by rewrite app_nil_r.
  - cbn [io_for_each]. rewrite load_files_spec. cbn [io_bind]. rewrite IH.
    by rewrite (loading_report_tree root files tree), (valid_graphs_tree root files tree),
      app_assoc.
Qed.

End Loader.

(** X12: the loader never raises.  It returns, in the order of the walk,
    the fragments of the files whose name ends in [.json] and does not begin
    with [aggregated]; a file that cannot be read or parsed is reported and
    skipped, and a parsed file that is not a fragment is reported as loaded
    and left out. *)
Theorem load_graphs_from_directory_spec (fs : filesystem) (directory : str) :
  load_graphs_from_directory fs directory
  = (loading_report (walk fs directory), Ok (valid_graphs (walk fs directory))).
Proof. unfold load_graphs_from_directory. by rewrite load_tree_spec. Qed.

(** ** Runs of [process_directory] *)

Lemma writes_cons_print (m : message) (t : list event) : writes (Print m :: t) = writes t.
Proof. reflexivity. Qed.

Lemma writes_cons_mkdir (dir : str) (t : list event) : writes (Mkdir dir :: t) = writes t.
Proof. reflexivity. Qed.

Lemma writes_cons_write (p : path) (a : artifact) (t : list event) :
  writes (WriteFile p a :: t) = (p, a) :: writes t.
Proof. reflexivity. Qed.

Lemma print_top_relations_spec (l : list (str * nat)) :
  print_top_relations l
  = (map (fun '(rel, count) => Print (TopRelation rel count)) l, Ok tt).
Proof.
  unfold print_top_relations. induction l as [|[rel count] l IH]; [done|].
  cbn [io_for_each io_bind emit map]. by rewrite IH.
Qed.

Lemma top_relations_prints (l : list (str * nat)) :
  writes (map (fun '(rel, count) => Print (TopRelation rel count)) l) = [].
Proof. induction l as [|[rel count] l IH]; [done|]. simpl. exact IH. Qed.

Lemma writes_nil : writes [] = [].
Proof. reflexivity. Qed.

Create Rewrite HintDb trace.
#[local] Hint Rewrite writes_cons_mkdir writes_cons_print writes_cons_write writes_app
  writes_nil top_relations_prints app_nil_r : trace.

Section Runs.
Context (list_of_entities : gset str -> list str).
Context (list_of_relations : gset triple -> list triple).
Context (fs : filesystem) (input_dir output_dir : str) (similarity_threshold : Q).

(** All that the aggregator does besides computing is print one line. *)
Lemma cluster_knowledge_graphs_trace (graphs : list Graph) :
  fst (cluster_knowledge_graphs list_of_entities list_of_relations graphs
         similarity_threshold)
  = [Print (PreClustering (size (union_entities graphs)) (size (union_relations graphs)))].
Proof.
  unfold cluster_knowledge_graphs. cbn [io_bind emit fst].
  destruct (cluster_entities _ _); reflexivity.
Qed.

(** The run from the point where fragments have been loaded and
    clustered. *)
Lemma process_directory_after_clustering (loading tc : list event)
    (g0 : Graph) (graphs : list Graph) (g : ClusteredGraph) :
  mkdir_ok fs output_dir = true ->
  load_graphs_from_directory fs input_dir = (loading, Ok (g0 :: graphs)) ->
  cluster_knowledge_graphs list_of_entities list_of_relations (g0 :: graphs)
    similarity_threshold = (tc, Ok g) ->
  let run := process_directory list_of_entities list_of_relations fs input_dir
               output_dir similarity_threshold in
  (writable fs (clustered_kg output_dir) = false ->
   snd run = Raise OSError /\ writes (fst run) = writes loading)
  /\ (writable fs (clustered_kg output_dir) = true ->
      writable fs (clustering_details output_dir) = false ->
      snd run = Raise OSError
      /\ writes (fst run)
         = writes loading ++ [(clustered_kg output_dir, ClusteredGraphJson g)])
  /\ (writable fs (clustered_kg output_dir) = true ->
      writable fs (clustering_details output_dir) = true ->
      snd run = (if original_entities (stats g) =? 0
                 then Raise ZeroDivisionError else Ok tt)
      /\ writes (fst run)
         = writes loading
           ++ [(clustered_kg output_dir, ClusteredGraphJson g);
               (clustering_details output_dir,
                ClusteringDetailsJson (entity_clusters g) (stats g))]).
Proof.
  intros Hmk Hload Hc run.
  assert (Htc : writes tc = []).
  { pose proof (cluster_knowledge_graphs_trace (g0 :: graphs)) as Ht.
    rewrite Hc in Ht. simpl in Ht. by rewrite Ht. }
  unfold run, process_directory.
  rewrite Hmk. cbn [io_bind emit]. rewrite Hload. cbn [io_bind emit]. rewrite Hc.
  unfold save_clustered_graph.
  fold (clustered_kg output_dir). fold (clustering_details output_dir).
  split; [|split].
  - intros ->. cbn [io_bind emit io_raise fst snd app].
    split; [done|]. autorewrite with trace. by rewrite Htc, app_nil_r.
  - intros -> ->. cbn [io_bind emit io_raise fst snd app].
    split; [done|]. autorewrite with trace. by rewrite Htc.
  - intros -> ->. cbn [io_bind emit io_raise fst snd app].
    destruct (original_entities (stats g) =? 0);
      cbn [io_bind emit io_raise fst snd app].
    + split; [done|]. autorewrite with trace. by rewrite Htc.
    + rewrite print_top_relations_spec. cbn [io_bind emit io_raise fst snd app].
      split; [done|]. autorewrite with trace. by rewrite Htc.
Qed.

End Runs.

(** X13: whatever the file system and the fragments are,
    [process_directory] writes nothing, or the clustered graph alone, or the
    clustered graph followed by the clustering details taken from that same
    graph; the graph is the one the aggregator returned for the loaded
    fragments.  It writes no other file, and never the details without the
    graph. *)
Theorem process_directory_writes
    (list_of_entities : gset str -> list str)
    (list_of_relations : gset triple -> list triple)
    (fs : filesystem) (input_dir output_dir : str) (similarity_threshold : Q) :
  let run := process_directory list_of_entities list_of_relations fs input_dir
               output_dir similarity_threshold in
  writes (fst run) = []
  \/ exists tc g,
       cluster_knowledge_graphs list_of_entities list_of_relations
         (valid_graphs (walk fs input_dir)) similarity_threshold = (tc, Ok g)
       /\ (writes (fst run) = [(clustered_kg output_dir, ClusteredGraphJson g)]
           \/ writes (fst run)
              = [(clustered_kg output_dir, ClusteredGraphJson g);
                 (clustering_details output_dir,
                  ClusteringDetailsJson (entity_clusters g) (stats g))]).
Proof.
  intros run.
  destruct (mkdir_ok fs output_dir) eqn:Hmk.
  2: { left. unfold run, process_directory. by rewrite Hmk. }
  assert (Hload : load_graphs_from_directory fs input_dir
                  = (loading_report (walk fs input_dir),
                     Ok (valid_graphs (walk fs input_dir)))).
  { unfold load_graphs_from_directory. by rewrite load_tree_spec. }
  assert (Hprints : writes (loading_report (walk fs input_dir)) = []).
  { destruct (load_graphs_prints fs input_dir) as (t & gs & E & Ht).
    rewrite Hload in E. injection E as -> _. by apply writes_prints. }
  destruct (valid_graphs (walk fs input_dir)) as [|g0 graphs] eqn:Hvalid.
  { left. unfold run, process_directory. rewrite Hmk. cbn [io_bind emit].
    rewrite Hload. cbn [io_bind emit fst]. autorewrite with trace. by rewrite Hprints. }
  destruct (cluster_knowledge_graphs list_of_entities list_of_relations (g0 :: graphs)
              similarity_threshold) as [tc [g|e]] eqn:Hc.
  - destruct (process_directory_after_clustering list_of_entities list_of_relations
                fs input_dir output_dir similarity_threshold _ tc g0 graphs g
                Hmk Hload Hc) as (H1 & H2 & H3).
    fold run in H1, H2, H3. rewrite Hprints in H1, H2, H3.
    destruct (writable fs (clustered_kg output_dir)) eqn:Hw1;
      [|left; by apply H1].
    right. exists tc, g. split; [done|].
    destruct (writable fs (clustering_details output_dir)) eqn:Hw2.
    + right. by apply H3.
    + left. by apply H2.
  - left. unfold run, process_directory. rewrite Hmk. cbn [io_bind emit].
    rewrite Hload. cbn [io_bind emit]. rewrite Hc. cbn [io_bind emit fst].
    pose proof (cluster_knowledge_graphs_trace list_of_entities list_of_relations
                  similarity_threshold (g0 :: graphs)) as Ht.
    rewrite Hc in Ht. simpl in Ht. subst tc.
    autorewrite with trace. by rewrite Hprints.
Qed.

(** X14: a run that finds at least one fragment, can write both files and
    gets a clustering with at least one entity ends normally, after writing
    the clustered graph and then the clustering details, and nothing
    else. *)
Theorem process_directory_success
    (list_of_entities : gset str -> list str)
    (list_of_relations : gset triple -> list triple)
    (fs : filesystem) (input_dir output_dir : str) (similarity_threshold : Q)
    (loading tc : list event) (graphs : list Graph) (g : ClusteredGraph) :
  mkdir_ok fs output_dir = true ->
  load_graphs_from_directory fs input_dir = (loading, Ok graphs) ->
  graphs <> [] ->
  cluster_knowledge_graphs list_of_entities list_of_relations graphs
    similarity_threshold = (tc, Ok g) ->
  writable fs (clustered_kg output_dir) = true ->
  writable fs (clustering_details output_dir) = true ->
  original_entities (stats g) <> 0 ->
  let run := process_directory list_of_entities list_of_relations fs input_dir
               output_dir similarity_threshold in
  snd run = Ok tt
  /\ writes (fst run)
     = [(clustered_kg output_dir, ClusteredGraphJson g);
        (clustering_details output_dir,
         ClusteringDetailsJson (entity_clusters g) (stats g))].
Proof.
  intros Hmk Hload Hne Hc Hw1 Hw2 Hpos run.
  destruct graphs as [|g0 graphs]; [done|].
  destruct (process_directory_after_clustering list_of_entities list_of_relations
              fs input_dir output_dir similarity_threshold loading tc g0 graphs g
              Hmk Hload Hc) as (_ & _ & H3).
  destruct (H3 Hw1 Hw2) as [Hout Hwrites]. fold run in Hout, Hwrites.
  apply Nat.eqb_neq in Hpos. rewrite Hpos in Hout. split; [done|].
  rewrite Hwrites.
  destruct (load_graphs_prints fs input_dir) as (t & gs & E & Ht).
  rewrite Hload in E. injection E as -> _. by rewrite (writes_prints _ Ht).
Qed.

Lemma union_entities_empty (graphs : list Graph) :
  (forall g, g ∈ graphs -> default [] (entities g) = []) -> union_entities graphs = ∅.
Proof.
  intros Hall. unfold union_entities. rewrite union_entities_fold.
  apply set_eq. intros x. rewrite elem_of_union_fold. split; [|by intros ?%not_elem_of_empty].
  intros [?|(l & Hl & Hx)]; [done|]. exfalso.
  change map with (@fmap list _) in Hl.
  apply list_elem_of_fmap in Hl as (g & -> & Hg).
  rewrite (Hall g Hg) in Hx. by apply elem_of_nil in Hx.
Qed.

(** X15: when fragments are loaded but none of them has an entity, the
    run writes both files and then raises [ZeroDivisionError] while printing
    the reduction: the clustering has no entity to divide by. *)
Theorem process_directory_divides_by_zero
    (list_of_entities : gset str -> list str)
    (list_of_relations : gset triple -> list triple)
    (fs : filesystem) (input_dir output_dir : str) (similarity_threshold : Q)
    (loading : list event) (graphs : list Graph) :
  list_of_entities ∅ = [] ->
  mkdir_ok fs output_dir = true ->
  load_graphs_from_directory fs input_dir = (loading, Ok graphs) ->
  graphs <> [] ->
  (forall g, g ∈ graphs -> default [] (entities g) = []) ->
  writable fs (clustered_kg output_dir) = true ->
  writable fs (clustering_details output_dir) = true ->
  let run := process_directory list_of_entities list_of_relations fs input_dir
               output_dir similarity_threshold in
  snd run = Raise ZeroDivisionError
  /\ map fst (writes (fst run)) = [clustered_kg output_dir; clustering_details output_dir].
Proof.
  intros Hlist Hmk Hload Hne Hempty Hw1 Hw2 run.
  destruct graphs as [|g0 graphs]; [done|].
  destruct (cluster_knowledge_graphs list_of_entities list_of_relations (g0 :: graphs)
              similarity_threshold) as [tc r] eqn:Hc.
  assert (Hr : exists g, r = Ok g /\ original_entities (stats g) = 0).
  { unfold cluster_knowledge_graphs in Hc.
    rewrite (union_entities_empty _ Hempty), Hlist in Hc.
    cbn [io_bind emit lift cluster_entities map enumerate for_each result_bind fst
         io_ret] in Hc.
    injection Hc as _ <-. eexists. split; [reflexivity|]. reflexivity. }
  destruct Hr as (g & -> & Hzero).
  destruct (process_directory_after_clustering list_of_entities list_of_relations
              fs input_dir output_dir similarity_threshold loading tc g0 graphs g
              Hmk Hload Hc) as (_ & _ & H3).
  destruct (H3 Hw1 Hw2) as [Hout Hwrites]. fold run in Hout, Hwrites.
  rewrite Hzero in Hout. split; [done|]. rewrite Hwrites.
  destruct (load_graphs_prints fs input_dir) as (t & gs & E & Ht).
  rewrite Hload in E. injection E as -> _. by rewrite (writes_prints _ Ht).
Qed.

Lemma process_directory_success_witness :
  let fs := one_fragment_filesystem (fragment_with_edges None) in
  mkdir_ok fs (str_of "out") = true
  /\ writable fs (clustered_kg (str_of "out")) = true
  /\ writable fs (clustering_details (str_of "out")) = true
  /\ snd (process_directory elements elements fs (str_of "in") (str_of "out")
            default_threshold) = Ok tt.
Proof.
  intros fs.
  assert (Hmk : mkdir_ok fs (str_of "out") = true) by reflexivity.
  assert (Hw1 : writable fs (clustered_kg (str_of "out")) = true) by reflexivity.
  assert (Hw2 : writable fs (clustering_details (str_of "out")) = true) by reflexivity.
  assert (Hload : load_graphs_from_directory fs (str_of "in")
                  = ([Print (LoadedGraph (str_of "in", str_of "a.json"))],
                     Ok [fragment_with_edges None])) by reflexivity.
  assert (Hne : [fragment_with_edges None] <> []) by discriminate.
  destruct (cluster_knowledge_graphs elements elements [fragment_with_edges None]
              default_threshold) as [tc [g|e]] eqn:Hc.
  - assert (Hpos : original_entities (stats g) <> 0).
    { pose proof Hc as Hc'. vm_compute in Hc'. injection Hc' as _ <-. discriminate. }
    split; [exact Hmk|]. split; [exact Hw1|]. split; [exact Hw2|].
    exact (proj1 (process_directory_success elements elements fs (str_of "in")
                    (str_of "out") default_threshold _ tc _ g
                    Hmk Hload Hne Hc Hw1 Hw2 Hpos)).
  - exfalso. vm_compute in Hc. discriminate.
Defined.

Lemma process_directory_divides_by_zero_witness :
  let fs := one_fragment_filesystem fragment_without_entities in
  elements (∅ : gset str) = []
  /\ mkdir_ok fs (str_of "out") = true
  /\ writable fs (clustered_kg (str_of "out")) = true
  /\ writable fs (clustering_details (str_of "out")) = true
  /\ snd (process_directory elements elements fs (str_of "in") (str_of "out")
            default_threshold) = Raise ZeroDivisionError.
Proof.
  intros fs.
  assert (Hlist : elements (∅ : gset str) = []) by reflexivity.
  assert (Hmk : mkdir_ok fs (str_of "out") = true) by reflexivity.
  assert (Hw1 : writable fs (clustered_kg (str_of "out")) = true) by reflexivity.
  assert (Hw2 : writable fs (clustering_details (str_of "out")) = true) by reflexivity.
  assert (Hload : load_graphs_from_directory fs (str_of "in")
                  = ([Print (LoadedGraph (str_of "in", str_of "a.json"))],
                     Ok [fragment_without_entities])) by reflexivity.
  assert (Hne : [fragment_without_entities] <> []) by discriminate.
  assert (Hempty : forall g, g ∈ [fragment_without_entities] ->
                             default [] (entities g) = []).
  { intros g Hg. apply list_elem_of_singleton in Hg. by subst g. }
  split; [exact Hlist|]. split; [exact Hmk|]. split; [exact Hw1|]. split; [exact Hw2|].
  exact (proj1 (process_directory_divides_by_zero elements elements fs (str_of "in")
                  (str_of "out") default_threshold _ _
                  Hlist Hmk Hload Hne Hempty Hw1 Hw2)).
Defined.

(** ** The clustered graph *)





Lemma sorted_set_strict (s : gset str) :
  Sorted (fun x y => str_ltb x y = true) (sorted str_ltb (elements s)).
Proof.
  apply Sorted_strict; [apply str_ltb_total| |apply sorted_Sorted, str_ltb_asym].
  rewrite sorted_perm. apply NoDup_elements.
Qed.



(** ** Chunks of a text *)

Lemma rfind_from_found (sub s : str) (k : nat) :
  (0 <= Producer.rfind_from sub s k)%Z ->
  Z.to_nat (Producer.rfind_from sub s k) <= k
  /\ Producer.found_at sub s (Z.to_nat (Producer.rfind_from sub s k)) = true.
Proof.
  induction k as [|k IH]; simpl.
  - destruct (Producer.found_at sub s 0) eqn:Hf; [|lia]. intros _. by split.
  - destruct (Producer.found_at sub s (S k)) eqn:Hf.
    + intros _. rewrite Nat2Z.id. by split.
    + intros H. destruct (IH H). split; [lia|done].
Qed.

Lemma rfind_found (s sub : str) :
  (0 <= Producer.rfind s sub)%Z ->
  Z.to_nat (Producer.rfind s sub) + length sub <= length s
  /\ Producer.found_at sub s (Z.to_nat (Producer.rfind s sub)) = true.
Proof.
  unfold Producer.rfind. destruct (length sub <=? length s) eqn:Hle; [|lia].
  apply Nat.leb_le in Hle. intros H.
  destruct (rfind_from_found _ _ _ H). split; [lia|done].
Qed.

Lemma found_at_split (sub s : str) (k : nat) :
  Producer.found_at sub s k = true ->
  s = take k s ++ sub ++ drop (k + length sub) s.
Proof.
  unfold Producer.found_at. intros H%bool_decide_eq_true.
  rewrite <- H at 1. rewrite <- drop_drop, take_drop. by rewrite take_drop.
Qed.

Lemma window_break (text : str) (chunk_size i : nat) :
  has_paragraph_break (take chunk_size (drop i text)) -> has_paragraph_break text.
Proof.
  intros (p & q & H).
  exists (take i text ++ p), (q ++ drop chunk_size (drop i text)).
  rewrite <- (take_drop i text) at 1.
  rewrite <- (take_drop chunk_size (drop i text)) at 1.
  rewrite H. by rewrite <- !app_assoc.
Qed.

Lemma cut_at_break (text : str) (chunk_size i : nat) :
  cut_at text chunk_size i = true ->
  has_paragraph_break text /\ chunk_size < length text.
Proof.
  unfold cut_at. intros [Hlp Hlt]%andb_true_iff.
  apply Z.ltb_lt in Hlp. apply Nat.ltb_lt in Hlt. split; [|lia].
  destruct (rfind_found (take chunk_size (drop i text)) Producer.paragraph_break)
    as [_ Hf]; [lia|].
  apply found_at_split in Hf. eapply window_break. eexists _, _. exact Hf.
Qed.

Lemma chunk_at_cases (text : str) (chunk_size i : nat) :
  (cut_at text chunk_size i = false
   /\ Producer.chunk_at text chunk_size i = take chunk_size (drop i text))
  \/ (cut_at text chunk_size i = true
      /\ exists lp, 0 < lp /\ lp + 2 <= length (take chunk_size (drop i text))
           /\ Producer.chunk_at text chunk_size i
              = take lp (take chunk_size (drop i text))).
Proof.
  unfold Producer.chunk_at.
  change ((0 <? Producer.rfind (take chunk_size (drop i text)) Producer.paragraph_break)%Z
          && (i + chunk_size <? length text)) with (cut_at text chunk_size i).
  destruct (cut_at text chunk_size i) eqn:Hc; [right|left; by split].
  split; [done|].
  unfold cut_at in Hc. apply andb_true_iff in Hc as [Hlp _]. apply Z.ltb_lt in Hlp.
  destruct (rfind_found (take chunk_size (drop i text)) Producer.paragraph_break)
    as [Hlen _]; [lia|].
  exists (Z.to_nat (Producer.rfind (take chunk_size (drop i text)) Producer.paragraph_break)).
  split; [lia|]. split; [exact Hlen|done].
Qed.

Lemma chunk_at_prefix (text : str) (chunk_size i : nat) :
  Producer.chunk_at text chunk_size i `prefix_of` take chunk_size (drop i text).
Proof.
  destruct (chunk_at_cases text chunk_size i) as [[_ ->]|[_ (lp & _ & _ & ->)]]; [done|].
  eexists. symmetry. apply take_drop.
Qed.

Lemma range_loop_length (count start step : nat) :
  length (Producer.range_loop count start step) = count.
Proof. revert start. induction count as [|c IH]; intros start; simpl; [done|]. by rewrite IH. Qed.

Lemma range_loop_lookup (count start step k : nat) :
  k < count -> Producer.range_loop count start step !! k = Some (start + k * step).
Proof.
  revert start k. induction count as [|c IH]; intros start k Hk; [lia|].
  destruct k as [|k]; simpl; [f_equal; lia|].
  rewrite IH by lia. f_equal. lia.
Qed.

Lemma range_count (n step : nat) :
  0 < step ->
  n <= (n + step - 1) / step * step
  /\ forall k, k < (n + step - 1) / step -> k * step < n.
Proof.
  intros Hs. pose proof (Nat.div_mod_eq (n + step - 1) step) as Hd.
  pose proof (Nat.mod_upper_bound (n + step - 1) step ltac:(lia)) as Hm.
  set (c := (n + step - 1) / step) in *. set (r := (n + step - 1) mod step) in *.
  split; [nia|]. intros k Hk. nia.
Qed.

Lemma concat_windows (text : str) (chunk_size count start : nat) :
  concat (map (fun i => take chunk_size (drop i text))
            (Producer.range_loop count start chunk_size))
  = take (count * chunk_size) (drop start text).
Proof.
  revert start. induction count as [|c IH]; intros start; simpl; [done|].
  rewrite IH. rewrite <- drop_drop. apply take_take_drop.
Qed.

Lemma concat_prefixes {A} (f g : nat -> list A) (l : list nat) :
  (forall i, i ∈ l -> f i `prefix_of` g i) ->
  length (concat (map f l)) <= length (concat (map g l))
  /\ (concat (map f l) = concat (map g l) -> forall i, i ∈ l -> f i = g i).
Proof.
  induction l as [|a l IH]; intros Hp; simpl.
  { split; [done|]. intros _ i Hi. by apply elem_of_nil in Hi. }
  destruct IH as [IHl IHe]; [intros i Hi; apply Hp; by right|].
  destruct (Hp a ltac:(by left)) as [k Hk].
  split.
  - rewrite !length_app, Hk, length_app. lia.
  - intros Heq. rewrite Hk, <- app_assoc in Heq. apply app_inv_head in Heq.
    assert (k = []) as ->.
    { apply (f_equal length) in Heq. rewrite length_app in Heq.
      destruct k; [done|simpl in Heq; lia]. }
    simpl in Heq. rewrite app_nil_r in Hk.
    intros i [->|Hi]%elem_of_cons; [done|by apply IHe].
Qed.

Lemma chunk_text_returns (text : str) (chunk_size : Z) :
  (0 < chunk_size)%Z ->
  Producer.chunk_text text chunk_size
  = Producer.Returned
      (map (Producer.chunk_at text (Z.to_nat chunk_size))
         (Producer.range_loop
            ((length text + Z.to_nat chunk_size - 1) / Z.to_nat chunk_size) 0
            (Z.to_nat chunk_size))).
Proof.
  intros H. unfold Producer.chunk_text, Producer.range_step.
  destruct (chunk_size =? 0)%Z eqn:H0; [apply Z.eqb_eq in H0; lia|].
  destruct (chunk_size <? 0)%Z eqn:H1; [apply Z.ltb_lt in H1; lia|]. done.
Qed.

Lemma chunks_lossless (text : str) (chunk_size : Z) (chunks : list str) :
  (0 < chunk_size)%Z ->
  Producer.chunk_text text chunk_size = Producer.Returned chunks ->
  concat chunks = text
  <-> forall k, cut_at text (Z.to_nat chunk_size) (k * Z.to_nat chunk_size) = false.
Proof.
  intros Hpos. rewrite chunk_text_returns by done. intros [= <-].
  set (cs := Z.to_nat chunk_size). assert (0 < cs) as Hcs by lia.
  set (count := (length text + cs - 1) / cs).
  destruct (range_count (length text) cs Hcs) as [Hcover Hin]. fold count in Hcover, Hin.
  assert (Hw : concat (map (fun i => take cs (drop i text))
                         (Producer.range_loop count 0 cs)) = text).
  { rewrite concat_windows. simpl. by apply take_ge. }
  assert (Hstarts : forall i, i ∈ Producer.range_loop count 0 cs
                              <-> exists k, k < count /\ i = k * cs).
  { intros i. rewrite list_elem_of_lookup. split.
    - intros [k Hk]. assert (k < count) as Hlt.
      { apply lookup_lt_Some in Hk. by rewrite range_loop_length in Hk. }
      rewrite range_loop_lookup in Hk by done. exists k. split; [done|]. by injection Hk as <-.
    - intros (k & Hk & ->). exists k. by rewrite range_loop_lookup. }
  destruct (concat_prefixes (Producer.chunk_at text cs) (fun i => take cs (drop i text))
              (Producer.range_loop count 0 cs)) as [_ Heq].
  { intros i _. apply chunk_at_prefix. }
  split.
  - intros Hc k. destruct (decide (k < count)) as [Hk|Hk].
    + specialize (Heq ltac:(by rewrite Hw) (k * cs)
                    ltac:(apply Hstarts; by exists k)).
      destruct (chunk_at_cases text cs (k * cs)) as [[? _]|[_ (lp & Hlp & Hlen & Hch)]];
        [done|].
      rewrite Hch in Heq. apply (f_equal length) in Heq.
      rewrite length_take in Heq. lia.
    + unfold cut_at. apply andb_false_iff. right. apply Nat.ltb_ge. nia.
  - intros Hno. rewrite <- Hw at 2. f_equal. apply map_ext_in.
    intros i Hi%list_elem_of_In. apply Hstarts in Hi as (k & _ & ->).
    destruct (chunk_at_cases text cs (k * cs)) as [[_ ?]|[Hcut _]]; [done|].
    by rewrite Hno in Hcut.
Qed.

(** X17: for a positive chunk size, [chunk_text] returns chunks that
    cover the text window by window: enough windows of [chunk_size] to reach
    the end of the text, and the chunk of the k-th window starts inside the
    text, is not empty, has at most [chunk_size] characters and is a prefix
    of the text from [k * chunk_size] on. *)
Theorem chunk_text_windows (text : str) (chunk_size : Z) :
  (0 < chunk_size)%Z ->
  exists chunks,
    Producer.chunk_text text chunk_size = Producer.Returned chunks
    /\ length text <= length chunks * Z.to_nat chunk_size
    /\ forall k chunk, chunks !! k = Some chunk ->
         k * Z.to_nat chunk_size < length text
         /\ chunk <> []
         /\ length chunk <= Z.to_nat chunk_size
         /\ chunk `prefix_of` drop (k * Z.to_nat chunk_size) text.
Proof.
  intros Hpos. eexists. split; [by apply chunk_text_returns|].
  set (cs := Z.to_nat chunk_size). assert (0 < cs) as Hcs by lia.
  set (count := (length text + cs - 1) / cs).
  destruct (range_count (length text) cs Hcs) as [Hcover Hin]. fold count in Hcover, Hin.
  rewrite length_map, range_loop_length. split; [done|].
  intros k chunk Hk. change map with (@fmap list _) in Hk.
  rewrite list_lookup_fmap in Hk.
  assert (k < count) as Hlt.
  { destruct (Producer.range_loop count 0 cs !! k) eqn:Hl; [|done].
    apply lookup_lt_Some in Hl. by rewrite range_loop_length in Hl. }
  rewrite range_loop_lookup in Hk by done. simpl in Hk. injection Hk as <-.
  specialize (Hin k Hlt). split; [done|].
  assert (Hwin : 0 < length (take cs (drop (k * cs) text))).
  { rewrite length_take, length_drop. lia. }
  assert (Hwle : length (take cs (drop (k * cs) text)) <= cs).
  { rewrite length_take. lia. }
  destruct (chunk_at_cases text cs (k * cs)) as [[_ ->]|[_ (lp & Hlp & Hlen & ->)]].
  - split; [intros Hnil; rewrite Hnil in Hwin; simpl in Hwin; lia|]. split; [done|].
    eexists. symmetry. apply take_drop.
  - split.
    { intros Hnil%(f_equal length). rewrite length_take in Hnil. simpl in Hnil. lia. }
    split; [rewrite length_take; lia|].
    etrans; [|eexists; symmetry; apply (take_drop cs)].
    eexists. symmetry. apply take_drop.
Qed.

Lemma chunk_text_windows_witness :
  (0 < 4)%Z
  /\ exists chunks,
       Producer.chunk_text (str_of "one two three") 4 = Producer.Returned chunks
       /\ length (str_of "one two three") <= length chunks * Z.to_nat 4.
Proof.
  assert (Hpos : (0 < 4)%Z) by lia.
  split; [exact Hpos|].
  destruct (chunk_text_windows (str_of "one two three") 4 Hpos) as (chunks & Hc & Hl & _).
  exists chunks. split; [exact Hc|exact Hl].
Defined.

(** X18: a text without a blank line ([\n\n]), or one that fits into a
    single chunk, is cut without loss: the chunks put together are the
    text. *)
Theorem chunk_text_lossless (text : str) (chunk_size : Z) :
  (0 < chunk_size)%Z ->
  ~ has_paragraph_break text \/ (Z.of_nat (length text) <= chunk_size)%Z ->
  exists chunks,
    Producer.chunk_text text chunk_size = Producer.Returned chunks
    /\ concat chunks = text.
Proof.
  intros Hpos Hfit. eexists. split; [by apply chunk_text_returns|].
  eapply chunks_lossless; [done|by apply chunk_text_returns|].
  intros k. destruct (cut_at text (Z.to_nat chunk_size) (k * Z.to_nat chunk_size)) eqn:Hc;
    [|done].
  apply cut_at_break in Hc as [Hb Hlt]. destruct Hfit as [Hno|Hle]; [done|lia].
Qed.

Lemma chunk_text_lossless_witness :
  (0 < 4)%Z
  /\ (~ has_paragraph_break (str_of "ab") \/ (Z.of_nat (length (str_of "ab")) <= 4)%Z)
  /\ exists chunks,
       Producer.chunk_text (str_of "ab") 4 = Producer.Returned chunks
       /\ concat chunks = str_of "ab".
Proof.
  assert (Hpos : (0 < 4)%Z) by lia.
  assert (Hfit : ~ has_paragraph_break (str_of "ab")
                 \/ (Z.of_nat (length (str_of "ab")) <= 4)%Z)
    by (right; vm_compute; discriminate).
  split; [exact Hpos|]. split; [exact Hfit|].
  exact (chunk_text_lossless (str_of "ab") 4 Hpos Hfit).
Defined.

(** X19: the chunks put together are the text exactly when no window was
    cut at a blank line.  A window that is not the last one and holds a
    blank line after its first character is cut there, and the rest of the
    window, from the blank line on, is in no chunk: the next chunk starts at
    the next window. *)
Theorem chunk_text_drops_text (text : str) (chunk_size : Z) (chunks : list str) :
  (0 < chunk_size)%Z ->
  Producer.chunk_text text chunk_size = Producer.Returned chunks ->
  (concat chunks = text
   <-> forall k, cut_at text (Z.to_nat chunk_size) (k * Z.to_nat chunk_size) = false)
  /\ length (concat chunks) <= length text.
Proof.
  intros Hpos Hc. split; [by apply chunks_lossless|].
  rewrite chunk_text_returns in Hc by done. injection Hc as <-.
  set (cs := Z.to_nat chunk_size). assert (0 < cs) as Hcs by lia.
  destruct (concat_prefixes (Producer.chunk_at text cs) (fun i => take cs (drop i text))
              (Producer.range_loop ((length text + cs - 1) / cs) 0 cs)) as [Hle _].
  { intros i _. apply chunk_at_prefix. }
  etrans; [exact Hle|]. rewrite concat_windows, length_take, length_drop. lia.
Qed.

Lemma chunk_text_drops_text_witness :
  let text := [ascii_of_N 97; ascii_of_N 10; ascii_of_N 10; ascii_of_N 98; ascii_of_N 99] in
  let chunks := [[ascii_of_N 97]; [ascii_of_N 99]] in
  (0 < 4)%Z
  /\ Producer.chunk_text text 4 = Producer.Returned chunks
  /\ length (concat chunks) <= length text
  /\ cut_at text (Z.to_nat 4) (0 * Z.to_nat 4) = true.
Proof.
  intros text chunks.
  assert (Hpos : (0 < 4)%Z) by lia.
  assert (Hc : Producer.chunk_text text 4 = Producer.Returned chunks)
    by (vm_compute; reflexivity).
  split; [exact Hpos|]. split; [exact Hc|].
  split; [exact (proj2 (chunk_text_drops_text text 4 chunks Hpos Hc))|].
  vm_compute. reflexivity.
Defined.

(** A zero chunk size is refused by [range]; a negative one gives no chunk
    at all. *)
Example chunk_text_zero_size :
  Producer.chunk_text (str_of "text") 0 = Producer.Raises Producer.ValueError
  /\ Producer.chunk_text (str_of "text") (-3) = Producer.Returned [].
Proof. split; vm_compute; reflexivity. Qed.

(** ** Aggregated graphs of the producer *)

Lemma elem_of_union_graphs {T} `{Countable T} (field : Graph -> option (list T))
    (graphs : list Graph) (all : gset T) (x : T) :
  x ∈ fold_left (fun all g => all ∪ list_to_set (default [] (field g))) graphs all
  <-> x ∈ all \/ exists g, g ∈ graphs /\ x ∈ default [] (field g).
Proof.
  revert all. induction graphs as [|g0 graphs IH]; intros all; simpl.
  - split; [by left|]. intros [?|(g & ?%elem_of_nil & _)]; done.
  - rewrite IH, elem_of_union, elem_of_list_to_set. split.
    + intros [[?|?]|(g & ? & ?)]; [by left| |].
      * right. exists g0. split; [by left|done].
      * right. exists g. split; [by right|done].
    + intros [?|(g & [->|?]%elem_of_cons & ?)]; [by left; left|by left; right|].
      right. by exists g.
Qed.

Lemma aggregate_loop_split (graphs : list Graph)
    (a : gset str) (b : gset triple) (c : gset str) :
  fold_left
    (fun '(all_entities, all_relations, all_edges) graph =>
       (all_entities ∪ list_to_set (default [] (entities graph)),
        all_relations ∪ list_to_set (default [] (relations graph)),
        all_edges ∪ list_to_set (default [] (edges graph))))
    graphs (a, b, c)
  = (fold_left (fun all g => all ∪ list_to_set (default [] (entities g))) graphs a,
     fold_left (fun all g => all ∪ list_to_set (default [] (relations g))) graphs b,
     fold_left (fun all g => all ∪ list_to_set (default [] (edges g))) graphs c).
Proof.
  revert a b c. induction graphs as [|g graphs IH]; intros a b c; simpl; [done|apply IH].
Qed.

Lemma aggregate_graphs_unions (graphs : list Graph) :
  Producer.aggregate_graphs graphs
  = {| entities := Some (sorted str_ltb (elements (union_entities graphs)));
       relations := Some (sorted triple_ltb (elements (union_relations graphs)));
       edges :=
         Some (sorted str_ltb
                 (elements
                    (fold_left (fun all g => all ∪ list_to_set (default [] (edges g)))
                       graphs (∅ : gset str)))) |}.
Proof.
  unfold Producer.aggregate_graphs, Producer.aggregate_loop.
  by rewrite aggregate_loop_split.
Qed.

Lemma sorted_triples_strict (s : gset triple) :
  Sorted (fun x y => triple_ltb x y = true) (sorted triple_ltb (elements s)).
Proof.
  apply Sorted_strict; [apply triple_ltb_total| |apply sorted_Sorted, triple_ltb_asym].
  rewrite sorted_perm. apply NoDup_elements.
Qed.

(** X20: [aggregate_graphs] returns a graph with all three keys.  Its
    entities are exactly the entities of the given graphs, its relations
    their relations and its edges their edges (a missing key counts as
    empty), each listed once in strictly ascending order. *)
Theorem aggregate_graphs_spec (graphs : list Graph) :
  exists es rs ds,
    Producer.aggregate_graphs graphs
    = {| entities := Some es; relations := Some rs; edges := Some ds |}
    /\ (forall e, e ∈ es <-> exists g, g ∈ graphs /\ e ∈ default [] (entities g))
    /\ (forall r, r ∈ rs <-> exists g, g ∈ graphs /\ r ∈ default [] (relations g))
    /\ (forall d, d ∈ ds <-> exists g, g ∈ graphs /\ d ∈ default [] (edges g))
    /\ Sorted (fun x y => str_ltb x y = true) es
    /\ Sorted (fun x y => triple_ltb x y = true) rs
    /\ Sorted (fun x y => str_ltb x y = true) ds.
Proof.
  eexists _, _, _. split; [apply aggregate_graphs_unions|].
  assert (Hin : forall {T} `{Countable T} (field : Graph -> option (list T)) lt x,
            x ∈ sorted lt (elements
                   (fold_left (fun all g => all ∪ list_to_set (default [] (field g)))
                      graphs (∅ : gset T)))
            <-> exists g, g ∈ graphs /\ x ∈ default [] (field g)).
  { intros T ? ? field lt x.
    rewrite elem_of_sorted, elem_of_elements, elem_of_union_graphs.
    split; [intros [?%not_elem_of_empty|?]; done|by right]. }
  split; [intros e; apply Hin|]. split; [intros r; apply Hin|]. split; [intros d; apply Hin|].
  split; [apply sorted_set_strict|]. split; [apply sorted_triples_strict|].
  apply sorted_set_strict.
Qed.

Lemma union_graphs_same {T} `{Countable T} (field : Graph -> option (list T))
    (graphs graphs' : list Graph) :
  (forall x, (exists g, g ∈ graphs /\ x ∈ default [] (field g))
             <-> (exists g, g ∈ graphs' /\ x ∈ default [] (field g))) ->
  fold_left (fun all g => all ∪ list_to_set (default [] (field g))) graphs (∅ : gset T)
  = fold_left (fun all g => all ∪ list_to_set (default [] (field g))) graphs' ∅.
Proof.
  intros Hsame. apply set_eq. intros x. rewrite !elem_of_union_graphs.
  split; (intros [?%not_elem_of_empty|Hx]; [done|right]); by apply Hsame.
Qed.

Lemma aggregate_graphs_same (graphs graphs' : list Graph) :
  (forall x, (exists g, g ∈ graphs /\ x ∈ default [] (entities g))
             <-> (exists g, g ∈ graphs' /\ x ∈ default [] (entities g))) ->
  (forall x, (exists g, g ∈ graphs /\ x ∈ default [] (relations g))
             <-> (exists g, g ∈ graphs' /\ x ∈ default [] (relations g))) ->
  (forall x, (exists g, g ∈ graphs /\ x ∈ default [] (edges g))
             <-> (exists g, g ∈ graphs' /\ x ∈ default [] (edges g))) ->
  Producer.aggregate_graphs graphs = Producer.aggregate_graphs graphs'.
Proof.
  intros He Hr Hd. rewrite !aggregate_graphs_unions. unfold union_entities, union_relations.
  rewrite (union_graphs_same entities graphs graphs' He).
  rewrite (union_graphs_same relations graphs graphs' Hr).
  by rewrite (union_graphs_same edges graphs graphs' Hd).
Qed.

(** X21: the aggregated graph depends on which graphs are given, not on
    their order or on how often one is given. *)
Theorem aggregate_graphs_insensitive (graphs graphs' : list Graph) :
  (forall g, g ∈ graphs <-> g ∈ graphs') ->
  Producer.aggregate_graphs graphs = Producer.aggregate_graphs graphs'.
Proof.
  intros Hsame.
  apply aggregate_graphs_same; intros x;
    (split; intros (g & Hg & Hx); exists g; (split; [by apply Hsame|done])).
Qed.

Lemma aggregate_graphs_insensitive_witness :
  let g1 := fragment_with_edges None in
  let g2 := fragment_without_entities in
  (forall g, g ∈ [g1; g2; g1] <-> g ∈ [g2; g1])
  /\ Producer.aggregate_graphs [g1; g2; g1] = Producer.aggregate_graphs [g2; g1].
Proof.
  intros g1 g2.
  assert (Hsame : forall g, g ∈ [g1; g2; g1] <-> g ∈ [g2; g1]).
  { intros g. rewrite !elem_of_cons. rewrite !elem_of_nil. tauto. }
  split; [exact Hsame|].
  exact (aggregate_graphs_insensitive [g1; g2; g1] [g2; g1] Hsame).
Defined.

Lemma aggregate_field_absorbed {T} `{Countable T} (field : Graph -> option (list T))
    (lt : T -> T -> bool) (graphs pre post : list Graph) (agg : Graph) :
  field agg
  = Some (sorted lt (elements
            (fold_left (fun all g => all ∪ list_to_set (default [] (field g)))
               graphs (∅ : gset T)))) ->
  (forall g, g ∈ graphs -> g ∈ pre ++ post) ->
  forall x,
    (exists g, g ∈ pre ++ agg :: post /\ x ∈ default [] (field g))
    <-> (exists g, g ∈ pre ++ post /\ x ∈ default [] (field g)).
Proof.
  intros Hagg Hsub x. split.
  - intros (g & Hg & Hx). rewrite elem_of_app, elem_of_cons in Hg.
    destruct Hg as [Hg|[->|Hg]].
    + exists g. split; [|done]. apply elem_of_app. by left.
    + rewrite Hagg in Hx. simpl in Hx.
      rewrite elem_of_sorted, elem_of_elements, elem_of_union_graphs in Hx.
      destruct Hx as [?%not_elem_of_empty|(g & Hg & Hx)]; [done|].
      exists g. split; [by apply Hsub|done].
    + exists g. split; [|done]. apply elem_of_app. by right.
  - intros (g & Hg & Hx). exists g. split; [|done].
    rewrite elem_of_app, elem_of_cons. rewrite elem_of_app in Hg. tauto.
Qed.

Lemma aggregate_field_alone {T} `{Countable T} (field : Graph -> option (list T))
    (lt : T -> T -> bool) (graphs : list Graph) (agg : Graph) :
  field agg
  = Some (sorted lt (elements
            (fold_left (fun all g => all ∪ list_to_set (default [] (field g)))
               graphs (∅ : gset T)))) ->
  forall x,
    (exists g, g ∈ [agg] /\ x ∈ default [] (field g))
    <-> (exists g, g ∈ graphs /\ x ∈ default [] (field g)).
Proof.
  intros Hagg x.
  assert (Hx : x ∈ default [] (field agg)
               <-> exists g, g ∈ graphs /\ x ∈ default [] (field g)).
  { rewrite Hagg. simpl. rewrite elem_of_sorted, elem_of_elements, elem_of_union_graphs.
    split; [intros [?%not_elem_of_empty|?]; done|by right]. }
  rewrite <- Hx. split.
  - by intros (g & ->%list_elem_of_singleton & ?).
  - intros ?. exists agg. split; [by left|done].
Qed.

(** X22: aggregating is idempotent, and an aggregate adds nothing to the
    graphs it was computed from: put among them, at any place, it leaves
    their aggregate as it was. *)
Theorem aggregate_graphs_idempotent (pre post : list Graph) :
  Producer.aggregate_graphs [Producer.aggregate_graphs (pre ++ post)]
  = Producer.aggregate_graphs (pre ++ post)
  /\ Producer.aggregate_graphs (pre ++ Producer.aggregate_graphs (pre ++ post) :: post)
     = Producer.aggregate_graphs (pre ++ post).
Proof.
  pose proof (aggregate_graphs_unions (pre ++ post)) as Hagg.
  split; apply aggregate_graphs_same; intros x.
  - apply (aggregate_field_alone entities str_ltb). by rewrite Hagg.
  - apply (aggregate_field_alone relations triple_ltb). by rewrite Hagg.
  - apply (aggregate_field_alone edges str_ltb). by rewrite Hagg.
  - apply (aggregate_field_absorbed entities str_ltb (pre ++ post)); [by rewrite Hagg|done].
  - apply (aggregate_field_absorbed relations triple_ltb (pre ++ post)); [by rewrite Hagg|done].
  - apply (aggregate_field_absorbed edges str_ltb (pre ++ post)); [by rewrite Hagg|done].
Qed.


Example aggregate_of_two :
  Producer.aggregate_graphs
    [ {| entities := Some (map str_of ["b"; "a"]%string);
         relations := Some [triple_of ("b", "sees", "a")%string];
         edges := None |};
      {| entities := Some (map str_of ["a"; "c"]%string);
         relations := None;
         edges := Some (map str_of ["sees"]%string) |} ]
  = {| entities := Some (map str_of ["a"; "b"; "c"]%string);
       relations := Some [triple_of ("b", "sees", "a")%string];
       edges := Some (map str_of ["sees"]%string) |}.
Proof. vm_compute. reflexivity. Qed.

(** ** The files of the producer, seen by the loader *)

Lemma startswith_app (s t p : str) :
  (forall c, head t = Some c -> c ∉ p) -> t <> [] ->
  startswith (s ++ t) p = startswith s p.
Proof.
  intros Hhead Hne. unfold startswith.
  destruct (decide (length p <= length s)) as [Hle|Hgt].
  { by rewrite take_app_le. }
  rewrite (bool_decide_eq_false_2 (take (length p) s = p)).
  2:{ intros Heq%(f_equal length). rewrite length_take in Heq. lia. }
  apply bool_decide_eq_false_2. intros Heq.
  destruct t as [|c t]; [done|].
  apply (Hhead c eq_refl). apply list_elem_of_lookup. exists (length s).
  rewrite <- Heq. rewrite lookup_take_lt by lia.
  by rewrite lookup_app_r, Nat.sub_diag.
Qed.

(** X24: the graph file that the producer writes for a source file is a
    file the loader of the Clusterer reads, unless the name of the source
    file starts with [aggregated]: then the fragment is skipped, as the
    aggregated graph of the producer always is. *)
Theorem produced_files_accepted (stem : str) :
  accepts (Producer.kg_file_name stem) = negb (startswith stem (str_of "aggregated"))
  /\ accepts Producer.aggregated_file_name = false.
Proof.
  split; [|vm_compute; reflexivity].
  unfold accepts, Producer.kg_file_name.
  rewrite startswith_app.
  2:{ intros c [= <-]. apply (bool_decide_unpack _). vm_compute. exact I. }
  2:{ done. }
  replace (endswith (stem ++ str_of "_kg.json") (str_of ".json")) with true; [done|].
  symmetry. unfold endswith. apply andb_true_iff. split.
  - apply Nat.leb_le. rewrite length_app. simpl. lia.
  - apply bool_decide_eq_true. rewrite length_app.
    replace (length stem + length (str_of "_kg.json") - length (str_of ".json"))
      with (length stem + 3) by (simpl; lia).
    by rewrite drop_app_add.
Qed.

(** ** Triples of a response *)

Lemma build_node_map_returns (nodes : list Producer.node) (node_map : gmap str str) :
  Forall complete_node nodes ->
  exists node_map', Producer.build_node_map nodes node_map = Producer.Returned node_map'.
Proof.
  intros Hc. revert node_map. induction Hc as [|n nodes [[id Hid] [label Hl]] _ IH];
    intros node_map; simpl; [by eexists|].
  rewrite Hid, Hl. simpl. apply IH.
Qed.

Lemma build_node_map_raises (nodes : list Producer.node) (node_map : gmap str str) :
  ~ Forall complete_node nodes ->
  Producer.build_node_map nodes node_map = Producer.Raises Producer.KeyError.
Proof.
  revert node_map. induction nodes as [|n nodes IH]; intros node_map Hn; simpl.
  { exfalso. apply Hn. constructor. }
  destruct (Producer.node_id n) as [id|] eqn:Hid; simpl; [|done].
  destruct (Producer.node_label n) as [label|] eqn:Hl; simpl; [|done].
  apply IH. intros Hc. apply Hn. constructor; [|done].
  split; [by rewrite Hid|by rewrite Hl].
Qed.

Lemma build_node_map_lookup (nodes : list Producer.node) (node_map node_map' : gmap str str)
    (key : str) :
  Producer.build_node_map nodes node_map = Producer.Returned node_map' ->
  (exists before n after label,
      nodes = before ++ n :: after
      /\ Producer.py_str <$> Producer.node_id n = Some key
      /\ Producer.node_label n = Some label
      /\ (forall n', n' ∈ after -> Producer.py_str <$> Producer.node_id n' <> Some key)
      /\ node_map' !! key = Some label)
  \/ ((forall n, n ∈ nodes -> Producer.py_str <$> Producer.node_id n <> Some key)
      /\ node_map' !! key = node_map !! key).
Proof.
  revert node_map. induction nodes as [|n nodes IH]; intros node_map; simpl.
  { intros [= <-]. right. split; [|done]. by intros n ?%elem_of_nil. }
  destruct (Producer.node_id n) as [id|] eqn:Hid; simpl; [|done].
  destruct (Producer.node_label n) as [label|] eqn:Hl; simpl; [|done].
  intros [(before & n0 & after & label0 & -> & Hn0 & Hl0 & Hafter & Hlook)
         |[Hno Hlook]]%IH.
  - left. exists (n :: before), n0, after, label0. by repeat split.
  - destruct (decide (Producer.py_str id = key)) as [<-|Hne].
    + left. exists [], n, nodes, label. rewrite Hid. repeat split; try done.
      by rewrite Hlook, lookup_insert_eq.
    + right. split.
      * intros n' [->|Hin]%elem_of_cons; [|by apply Hno].
        rewrite Hid. simpl. congruence.
      * by rewrite Hlook, lookup_insert_ne.
Qed.

Lemma node_map_names (nodes : list Producer.node) (node_map' : gmap str str)
    (id : Producer.scalar) :
  Producer.build_node_map nodes ∅ = Producer.Returned node_map' ->
  names nodes id
    (default (Producer.py_str id) (node_map' !! Producer.py_str id)).
Proof.
  intros [(before & n & after & label & -> & Hn & Hl & Hafter & Hlook)
         |[Hno Hlook]]%(build_node_map_lookup _ _ _ (Producer.py_str id)).
  - left. exists before, n, after. rewrite Hlook. by repeat split.
  - right. split; [done|]. by rewrite Hlook, lookup_empty.
Qed.

Lemma edge_loop_returns (node_map : gmap str str) (edges : list Producer.edge)
    (triples : list triple) :
  Forall complete_edge edges ->
  exists new,
    Producer.edge_loop node_map edges triples = Producer.Returned (triples ++ new)
    /\ Forall2
         (fun e t =>
            exists source target relation,
              Producer.edge_source e = Some source
              /\ Producer.edge_target e = Some target
              /\ Producer.edge_relation e = Some relation
              /\ t = (default (Producer.py_str source) (node_map !! Producer.py_str source),
                      relation,
                      default (Producer.py_str target) (node_map !! Producer.py_str target)))
         edges new.
Proof.
  intros Hc. revert triples.
  induction Hc as [|e edges ([s Hs] & [t Ht] & [r Hr]) _ IH]; intros triples; simpl.
  { exists []. by rewrite app_nil_r. }
  rewrite Hs, Ht, Hr. simpl.
  destruct (IH (triples ++
                [(default (Producer.py_str s) (node_map !! Producer.py_str s), r,
                  default (Producer.py_str t) (node_map !! Producer.py_str t))]))
    as (new & Hnew & Hall).
  eexists (_ :: new). split; [by rewrite Hnew, <- app_assoc|].
  constructor; [|done]. by exists s, t, r.
Qed.

Lemma edge_loop_raises (node_map : gmap str str) (edges : list Producer.edge)
    (triples : list triple) :
  ~ Forall complete_edge edges ->
  Producer.edge_loop node_map edges triples = Producer.Raises Producer.KeyError.
Proof.
  revert triples. induction edges as [|e edges IH]; intros triples Hn; simpl.
  { exfalso. apply Hn. constructor. }
  destruct (Producer.edge_source e) as [s|] eqn:Hs; simpl; [|done].
  destruct (Producer.edge_target e) as [t|] eqn:Ht; simpl; [|done].
  destruct (Producer.edge_relation e) as [r|] eqn:Hr; simpl; [|done].
  apply IH. intros Hc. apply Hn. constructor; [|done].
  split; [by rewrite Hs|]. split; [by rewrite Ht|by rewrite Hr].
Qed.

(** X25: when every node has an id and a label and every edge has a
    source, a target and a relation, [transform_to_triples] returns one
    triple for each edge, in the order of the edges: the relation of the edge
    between the labels that its source and its target stand for (the label of
    the last node whose id has the same text, or the text of the id itself
    when no node has it).  When a key is missing anywhere, also in a node
    that no edge uses, it raises [KeyError] and returns no triple. *)
Theorem transform_to_triples_spec (r : Producer.response) :
  let nodes := default [] (Producer.response_nodes r) in
  let edges := default [] (Producer.response_edges r) in
  (Forall complete_node nodes /\ Forall complete_edge edges ->
   exists triples,
     Producer.transform_to_triples r = Producer.Returned triples
     /\ Forall2
          (fun e '(source_label, relation, target_label) =>
             exists source target,
               Producer.edge_source e = Some source
               /\ Producer.edge_target e = Some target
               /\ Producer.edge_relation e = Some relation
               /\ names nodes source source_label
               /\ names nodes target target_label)
          edges triples)
  /\ (~ (Forall complete_node nodes /\ Forall complete_edge edges) ->
      Producer.transform_to_triples r = Producer.Raises Producer.KeyError).
Proof.
  intros nodes edges. unfold Producer.transform_to_triples. fold nodes edges. split.
  - intros [Hn He].
    destruct (build_node_map_returns nodes ∅ Hn) as [node_map Hm]. rewrite Hm. simpl.
    destruct (edge_loop_returns node_map edges [] He) as (triples & Ht & Hall).
    exists triples. split; [done|].
    eapply Forall2_impl; [exact Hall|].
    intros e [[sl rel] tl] (s & t & rl & Hs & Htg & Hr & [= -> -> ->]).
    exists s, t. repeat split; try done; by apply node_map_names.
  - intros Hnot. destruct (decide (Forall complete_node nodes)) as [Hn|Hn].
    + destruct (build_node_map_returns nodes ∅ Hn) as [node_map Hm]. rewrite Hm. simpl.
      apply edge_loop_raises. tauto.
    + by rewrite build_node_map_raises.
Qed.

Lemma build_node_map_text_ids (nodes : list Producer.node) (node_map : gmap str str) :
  Producer.build_node_map
    (map (fun n => {| Producer.node_id :=
                        Producer.Str ∘ Producer.py_str <$> Producer.node_id n;
                      Producer.node_label := Producer.node_label n |}) nodes) node_map
  = Producer.build_node_map nodes node_map.
Proof.
  revert node_map. induction nodes as [|n nodes IH]; intros node_map; simpl; [done|].
  destruct (Producer.node_id n) as [id|]; simpl; [|done].
  destruct (Producer.node_label n) as [label|]; simpl; [|done].
  apply IH.
Qed.

Lemma edge_loop_text_ids (node_map : gmap str str) (edges : list Producer.edge)
    (triples : list triple) :
  Producer.edge_loop node_map
    (map (fun e =>
            {| Producer.edge_source :=
                 Producer.Str ∘ Producer.py_str <$> Producer.edge_source e;
               Producer.edge_target :=
                 Producer.Str ∘ Producer.py_str <$> Producer.edge_target e;
               Producer.edge_relation := Producer.edge_relation e |}) edges) triples
  = Producer.edge_loop node_map edges triples.
Proof.
  revert triples. induction edges as [|e edges IH]; intros triples; simpl; [done|].
  destruct (Producer.edge_source e) as [s|]; simpl; [|done].
  destruct (Producer.edge_target e) as [t|]; simpl; [|done].
  destruct (Producer.edge_relation e) as [r|]; simpl; [|done].
  apply IH.
Qed.

(** X26: ids are compared by their text.  Replacing every id of a
    response, in the nodes and in the edges, by the string that [str] gives
    for it changes nothing in the result: the number 1 and the string "1"
    are the same node. *)
Theorem transform_to_triples_text_ids (r : Producer.response) :
  Producer.transform_to_triples (with_text_ids r) = Producer.transform_to_triples r.
Proof.
  unfold Producer.transform_to_triples, with_text_ids. simpl.
  assert (Hn : default [] (map (fun n =>
                 {| Producer.node_id :=
                      Producer.Str ∘ Producer.py_str <$> Producer.node_id n;
                    Producer.node_label := Producer.node_label n |})
               <$> Producer.response_nodes r)
               = map (fun n =>
                 {| Producer.node_id :=
                      Producer.Str ∘ Producer.py_str <$> Producer.node_id n;
                    Producer.node_label := Producer.node_label n |})
                   (default [] (Producer.response_nodes r)))
    by (by destruct (Producer.response_nodes r)).
  assert (He : default [] (map (fun e =>
                 {| Producer.edge_source :=
                      Producer.Str ∘ Producer.py_str <$> Producer.edge_source e;
                    Producer.edge_target :=
                      Producer.Str ∘ Producer.py_str <$> Producer.edge_target e;
                    Producer.edge_relation := Producer.edge_relation e |})
               <$> Producer.response_edges r)
               = map (fun e =>
                 {| Producer.edge_source :=
                      Producer.Str ∘ Producer.py_str <$> Producer.edge_source e;
                    Producer.edge_target :=
                      Producer.Str ∘ Producer.py_str <$> Producer.edge_target e;
                    Producer.edge_relation := Producer.edge_relation e |})
                   (default [] (Producer.response_edges r)))
    by (by destruct (Producer.response_edges r)).
  rewrite Hn, He, build_node_map_text_ids.
  destruct (Producer.build_node_map _ _); simpl; [|done].
  apply edge_loop_text_ids.
Qed.

(** A number and a string with the same text name the same node; an edge
    to an id that no node has keeps the text of the id. *)
Example transform_to_triples_example :
  Producer.transform_to_triples
    {| Producer.response_nodes :=
         Some [ {| Producer.node_id := Some (Producer.Int 1);
                   Producer.node_label := Some (str_of "Dog") |};
                {| Producer.node_id := Some (Producer.Str (str_of "2"));
                   Producer.node_label := Some (str_of "Cat") |} ];
       Producer.response_edges :=
         Some [ {| Producer.edge_source := Some (Producer.Str (str_of "1"));
                   Producer.edge_target := Some (Producer.Int 2);
                   Producer.edge_relation := Some (str_of "chases") |};
                {| Producer.edge_source := Some (Producer.Int 2);
                   Producer.edge_target := Some (Producer.Int (-7));
                   Producer.edge_relation := Some (str_of "eats") |} ] |}
  = Producer.Returned
      [ triple_of ("Dog", "chases", "Cat")%string;
        triple_of ("Cat", "eats", "-7")%string ].
Proof. vm_compute. reflexivity. Qed.

Example transform_to_triples_missing_label :
  Producer.transform_to_triples
    {| Producer.response_nodes :=
         Some [ {| Producer.node_id := Some (Producer.Int 1);
                   Producer.node_label := None |} ];
       Producer.response_edges := Some [] |}
  = Producer.Raises Producer.KeyError.
Proof. vm_compute. reflexivity. Qed.

(** ** The text given to the JSON parser *)

Lemma find_index_found (sub s : str) (k : nat) :
  Producer.find_index sub s = Some k -> take (length sub) (drop k s) = sub.
Proof.
  revert k. induction s as [|c s IH]; intros k; simpl.
  - unfold startswith. case_bool_decide as Hp; [|done]. by intros [= <-].
  - unfold startswith. case_bool_decide as Hp; [by intros [= <-]|].
    destruct (Producer.find_index sub s) as [k'|] eqn:Hk; [|done].
    simpl. intros [= <-]. simpl. by apply IH.
Qed.

Lemma found_lookup (c : ascii) (s : str) (k : nat) :
  take (length [c]) (drop k s) = [c] -> s !! k = Some c.
Proof.
  simpl. intros H. rewrite <- (Nat.add_0_r k), <- lookup_drop.
  destruct (drop k s) as [|d l]; [done|]. simpl in H. by injection H as ->.
Qed.

Lemma split_rounds_head (rounds : nat) (s sep : str) :
  exists h t, Producer.split_rounds rounds s sep = h :: t.
Proof.
  destruct rounds as [|r]; simpl; [by eexists _, _|].
  destruct (Producer.find_index sep s); by eexists _, _.
Qed.

Lemma split_sep_first (s sep : str) : is_Some (Producer.split_sep s sep !! 0).
Proof.
  unfold Producer.split_sep.
  destruct (split_rounds_head (length s) s sep) as (h & t & ->). by eexists.
Qed.

Lemma split_sep_second (s sep : str) :
  sep <> [] -> Producer.contains s sep = true -> is_Some (Producer.split_sep s sep !! 1).
Proof.
  intros Hsep Hc. unfold Producer.contains in Hc. apply bool_decide_eq_true in Hc as [k Hk].
  unfold Producer.split_sep. destruct s as [|c s].
  { apply find_index_found in Hk. destruct sep; [done|]. by destruct k. }
  simpl length. cbn [Producer.split_rounds]. rewrite Hk.
  destruct (split_rounds_head (length s) (drop (k + length sep) (c :: s)) sep)
    as (h & t & ->).
  by eexists.
Qed.

Lemma rfind_from_lower (sub s : str) (k : nat) : (-1 <= Producer.rfind_from sub s k)%Z.
Proof.
  induction k as [|k IH]; simpl.
  - destruct (Producer.found_at sub s 0); lia.
  - destruct (Producer.found_at sub s (S k)); lia.
Qed.

Lemma rfind_lower (s sub : str) : (-1 <= Producer.rfind s sub)%Z.
Proof.
  unfold Producer.rfind. destruct (length sub <=? length s); [|lia].
  apply rfind_from_lower.
Qed.

Lemma slice_shape (t : str) :
  let c := Producer.slice t (Producer.find t (str_of "{"))
             (Producer.rfind t (str_of "}") + 1) in
  c = [] \/ c = str_of "}"
  \/ (head c = Some (ascii_of_N 123) /\ last c = Some (ascii_of_N 125)).
Proof.
  intros c. subst c. unfold Producer.slice.
  pose proof (rfind_lower t (str_of "}")) as Hlow.
  assert (Hr : Producer.rfind t (str_of "}") = (-1)%Z
               \/ exists r, Producer.rfind t (str_of "}") = Z.of_nat r
                            /\ r < length t /\ t !! r = Some (ascii_of_N 125)).
  { destruct (decide (Producer.rfind t (str_of "}") = (-1)%Z)) as [|Hne]; [by left|right].
    destruct (rfind_found t (str_of "}")) as [Hlen Hf]; [lia|].
    exists (Z.to_nat (Producer.rfind t (str_of "}"))). split; [lia|].
    change (length (str_of "}")) with 1 in Hlen. split; [lia|].
    unfold Producer.found_at in Hf. apply bool_decide_eq_true in Hf.
    by apply found_lookup in Hf. }
  set (n := length t) in *.
  destruct Hr as [Hr|(r & Hr & Hrn & Hlr)]; rewrite Hr.
  { left. replace (Producer.clamp n (-1 + 1)) with 0 by done. done. }
  replace (Producer.clamp n (Z.of_nat r + 1)) with (S r).
  2:{ unfold Producer.clamp. destruct (Z.of_nat r + 1 <? 0)%Z eqn:E;
        [apply Z.ltb_lt in E; lia|]. lia. }
  unfold Producer.find.
  destruct (Producer.find_index (str_of "{") t) as [k|] eqn:Hk.
  - apply find_index_found in Hk. apply found_lookup in Hk.
    assert (k < n) as Hkn by (by apply lookup_lt_Some in Hk).
    replace (Producer.clamp n (Z.of_nat k)) with k.
    2:{ unfold Producer.clamp. destruct (Z.of_nat k <? 0)%Z eqn:E;
          [apply Z.ltb_lt in E; lia|]. lia. }
    destruct (decide (S r <= k)) as [Hle|Hgt].
    { left. replace (S r - k) with 0 by lia. done. }
    right. right.
    assert (Hlen : length (take (S r - k) (drop k t)) = S r - k).
    { rewrite length_take, length_drop. fold n. lia. }
    split.
    + rewrite head_lookup, lookup_take_lt by lia.
      by rewrite lookup_drop, Nat.add_0_r.
    + rewrite last_lookup, Hlen, lookup_take_lt by lia.
      rewrite lookup_drop. by replace (k + pred (S r - k)) with r by lia.
  - replace (Producer.clamp n (-1)) with (n - 1).
    2:{ unfold Producer.clamp. simpl. lia. }
    destruct (decide (r = n - 1)) as [->|Hne].
    + right. left. replace (S (n - 1) - (n - 1)) with 1 by lia.
      rewrite <- (Nat.add_0_r (n - 1)), <- lookup_drop in Hlr.
      assert (length (drop (n - 1) t) = 1) as Hl by (rewrite length_drop; fold n; lia).
      destruct (drop (n - 1) t) as [|d [|d' l]]; [done| |simpl in Hl; lia].
      simpl in Hlr. by injection Hlr as ->.
    + left. replace (S r - (n - 1)) with 0 by lia. done.
Qed.

(** X27: [extract_json] always reaches the parser, and the text it hands
    to it is empty, or the single character [}], or a text that begins with
    an opening brace and ends with a closing brace: whatever the reply is,
    the parser is never given a text that begins with a bracket. *)
Theorem extract_json_text (text : str) :
  exists c,
    Producer.json_text text = Some c
    /\ (c = [] \/ c = str_of "}"
        \/ (head c = Some (ascii_of_N 123) /\ last c = Some (ascii_of_N 125))).
Proof.
  unfold Producer.json_text.
  destruct (Producer.contains text (str_of "```json")) eqn:Hc.
  - destruct (split_sep_second text (str_of "```json") ltac:(done) Hc) as [part Hp].
    destruct (split_sep_first part (str_of "```")) as [t Ht].
    rewrite Hp. cbn [mbind option_bind]. rewrite Ht. cbn [mbind option_bind].
    eexists. split; [done|]. apply slice_shape.
  - cbn [mbind option_bind]. eexists. split; [done|]. apply slice_shape.
Qed.

Example extract_json_text_of_a_list :
  Producer.json_text (str_of "```json [{a}, {b}] ```") = Some (str_of "{a}, {b}").
Proof. vm_compute. reflexivity. Qed.

(** ** Replies of the language model, and the refinement of a graph *)

Section ProducerModel.
Context (loads : str -> option Producer.json).
Context (chat : nat -> Producer.prompt -> Producer.chat_result).

Lemma safe_generate_loop_spec (remaining attempts calls : nat) (p : Producer.prompt) :
  let '(calls', log, result) :=
    Producer.safe_generate_loop loads chat remaining attempts calls p in
  calls <= calls' <= calls + remaining
  /\ (0 < remaining -> calls < calls')
  /\ (forall k, calls <= k -> S k < calls' -> chat k p = Producer.RateLimited)
  /\ (calls' = calls -> result = None)
  /\ (calls < calls' ->
      match chat (calls' - 1) p with
      | Producer.Response content => result = reply_of loads content
      | Producer.RateLimited => calls' = calls + remaining /\ result = None
      | Producer.Failed => result = None
      end).
Proof.
  revert attempts calls. induction remaining as [|r IH]; intros attempts calls; simpl.
  { repeat split; try lia; try done. }
  destruct (chat calls p) as [content| |] eqn:Hchat.
  - unfold Producer.extract_json.
    assert (Hlast : forall result,
              result = reply_of loads content ->
              calls < S calls ->
              match chat (S calls - 1) p with
              | Producer.Response content => result = reply_of loads content
              | Producer.RateLimited => S calls = calls + S r /\ result = None
              | Producer.Failed => result = None
              end).
    { intros result -> _. replace (S calls - 1) with calls by lia. by rewrite Hchat. }
    unfold reply_of in Hlast.
    destruct (Producer.json_text content ≫= loads) as [v|]; [destruct (Producer.truthy v)|];
      (split; [lia|]; split; [lia|]; split; [intros; lia|]; split; [intros; lia|]);
      by apply Hlast.
  - specialize (IH (S attempts) (S calls)).
    destruct (Producer.safe_generate_loop loads chat r (S attempts) (S calls) p)
      as [[calls' log] result].
    destruct IH as (Hb & Hpos & Hlim & Hnone & Hlast).
    split; [lia|]. split; [lia|]. split.
    { intros k Hk Hk'. destruct (decide (k = calls)) as [->|Hne]; [done|].
      apply Hlim; lia. }
    split; [intros; lia|]. intros _.
    destruct (decide (calls' = S calls)) as [Heq|Hne].
    + rewrite Heq. replace (S calls - 1) with calls by lia. rewrite Hchat.
      split; [|by apply Hnone]. destruct r; [lia|]. specialize (Hpos ltac:(lia)). lia.
    + specialize (Hlast ltac:(lia)).
      destruct (chat (calls' - 1) p); [done| |done].
      destruct Hlast as [-> ->]. split; [lia|done].
  - split; [lia|]. split; [lia|]. split; [intros; lia|]. split; [intros; lia|].
    intros _. replace (S calls - 1) with calls by lia. by rewrite Hchat.
Qed.

(** X28: [safe_generate] calls the model at least once and at most five
    times.  Every call but the last one was turned down by the rate limit,
    and the last call decides: a response gives the parsed value when the
    parser accepts the extracted text and the value is truthy, and [None]
    otherwise; an error gives [None]; a fifth refusal by the rate limit gives
    [None], and there is no sixth call. *)
Theorem safe_generate_spec (calls : nat) (p : Producer.prompt) :
  let '(calls', log, result) := Producer.safe_generate loads chat calls p in
  calls < calls' <= calls + 5
  /\ (forall k, calls <= k -> S k < calls' -> chat k p = Producer.RateLimited)
  /\ match chat (calls' - 1) p with
     | Producer.Response content => result = reply_of loads content
     | Producer.RateLimited => calls' = calls + 5 /\ result = None
     | Producer.Failed => result = None
     end.
Proof.
  unfold Producer.safe_generate.
  pose proof (safe_generate_loop_spec 5 0 calls p) as Hs.
  destruct (Producer.safe_generate_loop loads chat 5 0 calls p) as [[calls' log] result].
  destruct Hs as (Hb & Hpos & Hlim & _ & Hlast).
  specialize (Hpos ltac:(lia)). split; [lia|]. split; [done|]. by apply Hlast.
Qed.

Lemma add_edges_returns (items : list Producer.suggestion) (rs rs' : list triple)
    (log : list Producer.action) :
  Producer.add_edges items rs = (log, Producer.Returned rs') ->
  exists added,
    rs' = rs ++ added
    /\ log = map Producer.AddedRelation added
    /\ NoDup added
    /\ (forall t, t ∈ added -> t ∉ rs)
    /\ (forall s r tg, (s, r, tg) ∈ added ->
          Producer.Suggestion (Some s) (Some r) (Some tg) ∈ items)
    /\ (forall s r tg, Producer.Suggestion (Some s) (Some r) (Some tg) ∈ items ->
          (s, r, tg) ∈ rs').
Proof.
  revert rs rs' log. induction items as [|item items IH]; intros rs rs' log; simpl.
  { intros [= <- <-]. exists []. rewrite app_nil_r. repeat split; try done.
    - constructor.
    - by intros t ?%elem_of_nil.
    - by intros s r tg ?%elem_of_nil.
    - by intros s r tg ?%elem_of_nil. }
  assert (Hskip : forall item,
            (forall s r tg, item <> Producer.Suggestion (Some s) (Some r) (Some tg)) ->
            Producer.add_edges items rs = (log, Producer.Returned rs') ->
            exists added,
              rs' = rs ++ added
              /\ log = map Producer.AddedRelation added
              /\ NoDup added
              /\ (forall t, t ∈ added -> t ∉ rs)
              /\ (forall s r tg, (s, r, tg) ∈ added ->
                    Producer.Suggestion (Some s) (Some r) (Some tg) ∈ item :: items)
              /\ (forall s r tg,
                    Producer.Suggestion (Some s) (Some r) (Some tg) ∈ item :: items ->
                    (s, r, tg) ∈ rs')).
  { intros item0 Hitem (added & -> & -> & Hnd & Hdis & Hfrom & Hall)%IH.
    exists added. repeat split; try done.
    - intros s r tg Hin. right. by apply Hfrom.
    - intros s r tg [Heq|Hin]%elem_of_cons; [by destruct (Hitem s r tg)|by apply Hall]. }
  destruct item as [[s|] [r|] [tg|]|]; try (by apply Hskip); try done.
  clear Hskip. case_bool_decide as Hin.
  - intros (added & -> & -> & Hnd & Hdis & Hfrom & Hall)%IH.
    exists added.
    split; [done|]. split; [done|]. split; [done|]. split; [done|]. split.
    + intros s' r' tg' Hin'. right. by apply Hfrom.
    + intros s' r' tg' [[= -> -> ->]|Hin']%elem_of_cons; [|by apply Hall].
      apply elem_of_app. by left.
  - destruct (Producer.add_edges items (rs ++ [(s, r, tg)])) as [log0 result] eqn:Hrest.
    intros [= <- ->].
    apply IH in Hrest as (added & -> & -> & Hnd & Hdis & Hfrom & Hall).
    exists ((s, r, tg) :: added).
    split; [by rewrite <- app_assoc|]. split; [done|]. split.
    { constructor; [|done]. intros Hadd. apply (Hdis _ Hadd).
      apply elem_of_app. right. by left. }
    split.
    { intros t [->|Ht]%elem_of_cons; [done|].
      intros Hrs. apply (Hdis _ Ht). apply elem_of_app. by left. }
    split.
    + intros s' r' tg' [[= -> -> ->]|Hin']%elem_of_cons; [by left|]. right. by apply Hfrom.
    + intros s' r' tg' [[= -> -> ->]|Hin']%elem_of_cons; [|by apply Hall].
      rewrite <- app_assoc. apply elem_of_app. right. by left.
Qed.

Lemma safe_generate_calls (calls : nat) (p : Producer.prompt) :
  calls <= (Producer.safe_generate loads chat calls p).1.1 <= calls + 5.
Proof.
  pose proof (safe_generate_spec calls p) as Hs.
  destruct (Producer.safe_generate loads chat calls p) as [[calls' log] result]. simpl.
  destruct Hs as (Hb & _). lia.
Qed.

Lemma safe_generate_loop_log (remaining attempts calls : nat) (p : Producer.prompt)
    (t : triple) :
  Producer.AddedRelation t
  ∉ (Producer.safe_generate_loop loads chat remaining attempts calls p).1.2.
Proof.
  revert attempts calls. induction remaining as [|r IH]; intros attempts calls; simpl.
  { by intros [=]%list_elem_of_singleton. }
  destruct (chat calls p) as [content| |].
  - unfold Producer.extract_json.
    destruct (Producer.json_text content ≫= loads) as [v|]; [destruct (Producer.truthy v)|];
      simpl; rewrite ?elem_of_cons, ?elem_of_app, ?elem_of_cons, ?elem_of_nil;
      intros H; decompose [or] H; done.
  - specialize (IH (S attempts) (S calls)).
    destruct (Producer.safe_generate_loop loads chat r (S attempts) (S calls) p)
      as [[calls' log] result].
    simpl in *. rewrite !elem_of_cons. intros [?|[?|?]]; done.
  - simpl. by intros [=]%list_elem_of_singleton.
Qed.

Lemma complete_graph_extends (calls calls' : nat) (graph graph' : Graph)
    (log : list Producer.action) :
  Producer.complete_graph loads chat calls graph = (calls', log, Producer.Returned graph') ->
  entities graph' = entities graph
  /\ edges graph' = edges graph
  /\ calls <= calls' <= calls + 5
  /\ exists rs added,
       relations graph = Some rs
       /\ relations graph' = Some (rs ++ added)
       /\ NoDup added
       /\ (forall t, t ∈ added -> t ∉ rs)
       /\ (forall t, t ∈ added <-> Producer.AddedRelation t ∈ log).
Proof.
  unfold Producer.complete_graph.
  destruct (entities graph) as [es|] eqn:He; [|by destruct (relations graph)].
  destruct (relations graph) as [rs|] eqn:Hr; [|done].
  pose proof (safe_generate_calls calls
                (Producer.CompletePrompt (take 50 es) (take 5 rs))) as Hcalls.
  pose proof (fun t => safe_generate_loop_log 5 0 calls
                (Producer.CompletePrompt (take 50 es) (take 5 rs)) t) as Hlog.
  fold (Producer.safe_generate loads chat calls
          (Producer.CompletePrompt (take 50 es) (take 5 rs))) in Hlog.
  destruct (Producer.safe_generate loads chat calls
              (Producer.CompletePrompt (take 50 es) (take 5 rs)))
    as [[calls0 log0] new_edges].
  simpl in Hcalls, Hlog.
  assert (Hsame : (calls0, log0, Producer.Returned graph)
                  = (calls', log, Producer.Returned graph') ->
                  entities graph' = Some es
                  /\ edges graph' = edges graph
                  /\ calls <= calls' <= calls + 5
                  /\ exists rs0 added,
                       Some rs = Some rs0
                       /\ relations graph' = Some (rs0 ++ added)
                       /\ NoDup added
                       /\ (forall t, t ∈ added -> t ∉ rs0)
                       /\ (forall t, t ∈ added <-> Producer.AddedRelation t ∈ log)).
  { intros [= <- <- <-]. split; [done|]. split; [done|]. split; [done|].
    exists rs, []. rewrite app_nil_r. split; [done|]. split; [done|].
    split; [constructor|]. split; [by intros t ?%elem_of_nil|].
    intros t. split; [by intros ?%elem_of_nil|]. intros Hin. by destruct (Hlog t). }
  destruct new_edges as [[items|truth]|]; try exact Hsame.
  destruct (Producer.truthy (Producer.JList items)); [|exact Hsame].
  clear Hsame.
  destruct (Producer.add_edges items rs) as [added_log [rs'|e]] eqn:Hadd; [|done].
  intros [= <- <- <-]. simpl.
  apply add_edges_returns in Hadd as (added & -> & -> & Hnd & Hdis & _ & _).
  split; [done|]. split; [done|]. split; [done|].
  exists rs, added. split; [done|]. split; [done|]. split; [done|]. split; [done|].
  intros t. rewrite elem_of_app. split.
  - intros Hin. right. change map with (@fmap list _). by apply list_elem_of_fmap_2.
  - intros [Hin|Hin]; [by destruct (Hlog t)|].
    change map with (@fmap list _) in Hin.
    by apply list_elem_of_fmap in Hin as (t' & [= ->] & Hin).
Qed.

Lemma refine_loop_extends (remaining iteration calls calls' : nat) (graph graph' : Graph)
    (rs : list triple) (log : list Producer.action) :
  relations graph = Some rs ->
  Producer.refine_loop loads chat remaining iteration calls graph
  = (calls', log, Producer.Returned graph') ->
  entities graph' = entities graph
  /\ edges graph' = edges graph
  /\ calls <= calls' <= calls + 5 * remaining
  /\ exists added,
       relations graph' = Some (rs ++ added)
       /\ NoDup added
       /\ (forall t, t ∈ added -> t ∉ rs)
       /\ (forall t, t ∈ added <-> Producer.AddedRelation t ∈ log).
Proof.
  revert iteration calls calls' graph graph' rs log.
  induction remaining as [|r IH]; intros iteration calls calls' graph graph' rs log Hrs;
    simpl.
  { intros [= <- <- <-]. split; [done|]. split; [done|]. split; [lia|].
    exists []. rewrite app_nil_r. split; [done|]. split; [constructor|].
    split; [by intros t ?%elem_of_nil|]. intros t. by rewrite !elem_of_nil. }
  rewrite Hrs.
  destruct (Producer.complete_graph loads chat calls graph) as [[calls1 log1] [graph1|e]]
    eqn:Hc; [|done].
  apply complete_graph_extends in Hc
    as (He1 & Hd1 & Hcalls1 & rs0 & added1 & Hrs0 & Hrs1 & Hnd1 & Hdis1 & Hlog1).
  rewrite Hrs in Hrs0. injection Hrs0 as <-. rewrite Hrs1.
  destruct (length (rs ++ added1) =? length rs) eqn:Hlen.
  - intros [= <- <- <-]. split; [done|]. split; [done|]. split; [lia|].
    exists added1. split; [done|]. split; [done|]. split; [done|].
    intros t. rewrite elem_of_app, Hlog1. split; [by left|].
    by intros [?|[=]%list_elem_of_singleton].
  - destruct (Producer.refine_loop loads chat r (S iteration) calls1 graph1)
      as [[calls2 log2] result] eqn:Hrest.
    intros [= <- <- ->].
    apply (IH _ _ _ _ _ _ _ Hrs1) in Hrest
      as (He2 & Hd2 & Hcalls2 & added2 & Hrs2 & Hnd2 & Hdis2 & Hlog2).
    split; [congruence|]. split; [congruence|]. split; [lia|].
    exists (added1 ++ added2). split; [by rewrite app_assoc|].
    split.
    { apply NoDup_app. split; [done|]. split; [|done].
      intros t H1 H2. apply (Hdis2 _ H2). apply elem_of_app. by right. }
    split.
    { intros t [H1|H2]%elem_of_app; [by apply Hdis1|].
      intros Hin. apply (Hdis2 _ H2). apply elem_of_app. by left. }
    intros t. rewrite !elem_of_app, Hlog1, Hlog2. split.
    + intros [?|?]; [by left; left|by right].
    + intros [[?|[=]%list_elem_of_singleton]|?]; [by left|by right].
Qed.

(** X29: when [refine_knowledge_graph] returns, it has added relations
    and changed nothing else.  The relations it was given come first, in
    their order; the added ones are pairwise different, none of them was
    there before, and each one was reported; the entities and the edges are
    as they were, also when an added relation names an entity or a predicate
    that is not among them.  The model was called at most five times for
    each iteration. *)
Theorem refine_knowledge_graph_extends (calls calls' : nat) (graph graph' : Graph)
    (max_iterations : Z) (rs : list triple) (log : list Producer.action) :
  relations graph = Some rs ->
  Producer.refine_knowledge_graph loads chat calls graph max_iterations
  = (calls', log, Producer.Returned graph') ->
  entities graph' = entities graph
  /\ edges graph' = edges graph
  /\ calls <= calls' <= calls + 5 * Z.to_nat max_iterations
  /\ exists added,
       relations graph' = Some (rs ++ added)
       /\ NoDup added
       /\ (forall t, t ∈ added -> t ∉ rs)
       /\ (forall t, t ∈ added <-> Producer.AddedRelation t ∈ log).
Proof. apply refine_loop_extends. Qed.

Lemma reply_not_list (content : str) (items : list Producer.suggestion) :
  lists_begin_with_bracket loads ->
  reply_of loads content <> Some (Producer.JList items).
Proof.
  intros Hloads. unfold reply_of.
  destruct (extract_json_text content) as (c & -> & Hshape). simpl.
  destruct (loads c) as [v|] eqn:Hv; [|done].
  destruct (Producer.truthy v); [|done]. intros [= ->].
  apply Hloads in Hv.
  destruct Hshape as [->|[->|[Hh _]]]; [done|by vm_compute in Hv|].
  destruct c as [|a c]; [done|]. simpl in Hh. injection Hh as ->.
  by vm_compute in Hv.
Qed.

Lemma safe_generate_not_list (calls : nat) (p : Producer.prompt)
    (items : list Producer.suggestion) :
  lists_begin_with_bracket loads ->
  (Producer.safe_generate loads chat calls p).2 <> Some (Producer.JList items).
Proof.
  intros Hloads. pose proof (safe_generate_spec calls p) as Hs.
  destruct (Producer.safe_generate loads chat calls p) as [[calls' log] result]. simpl.
  destruct Hs as (_ & _ & Hlast).
  destruct (chat (calls' - 1) p) as [content| |].
  - rewrite Hlast. by apply reply_not_list.
  - by destruct Hlast as [_ ->].
  - by rewrite Hlast.
Qed.

(** X30: with a parser that returns a list only for a text that begins
    with a bracket, as a parser of JSON does, the refinement never adds a
    relation.  [extract_json] cuts every reply down to the text between the
    first opening brace and the last closing brace, so that no reply of the
    model reaches [complete_graph] as a list: whatever the model answers,
    [refine_knowledge_graph] returns the graph it was given after one
    iteration and at most five calls. *)
Theorem refinement_adds_nothing (calls : nat) (graph : Graph) (max_iterations : Z)
    (rs : list triple) :
  lists_begin_with_bracket loads ->
  is_Some (entities graph) ->
  relations graph = Some rs ->
  (0 < max_iterations)%Z ->
  exists calls' log,
    Producer.refine_knowledge_graph loads chat calls graph max_iterations
    = (calls', log ++ [Producer.Iteration 1 (length rs) (length rs)],
       Producer.Returned graph)
    /\ calls < calls' <= calls + 5
    /\ forall t, Producer.AddedRelation t ∉ log.
Proof.
  intros Hloads [es He] Hrs Hpos. unfold Producer.refine_knowledge_graph.
  destruct (Z.to_nat max_iterations) as [|r] eqn:Hr; [lia|].
  cbn [Producer.refine_loop]. rewrite Hrs. unfold Producer.complete_graph.
  rewrite He, Hrs.
  pose proof (safe_generate_spec calls
                (Producer.CompletePrompt (take 50 es) (take 5 rs))) as Hs.
  pose proof (fun items => safe_generate_not_list calls
                (Producer.CompletePrompt (take 50 es) (take 5 rs)) items Hloads) as Hnl.
  pose proof (fun t => safe_generate_loop_log 5 0 calls
                (Producer.CompletePrompt (take 50 es) (take 5 rs)) t) as Hlog.
  fold (Producer.safe_generate loads chat calls
          (Producer.CompletePrompt (take 50 es) (take 5 rs))) in Hlog.
  destruct (Producer.safe_generate loads chat calls
              (Producer.CompletePrompt (take 50 es) (take 5 rs)))
    as [[calls' log] new_edges].
  simpl in Hnl, Hlog. destruct Hs as (Hcalls & _).
  exists calls', log.
  assert (Hdone : (let '(calls1, log1, result) :=
                     (calls', log, Producer.Returned graph) in
                   match result with
                   | Producer.Returned graph' =>
                       match relations graph' with
                       | Some rs' =>
                           if length rs' =? length rs
                           then (calls1,
                                 log1 ++ [Producer.Iteration 1 (length rs) (length rs')],
                                 Producer.Returned graph')
                           else
                             let '(calls'', log', result) :=
                               Producer.refine_loop loads chat r 1 calls1 graph' in
                             (calls'',
                              (log1 ++ [Producer.Iteration 1 (length rs) (length rs')])
                              ++ log', result)
                       | None => (calls1, log1, Producer.Raises Producer.KeyError)
                       end
                   | Producer.Raises e => (calls1, log1, Producer.Raises e)
                   end)
                  = (calls', log ++ [Producer.Iteration 1 (length rs) (length rs)],
                     Producer.Returned graph)).
  { cbn. by rewrite Hrs, Nat.eqb_refl. }
  split; [|done].
  destruct new_edges as [[items|truth]|]; try exact Hdone.
  by destruct (Hnl items).
Qed.

End ProducerModel.

Lemma refine_knowledge_graph_extends_witness :
  relations graph_to_complete = Some [triple_of ("b", "sees", "a")%string]
  /\ Producer.refine_knowledge_graph one_suggestion always_responds 0 graph_to_complete 2
     = (2,
        [Producer.DebugResponse [];
         Producer.AddedRelation (triple_of ("a", "sees", "b")%string);
         Producer.Iteration 1 1 2;
         Producer.DebugResponse [];
         Producer.Iteration 2 2 2],
        Producer.Returned
          {| entities := Some (map str_of ["a"; "b"]%string);
             relations := Some [triple_of ("b", "sees", "a")%string;
                                triple_of ("a", "sees", "b")%string];
             edges := Some (map str_of ["sees"]%string) |})
  /\ 0 <= 2 <= 0 + 5 * Z.to_nat 2.
Proof.
  assert (Hrs : relations graph_to_complete = Some [triple_of ("b", "sees", "a")%string])
    by reflexivity.
  assert (Hrun : Producer.refine_knowledge_graph one_suggestion always_responds 0
                   graph_to_complete 2
                 = (2,
                    [Producer.DebugResponse [];
                     Producer.AddedRelation (triple_of ("a", "sees", "b")%string);
                     Producer.Iteration 1 1 2;
                     Producer.DebugResponse [];
                     Producer.Iteration 2 2 2],
                    Producer.Returned
                      {| entities := Some (map str_of ["a"; "b"]%string);
                         relations := Some [triple_of ("b", "sees", "a")%string;
                                            triple_of ("a", "sees", "b")%string];
                         edges := Some (map str_of ["sees"]%string) |}))
    by (vm_compute; reflexivity).
  split; [exact Hrs|]. split; [exact Hrun|].
  exact (proj1 (proj2 (proj2
           (refine_knowledge_graph_extends one_suggestion always_responds 0 2
              graph_to_complete _ 2 _ _ Hrs Hrun)))).
Defined.

Lemma refinement_adds_nothing_witness :
  lists_begin_with_bracket parses_by_first_character
  /\ is_Some (entities graph_to_complete)
  /\ relations graph_to_complete = Some [triple_of ("b", "sees", "a")%string]
  /\ (0 < 2)%Z
  /\ exists calls' log,
       Producer.refine_knowledge_graph parses_by_first_character answers_with_a_list 0
         graph_to_complete 2
       = (calls', log ++ [Producer.Iteration 1 1 1], Producer.Returned graph_to_complete)
       /\ 0 < calls' <= 0 + 5.
Proof.
  assert (Hloads : lists_begin_with_bracket parses_by_first_character).
  { intros s items. unfold parses_by_first_character.
    destruct (lstrip s) as [|c l]; [done|].
    case_bool_decide as Hc; [by rewrite Hc|]. by case_bool_decide. }
  assert (He : is_Some (entities graph_to_complete)) by (by eexists).
  assert (Hrs : relations graph_to_complete = Some [triple_of ("b", "sees", "a")%string])
    by reflexivity.
  assert (Hpos : (0 < 2)%Z) by lia.
  split; [exact Hloads|]. split; [exact He|]. split; [exact Hrs|]. split; [exact Hpos|].
  destruct (refinement_adds_nothing parses_by_first_character answers_with_a_list 0
              graph_to_complete 2 _ Hloads He Hrs Hpos) as (calls' & log & Hrun & Hcalls & _).
  exists calls', log. split; [exact Hrun|exact Hcalls].
Defined.

(** The reply is a list, and the parser would read it as one; what
    reaches the parser is the dict inside. *)
Example reply_list_arrives_as_dict :
  parses_by_first_character (str_of "[{a, sees, b}]")
  = Some (Producer.JList
            [Producer.Suggestion (Some (str_of "a")) (Some (str_of "sees"))
               (Some (str_of "b"))])
  /\ Producer.safe_generate parses_by_first_character answers_with_a_list 0
       (Producer.AnalyzePrompt [])
     = (1, [Producer.DebugResponse (str_of "[{a, sees, b}]")],
        Some (Producer.JOther true)).
Proof. split; vm_compute; reflexivity. Qed.

Example safe_generate_gives_up :
  Producer.safe_generate parses_by_first_character always_rate_limited 0
    (Producer.AnalyzePrompt [])
  = (5,
     [Producer.RateLimitWait 1; Producer.Sleep 10; Producer.RateLimitWait 2;
      Producer.Sleep 10; Producer.RateLimitWait 3; Producer.Sleep 10;
      Producer.RateLimitWait 4; Producer.Sleep 10; Producer.RateLimitWait 5;
      Producer.Sleep 10; Producer.MaxAttempts],
     None).
Proof. vm_compute. reflexivity. Qed.
